(** * Big Arrows: the argument-graph store ([useArrowsStore])

    A shallow embedding of the zustand/immer store of the Big Arrows
    prototype (types.ts, exampleData.ts, useArrowsStore.ts) and the
    properties of its navigation, CRUD and sub-frame operations.

    Conventions of the embedding:
    - a JS object used as a map ([Record<string, Frame>]) is a [gmap string _]
      over its own keys; reading [frames[k]] also sees the properties every
      plain object inherits from [Object.prototype] ([readFrame]); arrays are
      lists;
    - a [number] is held as a [Z]: the embedding covers the doubles that
      are integers. The one sum of the store on a number it is given,
      [level + 1], is rounded as the sum of doubles is ([roundToDouble]); it
      is the sum of [Z] from -2^53 to 2^53 - 1, and a theorem on that sum
      carries the bound;
    - an optional field ([f?: T]) is an [option]; a [Partial<T>] is a record
      of options, [None] meaning that the property is absent from the object
      literal, so that the spread [{...defaults, ...partial}] overrides exactly
      the fields that are present;
    - [nanoid()] is not computed: each creating action takes the string that
      this call of [nanoid()] returned as its first argument (21 characters,
      hence none of the names of [inheritedNames]);
    - an action is a function from the store state to a completion: either it
      returns a value and a new state, or it throws the [TypeError] that JS
      raises when a property of [undefined] is read; an exception leaves the
      store as it was. *)

From Stdlib Require Import ZArith.
From stdpp Require Import gmap strings list fin_maps.

Local Open Scope Z_scope.

(** ** Data model (types.ts) *)

Inductive NodeType := NodeProposition | NodeAxiom | NodeAssumption.
Inductive ArrowType := ArrowLogical | ArrowCausal | ArrowSupportive.

Module Position.
Record t := { x : Z; y : Z }.
End Position.

(** [data?: Record<string, any>]: passed through, never interpreted. *)
Definition Data := list (string * string).

(** [{...base, ...partial}] on one field. *)
Definition over {A} (base : A) (partial : option A) : A :=
  match partial with Some v => v | None => base end.

(** The same on a field that is itself optional in the full type. *)
Definition over_opt {A} (base : option A) (partial : option A) : option A :=
  match partial with Some v => Some v | None => base end.

Module Node.
Record t := {
  id : string;
  type : NodeType;
  content : string;
  position : Position.t;
  data : option Data
}.
End Node.

Module PartialNode.
Record t := {
  id : option string;
  type : option NodeType;
  content : option string;
  position : option Position.t;
  data : option Data
}.
Definition empty : t :=
  {| id := None; type := None; content := None; position := None; data := None |}.
End PartialNode.

Module Arrow.
Record t := {
  id : string;
  source : string;
  target : string;
  type : ArrowType;
  hasSubFrame : bool;
  subFrameId : option string
}.
End Arrow.

Module PartialArrow.
Record t := {
  id : option string;
  source : option string;
  target : option string;
  type : option ArrowType;
  hasSubFrame : option bool;
  subFrameId : option string
}.
Definition empty : t :=
  {| id := None; source := None; target := None; type := None;
     hasSubFrame := None; subFrameId := None |}.
End PartialArrow.

Module Frame.
Record t := {
  id : string;
  title : string;
  description : option string;
  nodes : list Node.t;
  arrows : list Arrow.t;
  parentArrowId : option string;
  level : Z
}.
Definition with_nodes (ns : list Node.t) (f : t) : t :=
  {| id := id f; title := title f; description := description f;
     nodes := ns; arrows := arrows f;
     parentArrowId := parentArrowId f; level := level f |}.
Definition with_arrows (ars : list Arrow.t) (f : t) : t :=
  {| id := id f; title := title f; description := description f;
     nodes := nodes f; arrows := ars;
     parentArrowId := parentArrowId f; level := level f |}.
End Frame.

Module PartialFrame.
Record t := {
  id : option string;
  title : option string;
  description : option string;
  nodes : option (list Node.t);
  arrows : option (list Arrow.t);
  parentArrowId : option string;
  level : option Z
}.
Definition empty : t :=
  {| id := None; title := None; description := None; nodes := None;
     arrows := None; parentArrowId := None; level := None |}.
End PartialFrame.

(** [{...n, ...p}] *)
Definition spreadNode (n : Node.t) (p : PartialNode.t) : Node.t :=
  {| Node.id := over (Node.id n) (PartialNode.id p);
     Node.type := over (Node.type n) (PartialNode.type p);
     Node.content := over (Node.content n) (PartialNode.content p);
     Node.position := over (Node.position n) (PartialNode.position p);
     Node.data := over_opt (Node.data n) (PartialNode.data p) |}.

Definition spreadArrow (a : Arrow.t) (p : PartialArrow.t) : Arrow.t :=
  {| Arrow.id := over (Arrow.id a) (PartialArrow.id p);
     Arrow.source := over (Arrow.source a) (PartialArrow.source p);
     Arrow.target := over (Arrow.target a) (PartialArrow.target p);
     Arrow.type := over (Arrow.type a) (PartialArrow.type p);
     Arrow.hasSubFrame := over (Arrow.hasSubFrame a) (PartialArrow.hasSubFrame p);
     Arrow.subFrameId := over_opt (Arrow.subFrameId a) (PartialArrow.subFrameId p) |}.

Definition spreadFrame (f : Frame.t) (p : PartialFrame.t) : Frame.t :=
  {| Frame.id := over (Frame.id f) (PartialFrame.id p);
     Frame.title := over (Frame.title f) (PartialFrame.title p);
     Frame.description := over_opt (Frame.description f) (PartialFrame.description p);
     Frame.nodes := over (Frame.nodes f) (PartialFrame.nodes p);
     Frame.arrows := over (Frame.arrows f) (PartialFrame.arrows p);
     Frame.parentArrowId := over_opt (Frame.parentArrowId f) (PartialFrame.parentArrowId p);
     Frame.level := over (Frame.level f) (PartialFrame.level p) |}.

(** ** Store state ([ArrowsState], data part) *)

Record ArrowsState := {
  frames : gmap string Frame.t;
  currentFrameId : string;
  expandedArrowId : option string;
  breadcrumbs : list string
}.

Definition with_frames (fs : gmap string Frame.t) (st : ArrowsState) : ArrowsState :=
  {| frames := fs; currentFrameId := currentFrameId st;
     expandedArrowId := expandedArrowId st; breadcrumbs := breadcrumbs st |}.
Definition with_currentFrameId (c : string) (st : ArrowsState) : ArrowsState :=
  {| frames := frames st; currentFrameId := c;
     expandedArrowId := expandedArrowId st; breadcrumbs := breadcrumbs st |}.
Definition with_expandedArrowId (e : option string) (st : ArrowsState) : ArrowsState :=
  {| frames := frames st; currentFrameId := currentFrameId st;
     expandedArrowId := e; breadcrumbs := breadcrumbs st |}.
Definition with_breadcrumbs (b : list string) (st : ArrowsState) : ArrowsState :=
  {| frames := frames st; currentFrameId := currentFrameId st;
     expandedArrowId := expandedArrowId st; breadcrumbs := b |}.

(** ** Actions: state passing with the one exception JS can raise here *)

Inductive Completion (A : Type) :=
| Normal (value : A) (st : ArrowsState)
| TypeError.
Arguments Normal {A} value st.
Arguments TypeError {A}.

Definition Action (A : Type) := ArrowsState → Completion A.

Global Instance action_ret : MRet Action := λ A a st, Normal a st.
Global Instance action_bind : MBind Action := λ A B k m st,
  match m st with
  | Normal a st' => k a st'
  | TypeError => TypeError
  end.

(** zustand's [get()] and [set(recipe)] (immer: the recipe edits a draft). *)
Definition get : Action ArrowsState := λ st, Normal st st.
Definition set (recipe : ArrowsState → ArrowsState) : Action unit :=
  λ st, Normal tt (recipe st).

(** Reading a property of [o]: a [TypeError] when [o] is [undefined]. On
    [frames st !! k] it stands for [frames[k]] followed by a call on its
    [nodes] or [arrows]: under an inherited name these are [undefined], and
    the call throws as well. *)
Definition deref {A} (o : option A) : Action A :=
  λ st, match o with Some a => Normal a st | None => TypeError end.

(** [set(recipe)] with a recipe that may throw: the exception reaches the
    caller and the store keeps its state. *)
Definition produce (recipe : ArrowsState → option ArrowsState) : Action unit :=
  λ st, match recipe st with Some st' => Normal tt st' | None => TypeError end.

(** The names every plain object inherits from [Object.prototype]. *)
Definition inheritedNames : list string :=
  ["constructor"; "__proto__"; "hasOwnProperty"; "isPrototypeOf";
   "propertyIsEnumerable"; "toLocaleString"; "toString"; "valueOf";
   "__defineGetter__"; "__defineSetter__"; "__lookupGetter__"; "__lookupSetter__"].

(** What [frames[k]] evaluates to: the frame stored under the own key [k];
    otherwise, for an inherited name, a function or [Object.prototype]
    itself, which is truthy and has no [nodes] and no [arrows]; otherwise
    [undefined]. *)
Inductive Property :=
| OwnFrame (frame : Frame.t)
| Inherited
| Undefined.

Definition readFrame (m : gmap string Frame.t) (k : string) : Property :=
  match m !! k with
  | Some frame => OwnFrame frame
  | None => if bool_decide (k ∈ inheritedNames) then Inherited else Undefined
  end.

(** ** Array and string helpers of the JS runtime used by the store *)

(** [arr.find(a => a.id === i)] and [arr.findIndex(...)] on arrows. *)
Definition findArrow (i : string) (l : list Arrow.t) : option Arrow.t :=
  snd <$> list_find (λ a, Arrow.id a = i) l.
Definition findArrowIndex (i : string) (l : list Arrow.t) : option (nat * Arrow.t) :=
  list_find (λ a, Arrow.id a = i) l.
Definition findNodeIndex (i : string) (l : list Node.t) : option (nat * Node.t) :=
  list_find (λ n, Node.id n = i) l.

(** A string is truthy unless it is empty. *)
Definition truthy (s : string) : bool := negb (String.eqb s "").

(** [arr.includes(x)], [arr.indexOf(x)] ([-1] when absent) and
    [arr.slice(0, e)] for [0 <= e]. *)
Definition includes (l : list string) (s : string) : bool := bool_decide (s ∈ l).
Definition indexOf (l : list string) (s : string) : Z :=
  match list_find (λ b, b = s) l with
  | Some (i, _) => Z.of_nat i
  | None => -1
  end.
Definition slice0 (l : list string) (e : Z) : list string := take (Z.to_nat e) l.

(** [arr.pop()], for its effect on the array. *)
Definition pop (l : list string) : list string := take (length l - 1)%nat l.

(** [Object.keys(m).indexOf(k) !== -1] *)
Definition hasKey (m : gmap string Frame.t) (k : string) : bool :=
  bool_decide (is_Some (m !! k)).

(** ** The store's actions (useArrowsStore.ts) *)

(** *** Navigation *)

(** [arrow?.hasSubFrame && arrow.subFrameId] *)
Definition expandable (arrow : option Arrow.t) : bool :=
  match arrow with
  | Some a =>
      Arrow.hasSubFrame a &&
      match Arrow.subFrameId a with Some s => truthy s | None => false end
  | None => false
  end.

Definition expandArrow (arrowId : string) : Action unit :=
  st ← get;
  currentFrame ← deref (frames st !! currentFrameId st);
  let arrow := findArrow arrowId (Frame.arrows currentFrame) in
  if expandable arrow
  then set (λ state, with_expandedArrowId (Some arrowId) state)
  else mret tt.

Definition collapseArrow : Action unit :=
  set (λ state, with_expandedArrowId None state).

Definition navigateToFrame (frameId : string) : Action unit :=
  st ← get;
  match readFrame (frames st) frameId with
  | Undefined => mret tt
  | _ =>
      set (λ state,
        let state := with_currentFrameId frameId state in
        let state := with_expandedArrowId None state in
        if negb (includes (breadcrumbs state) frameId)
        then with_breadcrumbs (breadcrumbs state ++ [frameId]) state
        else with_breadcrumbs
               (slice0 (breadcrumbs state) (indexOf (breadcrumbs state) frameId + 1))
               state)
  end.

Definition navigateBack : Action unit :=
  st ← get;
  let crumbs := breadcrumbs st in
  if bool_decide (1 < length crumbs)%nat
  then
    match crumbs !! (length crumbs - 2)%nat with
    | Some prevFrameId =>
        set (λ state,
          let state := with_currentFrameId prevFrameId state in
          let state := with_expandedArrowId None state in
          with_breadcrumbs (pop (breadcrumbs state)) state)
    | None => mret tt (* the index is in range when the length exceeds 1 *)
    end
  else mret tt.

(** *** Basic CRUD operations *)

Definition createNode (newNodeId : string) (frameId : string) (node : PartialNode.t)
  : Action string :=
  let newNode :=
    spreadNode
      {| Node.id := newNodeId;
         Node.type := NodeProposition;
         Node.content := "";
         Node.position := {| Position.x := 100; Position.y := 100 |};
         Node.data := None |}
      node in
  produce (λ state,
    match readFrame (frames state) frameId with
    | OwnFrame frame =>
        Some (with_frames
                (<[frameId := Frame.with_nodes (Frame.nodes frame ++ [newNode]) frame]>
                   (frames state))
                state)
    | Inherited => None (* [nodes] is [undefined]: [push] throws *)
    | Undefined => Some state
    end);;
  mret newNodeId.

Definition updateNode (frameId nodeId : string) (updates : PartialNode.t) : Action unit :=
  produce (λ state,
    match readFrame (frames state) frameId with
    | OwnFrame frame =>
        match findNodeIndex nodeId (Frame.nodes frame) with
        | Some (nodeIndex, old) =>
            Some (with_frames
                    (<[frameId :=
                         Frame.with_nodes
                           (<[nodeIndex := spreadNode old updates]> (Frame.nodes frame))
                           frame]>
                       (frames state))
                    state)
        | None => Some state
        end
    | Inherited => None (* [nodes] is [undefined]: [findIndex] throws *)
    | Undefined => Some state
    end).

Definition deleteNode (frameId nodeId : string) : Action unit :=
  produce (λ state,
    match readFrame (frames state) frameId with
    | OwnFrame frame =>
        let frame :=
          Frame.with_nodes (filter (λ n, Node.id n ≠ nodeId) (Frame.nodes frame)) frame in
        let frame :=
          Frame.with_arrows
            (filter (λ a, Arrow.source a ≠ nodeId ∧ Arrow.target a ≠ nodeId)
                    (Frame.arrows frame))
            frame in
        Some (with_frames (<[frameId := frame]> (frames state)) state)
    | Inherited => None (* [nodes] is [undefined]: [filter] throws *)
    | Undefined => Some state
    end).

Definition createArrow (newArrowId : string) (frameId : string) (arrow : PartialArrow.t)
  : Action string :=
  let newArrow :=
    spreadArrow
      {| Arrow.id := newArrowId;
         Arrow.source := "";
         Arrow.target := "";
         Arrow.type := ArrowLogical;
         Arrow.hasSubFrame := false;
         Arrow.subFrameId := None |}
      arrow in
  produce (λ state,
    match readFrame (frames state) frameId with
    | OwnFrame frame =>
        Some (with_frames
                (<[frameId := Frame.with_arrows (Frame.arrows frame ++ [newArrow]) frame]>
                   (frames state))
                state)
    | Inherited => None (* [arrows] is [undefined]: [push] throws *)
    | Undefined => Some state
    end);;
  mret newArrowId.

Definition updateArrow (frameId arrowId : string) (updates : PartialArrow.t) : Action unit :=
  produce (λ state,
    match readFrame (frames state) frameId with
    | OwnFrame frame =>
        match findArrowIndex arrowId (Frame.arrows frame) with
        | Some (arrowIndex, old) =>
            Some (with_frames
                    (<[frameId :=
                         Frame.with_arrows
                           (<[arrowIndex := spreadArrow old updates]> (Frame.arrows frame))
                           frame]>
                       (frames state))
                    state)
        | None => Some state
        end
    | Inherited => None (* [arrows] is [undefined]: [findIndex] throws *)
    | Undefined => Some state
    end).

Definition deleteArrow (frameId arrowId : string) : Action unit :=
  produce (λ state,
    match readFrame (frames state) frameId with
    | OwnFrame frame =>
        Some (with_frames
                (<[frameId :=
                     Frame.with_arrows
                       (filter (λ a, Arrow.id a ≠ arrowId) (Frame.arrows frame)) frame]>
                   (frames state))
                state)
    | Inherited => None (* [arrows] is [undefined]: [find] throws *)
    | Undefined => Some state
    end).

(** *** Frame actions *)

Definition createFrame (newFrameId : string) (frame : PartialFrame.t) : Action string :=
  let newFrame :=
    spreadFrame
      {| Frame.id := newFrameId;
         Frame.title := "New Frame";
         Frame.description := Some "";
         Frame.nodes := [];
         Frame.arrows := [];
         Frame.parentArrowId := None;
         Frame.level := 0 |}
      frame in
  set (λ state, with_frames (<[newFrameId := newFrame]> (frames state)) state);;
  mret newFrameId.

(** [arrows[i].hasSubFrame = true; arrows[i].subFrameId = newFrameId] *)
Definition bindSubFrame (newFrameId : string) (a : Arrow.t) : Arrow.t :=
  {| Arrow.id := Arrow.id a; Arrow.source := Arrow.source a;
     Arrow.target := Arrow.target a; Arrow.type := Arrow.type a;
     Arrow.hasSubFrame := true; Arrow.subFrameId := Some newFrameId |}.

(** The double nearest to the integer [n], ties to the even significand: [n]
    itself up to 2^53 in magnitude, and beyond that the nearest multiple of
    the spacing of the doubles around [n]. *)
Definition roundToDouble (n : Z) : Z :=
  let m := Z.abs n in
  if m <=? 9007199254740992 then n
  else
    let ulp := 2 ^ (Z.log2 m - 52) in
    let q := m / ulp in
    let r := m mod ulp in
    let q' :=
      if 2 * r <? ulp then q
      else if ulp <? 2 * r then q + 1
      else if Z.even q then q else q + 1 in
    Z.sgn n * (q' * ulp).

(** [x + y] on numbers. *)
Definition numberPlus (x y : Z) : Z := roundToDouble (x + y).

(** The levels on which [level + 1] is exact. *)
Definition safeLevel (level : Z) : Prop :=
  - 9007199254740992 ≤ level < 9007199254740992.

(** The frame literal [createSubFrame] builds before it spreads the caller's
    fields over it. *)
Definition subFrameDefaults (newFrameId arrowId : string) (currentFrame : Frame.t)
  : Frame.t :=
  {| Frame.id := newFrameId;
     Frame.title := "New Sub-Frame";
     Frame.description := Some "";
     Frame.nodes := [];
     Frame.arrows := [];
     Frame.parentArrowId := Some arrowId;
     Frame.level := numberPlus (Frame.level currentFrame) 1 |}.

Definition createSubFrame (newFrameId : string) (arrowId : string) (frame : PartialFrame.t)
  : Action string :=
  st ← get;
  let currentFrameId := currentFrameId st in
  currentFrame ← deref (frames st !! currentFrameId);
  match findArrow arrowId (Frame.arrows currentFrame) with
  | None => mret ""
  | Some _ =>
      let newFrame :=
        spreadFrame (subFrameDefaults newFrameId arrowId currentFrame) frame in
      set (λ state,
        (* Add the new frame *)
        let state := with_frames (<[newFrameId := newFrame]> (frames state)) state in
        (* Update the arrow to reference this frame *)
        if hasKey (frames state) currentFrameId
        then
          match frames state !! currentFrameId with
          | Some cur =>
              match findArrowIndex arrowId (Frame.arrows cur) with
              | Some (arrowIndex, a) =>
                  with_frames
                    (<[currentFrameId :=
                         Frame.with_arrows
                           (<[arrowIndex := bindSubFrame newFrameId a]> (Frame.arrows cur))
                           cur]>
                       (frames state))
                    state
              | None => state
              end
          | None => state
          end
        else state);;
      mret newFrameId
  end.

(** ** Seed data (exampleData.ts) and the initial state of the store *)

Definition mkNode (i : string) (t : NodeType) (c : string) (px py : Z) (d : Data)
  : Node.t :=
  {| Node.id := i; Node.type := t; Node.content := c;
     Node.position := {| Position.x := px; Position.y := py |};
     Node.data := Some d |}.

Definition mkArrow (i s t : string) (k : ArrowType) (has : bool) (sub : option string)
  : Arrow.t :=
  {| Arrow.id := i; Arrow.source := s; Arrow.target := t; Arrow.type := k;
     Arrow.hasSubFrame := has; Arrow.subFrameId := sub |}.

Definition mainFrame : Frame.t :=
  {| Frame.id := "main";
     Frame.title := "Climate Change Policy Argument";
     Frame.description := Some "Top-level argument structure";
     Frame.level := 0;
     Frame.parentArrowId := None;
     Frame.nodes :=
       [ mkNode "scientific-evidence" NodeProposition "Scientific Evidence" 250 100
           [("description", "Established Knowledge")];
         mkNode "carbon-tax" NodeProposition "Carbon Tax Policy" 650 100
           [("description", "Proposed Solution")];
         mkNode "economic-analysis" NodeProposition "Economic Analysis" 250 300
           [("description", "Impact Assessment")];
         mkNode "implementation-plan" NodeProposition "Implementation Plan" 650 300
           [("description", "Strategic Approach")] ];
     Frame.arrows :=
       [ mkArrow "arrow-scientific-to-carbon" "scientific-evidence" "carbon-tax"
           ArrowLogical true (Some "scientific-carbon");
         mkArrow "arrow-scientific-to-economic" "scientific-evidence" "economic-analysis"
           ArrowSupportive false None;
         mkArrow "arrow-economic-to-implementation" "economic-analysis"
           "implementation-plan" ArrowCausal false None;
         mkArrow "arrow-carbon-to-implementation" "carbon-tax" "implementation-plan"
           ArrowLogical false None ] |}.

Definition scientificCarbonFrame : Frame.t :=
  {| Frame.id := "scientific-carbon";
     Frame.title := "Scientific Evidence → Carbon Tax";
     Frame.description :=
       Some "Arguments linking scientific evidence to carbon tax policy";
     Frame.parentArrowId := Some "arrow-scientific-to-carbon";
     Frame.level := 1;
     Frame.nodes :=
       [ mkNode "human-co2" NodeProposition "Human Activity → CO2 Increase" 150 100 [];
         mkNode "co2-temp" NodeProposition "CO2 Increase → Temperature Rise" 400 100 [];
         mkNode "climate-models" NodeProposition "Climate Models" 150 250 [];
         mkNode "carbon-reduction" NodeProposition "Need for Carbon Reduction" 400 250 [];
         mkNode "carbon-tax-emissions" NodeProposition
           "Carbon Tax → Emissions Reduction" 275 400 [] ];
     Frame.arrows :=
       [ mkArrow "arrow-human-to-co2" "human-co2" "co2-temp" ArrowCausal false None;
         mkArrow "arrow-co2-to-reduction" "co2-temp" "carbon-reduction" ArrowLogical false None;
         mkArrow "arrow-models-to-reduction" "climate-models" "carbon-reduction"
           ArrowSupportive true (Some "climate-models-detail");
         mkArrow "arrow-reduction-to-tax" "carbon-reduction" "carbon-tax-emissions"
           ArrowLogical false None ] |}.

Definition climateModelsDetailFrame : Frame.t :=
  {| Frame.id := "climate-models-detail";
     Frame.title := "Climate Models";
     Frame.description := Some "Details on climate modeling";
     Frame.parentArrowId := Some "arrow-models-to-reduction";
     Frame.level := 2;
     Frame.nodes :=
       [ mkNode "physics" NodeAxiom "Atmospheric Physics" 100 100 [];
         mkNode "data" NodeProposition "Historical Data" 300 100 [];
         mkNode "models" NodeProposition "Simulation Models" 200 200 [] ];
     Frame.arrows :=
       [ mkArrow "arrow-physics-to-models" "physics" "models" ArrowSupportive false None;
         mkArrow "arrow-data-to-models" "data" "models" ArrowSupportive false None ] |}.

Definition exampleData : gmap string Frame.t :=
  <["main" := mainFrame]>
    (<["scientific-carbon" := scientificCarbonFrame]>
       (<["climate-models-detail" := climateModelsDetailFrame]> ∅)).

Definition initialState : ArrowsState :=
  {| frames := exampleData;
     currentFrameId := "main";
     expandedArrowId := None;
     breadcrumbs := ["main"] |}.

(** ** Sequences of store operations *)

Inductive Call :=
| ExpandArrow (arrowId : string)
| CollapseArrow
| NavigateToFrame (frameId : string)
| NavigateBack
| CreateNode (newNodeId frameId : string) (node : PartialNode.t)
| UpdateNode (frameId nodeId : string) (updates : PartialNode.t)
| DeleteNode (frameId nodeId : string)
| CreateArrow (newArrowId frameId : string) (arrow : PartialArrow.t)
| UpdateArrow (frameId arrowId : string) (updates : PartialArrow.t)
| DeleteArrow (frameId arrowId : string)
| CreateFrame (newFrameId : string) (frame : PartialFrame.t)
| CreateSubFrame (newFrameId arrowId : string) (frame : PartialFrame.t).

(** The state of the store once the call has completed; a call that throws
    leaves the store as it was. *)
Definition stateAfter {A} (m : Action A) (st : ArrowsState) : ArrowsState :=
  match m st with
  | Normal _ st' => st'
  | TypeError => st
  end.

Definition after (st : ArrowsState) (c : Call) : ArrowsState :=
  match c with
  | ExpandArrow arrowId => stateAfter (expandArrow arrowId) st
  | CollapseArrow => stateAfter collapseArrow st
  | NavigateToFrame frameId => stateAfter (navigateToFrame frameId) st
  | NavigateBack => stateAfter navigateBack st
  | CreateNode newNodeId frameId node => stateAfter (createNode newNodeId frameId node) st
  | UpdateNode frameId nodeId updates => stateAfter (updateNode frameId nodeId updates) st
  | DeleteNode frameId nodeId => stateAfter (deleteNode frameId nodeId) st
  | CreateArrow newArrowId frameId arrow =>
      stateAfter (createArrow newArrowId frameId arrow) st
  | UpdateArrow frameId arrowId updates =>
      stateAfter (updateArrow frameId arrowId updates) st
  | DeleteArrow frameId arrowId => stateAfter (deleteArrow frameId arrowId) st
  | CreateFrame newFrameId frame => stateAfter (createFrame newFrameId frame) st
  | CreateSubFrame newFrameId arrowId frame =>
      stateAfter (createSubFrame newFrameId arrowId frame) st
  end.

Fixpoint run (st : ArrowsState) (calls : list Call) : ArrowsState :=
  match calls with
  | [] => st
  | c :: rest => run (after st c) rest
  end.

(** ** Predicates the properties are stated with *)

Definition nodeIds (f : Frame.t) : list string := Node.id <$> Frame.nodes f.

(** Every arrow of the frame has both endpoints among the frame's nodes. *)
Definition closedFrame (f : Frame.t) : Prop :=
  Forall (λ a, Arrow.source a ∈ nodeIds f ∧ Arrow.target a ∈ nodeIds f)
         (Frame.arrows f).

Definition referentialIntegrity (st : ArrowsState) : Prop :=
  map_Forall (λ _ f, closedFrame f) (frames st).

(** Some node of some frame of the store bears the id [i]. *)
Definition bearsNodeId (st : ArrowsState) (i : string) : Prop :=
  map_Exists (λ _ f, Exists (λ n, Node.id n = i) (Frame.nodes f)) (frames st).

Definition bearsArrowId (st : ArrowsState) (i : string) : Prop :=
  map_Exists (λ _ f, Exists (λ a, Arrow.id a = i) (Frame.arrows f)) (frames st).

(** The expansion gate with a sub-frame that resolves: some arrow of the
    current frame has the id, is flagged, and is bound to a key of [frames]. *)
Definition resolvableSubFrame (st : ArrowsState) (arrowId : string) : Prop :=
  ∃ f a s,
    frames st !! currentFrameId st = Some f ∧
    a ∈ Frame.arrows f ∧ Arrow.id a = arrowId ∧
    Arrow.hasSubFrame a = true ∧
    Arrow.subFrameId a = Some s ∧ is_Some (frames st !! s).

(** The gate the store applies: the first arrow of the frame with the id is
    flagged and carries a non-empty [subFrameId]. *)
Definition firstArrowExpandable (f : Frame.t) (arrowId : string) : Prop :=
  ∃ i a s,
    Frame.arrows f !! i = Some a ∧ Arrow.id a = arrowId ∧
    (∀ j b, Frame.arrows f !! j = Some b → (j < i)%nat → Arrow.id b ≠ arrowId) ∧
    Arrow.hasSubFrame a = true ∧
    Arrow.subFrameId a = Some s ∧ s ≠ "".

(** An edit form that flags an arrow and binds it to a frame id that is not
    in the store. *)
Definition ghostUpdate : PartialArrow.t :=
  {| PartialArrow.id := None; PartialArrow.source := None;
     PartialArrow.target := None; PartialArrow.type := None;
     PartialArrow.hasSubFrame := Some true;
     PartialArrow.subFrameId := Some "ghost" |}.

Definition ghostState : ArrowsState :=
  run initialState [UpdateArrow "main" "arrow-scientific-to-economic" ghostUpdate].

(** Caller-supplied frame fields that fix a level, and that fix an id. *)
Definition levelSeven : PartialFrame.t :=
  {| PartialFrame.id := None; PartialFrame.title := Some "detail";
     PartialFrame.description := None; PartialFrame.nodes := None;
     PartialFrame.arrows := None; PartialFrame.parentArrowId := None;
     PartialFrame.level := Some 7 |}.

Definition frameWithId (i : string) : PartialFrame.t :=
  {| PartialFrame.id := Some i; PartialFrame.title := None;
     PartialFrame.description := None; PartialFrame.nodes := None;
     PartialFrame.arrows := None; PartialFrame.parentArrowId := None;
     PartialFrame.level := None |}.

(** The last breadcrumb is the current frame. *)
Definition trailEndsAtCurrent (st : ArrowsState) : Prop :=
  last (breadcrumbs st) = Some (currentFrameId st).

(** The current frame id and every breadcrumb are keys of [frames]. *)
Definition navigationResolves (st : ArrowsState) : Prop :=
  is_Some (frames st !! currentFrameId st) ∧
  Forall (λ b, is_Some (frames st !! b)) (breadcrumbs st).

(** The nodes and arrows a caller hands to a creating frame action, as the
    new frame will hold them, are closed. *)
Definition closedFields (frame : PartialFrame.t) : Prop :=
  Forall (λ a,
            Arrow.source a ∈ Node.id <$> over [] (PartialFrame.nodes frame) ∧
            Arrow.target a ∈ Node.id <$> over [] (PartialFrame.nodes frame))
         (over [] (PartialFrame.arrows frame)).

(** What the store leaves to its callers: the endpoints an arrow is created
    with, or updated to, are nodes of the frame; a node update keeps the
    node's id; the content given to a new frame is closed. *)
Definition honoursEndpointContract (st : ArrowsState) (c : Call) : Prop :=
  match c with
  | CreateArrow _ frameId arrow =>
      match frames st !! frameId with
      | Some f =>
          over "" (PartialArrow.source arrow) ∈ nodeIds f ∧
          over "" (PartialArrow.target arrow) ∈ nodeIds f
      | None => True
      end
  | UpdateArrow frameId _ updates =>
      match frames st !! frameId with
      | Some f =>
          (∀ s, PartialArrow.source updates = Some s → s ∈ nodeIds f) ∧
          (∀ t, PartialArrow.target updates = Some t → t ∈ nodeIds f)
      | None => True
      end
  | UpdateNode _ nodeId updates =>
      ∀ i, PartialNode.id updates = Some i → i = nodeId
  | CreateFrame _ frame => closedFields frame
  | CreateSubFrame _ _ frame => closedFields frame
  | _ => True
  end.

(** Every call of the sequence honours the contract in the state it is
    made in. *)
Fixpoint honoured (st : ArrowsState) (calls : list Call) : Prop :=
  match calls with
  | [] => True
  | c :: rest => honoursEndpointContract st c ∧ honoured (after st c) rest
  end.

(** A connection drawn between two nodes of the main frame. *)
Definition connectEvidenceToPlan : PartialArrow.t :=
  {| PartialArrow.id := None;
     PartialArrow.source := Some "scientific-evidence";
     PartialArrow.target := Some "implementation-plan";
     PartialArrow.type := None; PartialArrow.hasSubFrame := None;
     PartialArrow.subFrameId := None |}.


Global Instance closedFrame_dec (f : Frame.t) : Decision (closedFrame f).
Proof. unfold closedFrame. apply _. Defined.

Global Instance referentialIntegrity_dec (st : ArrowsState) :
  Decision (referentialIntegrity st).
Proof. unfold referentialIntegrity. apply _. Defined.


(** ** The components' event handlers

    A handler is modelled as the bindings of its component's render that it
    uses, followed by its body; the render is taken against the state of the
    store at the time of the event. The local state of a form (React
    [useState]) reaches a handler as an argument, and [onClose] and the
    setters of that local state, which do not touch the store, are left out. *)

(** [nodes.find(n => n.id === i)] *)
Definition findNode (i : string) (l : list Node.t) : option Node.t :=
  snd <$> list_find (λ n, Node.id n = i) l.

(** Truthiness of an optional string ([undefined] and [null] are falsy). *)
Definition truthyOpt (o : option string) : bool :=
  match o with Some s => truthy s | None => false end.

(** [{...d, [k]: v}] on a record used as a map: an existing key keeps its
    place and takes the new value, a new key goes last. *)
Fixpoint assign (k v : string) (d : Data) : Data :=
  match d with
  | [] => [(k, v)]
  | (k', v') :: rest =>
      if decide (k' = k) then (k, v) :: rest else (k', v') :: assign k v rest
  end.

(** reactflow's [Connection], for the two fields the canvas reads. *)
Module Connection.
Record t := { source : option string; target : option string }.
End Connection.

Module Toolbar.

Definition handleAddNode (newNodeId : string) : Action unit :=
  st ← get;
  createNode newNodeId (currentFrameId st)
    {| PartialNode.id := None; PartialNode.type := None;
       PartialNode.content := Some "New Proposition";
       PartialNode.position := Some {| Position.x := 200; Position.y := 200 |};
       PartialNode.data := None |};;
  mret tt.

End Toolbar.

Module BigArrowsCanvas.

Definition onConnect (newArrowId : string) (connection : Connection.t) : Action unit :=
  st ← get;
  match Connection.source connection, Connection.target connection with
  | Some source, Some target =>
      if truthy source && truthy target
      then
        createArrow newArrowId (currentFrameId st)
          {| PartialArrow.id := None;
             PartialArrow.source := Some source;
             PartialArrow.target := Some target;
             PartialArrow.type := Some ArrowLogical;
             PartialArrow.hasSubFrame := Some false;
             PartialArrow.subFrameId := None |};;
        mret tt
      else mret tt
  | _, _ => mret tt
  end.

Definition onNodeDragStop (nodeId : string) (position : Position.t) : Action unit :=
  st ← get;
  updateNode (currentFrameId st) nodeId
    {| PartialNode.id := None; PartialNode.type := None;
       PartialNode.content := None;
       PartialNode.position := Some position;
       PartialNode.data := None |}.

End BigArrowsCanvas.

Module CustomEdge.

(** [data] is the arrow record the canvas attached to the edge, if any. *)
Definition handleExpandClick (id : string) (data : option Arrow.t) : Action unit :=
  if match data with Some a => Arrow.hasSubFrame a | None => false end
  then expandArrow id
  else mret tt.

End CustomEdge.

Module ExpandedArrow.

(** The overlay renders nothing, and so offers no button, unless the arrow
    passes the same test as in [expandArrow]; it then reads the sub-frame. *)
Definition handleNavigateToFrame (arrowId : string) : Action unit :=
  st ← get;
  currentFrame ← deref (frames st !! currentFrameId st);
  let arrow := findArrow arrowId (Frame.arrows currentFrame) in
  match arrow with
  | Some a =>
      if negb (Arrow.hasSubFrame a) || negb (truthyOpt (Arrow.subFrameId a))
      then mret tt
      else
        subFrame ← deref (Arrow.subFrameId a ≫= λ s, frames st !! s);
        navigateToFrame (Frame.id subFrame)
  | None => mret tt
  end.

End ExpandedArrow.

Module Breadcrumbs.

(** The component renders one button per entry of the trail, and a click
    passes that entry: an id that is not in the trail has no button. *)
Definition onClick (frameId : string) : Action unit :=
  st ← get;
  if includes (breadcrumbs st) frameId then navigateToFrame frameId else mret tt.

End Breadcrumbs.

Module NodePanel.

Definition handleSave (nodeId : string) (content : string) (type : NodeType)
    (description : string) : Action unit :=
  st ← get;
  frame ← deref (frames st !! currentFrameId st);
  let node := findNode nodeId (Frame.nodes frame) in
  match node with
  | Some node =>
      updateNode (currentFrameId st) nodeId
        {| PartialNode.id := None;
           PartialNode.type := Some type;
           PartialNode.content := Some content;
           PartialNode.position := None;
           PartialNode.data :=
             Some (assign "description" description (default [] (Node.data node))) |}
  | None => mret tt
  end.

Definition handleDelete (nodeId : string) : Action unit :=
  st ← get;
  deleteNode (currentFrameId st) nodeId.

End NodePanel.

Module ArrowPanel.

Definition handleSave (arrowId : string) (type : ArrowType) (hasSubFrame : bool)
  : Action unit :=
  st ← get;
  frame ← deref (frames st !! currentFrameId st);
  let arrow := findArrow arrowId (Frame.arrows frame) in
  match arrow with
  | Some _ =>
      updateArrow (currentFrameId st) arrowId
        {| PartialArrow.id := None; PartialArrow.source := None;
           PartialArrow.target := None;
           PartialArrow.type := Some type;
           PartialArrow.hasSubFrame := Some hasSubFrame;
           PartialArrow.subFrameId := None |}
  | None => mret tt
  end.

Definition handleDelete (arrowId : string) : Action unit :=
  st ← get;
  deleteArrow (currentFrameId st) arrowId.

(** [{ hasSubFrame: true }] *)
Definition enable : PartialArrow.t :=
  {| PartialArrow.id := None; PartialArrow.source := None;
     PartialArrow.target := None; PartialArrow.type := None;
     PartialArrow.hasSubFrame := Some true;
     PartialArrow.subFrameId := None |}.

(** The title given to a new sub-frame. *)
Definition subFrameTitle (frame : Frame.t) (arrow : Arrow.t) : string :=
  let sourceNode := findNode (Arrow.source arrow) (Frame.nodes frame) in
  let targetNode := findNode (Arrow.target arrow) (Frame.nodes frame) in
  match sourceNode, targetNode with
  | Some sourceNode, Some targetNode =>
      String.append (Node.content sourceNode)
        (String.append " â†’ " (Node.content targetNode))
  | _, _ => "New Sub-Frame"
  end.

Definition subFrameFields (frame : Frame.t) (arrow : Arrow.t) : PartialFrame.t :=
  {| PartialFrame.id := None;
     PartialFrame.title := Some (subFrameTitle frame arrow);
     PartialFrame.description := Some "Arguments supporting this relationship";
     PartialFrame.nodes := None; PartialFrame.arrows := None;
     PartialFrame.parentArrowId := None; PartialFrame.level := None |}.

Definition handleCreateSubFrame (newFrameId : string) (arrowId : string) : Action unit :=
  st ← get;
  frame ← deref (frames st !! currentFrameId st);
  let arrow := findArrow arrowId (Frame.arrows frame) in
  match arrow with
  | Some arrow =>
      (* If already has a sub-frame, just enable it *)
      if truthyOpt (Arrow.subFrameId arrow)
      then updateArrow (currentFrameId st) arrowId enable
      else
        (* Create a new sub-frame *)
        createSubFrame newFrameId arrowId (subFrameFields frame arrow);;
        mret tt
  | None => mret tt
  end.

End ArrowPanel.

(** ** Sequences of user events *)

Inductive Event :=
| ToolbarAddNode (newNodeId : string)
| ToolbarBack
| BreadcrumbClick (frameId : string)
| CanvasConnect (newArrowId : string) (connection : Connection.t)
| CanvasNodeDragStop (nodeId : string) (position : Position.t)
| CanvasCloseExpanded
| EdgeExpandClick (id : string) (data : option Arrow.t)
| OverlayOpenFullScreen (arrowId : string)
| NodePanelSave (nodeId : string) (content : string) (type : NodeType)
    (description : string)
| NodePanelDelete (nodeId : string)
| ArrowPanelSave (arrowId : string) (type : ArrowType) (hasSubFrame : bool)
| ArrowPanelDelete (arrowId : string)
| ArrowPanelCreateSubFrame (newFrameId : string) (arrowId : string).

Definition handle (e : Event) : Action unit :=
  match e with
  | ToolbarAddNode newNodeId => Toolbar.handleAddNode newNodeId
  | ToolbarBack => navigateBack
  | BreadcrumbClick frameId => Breadcrumbs.onClick frameId
  | CanvasConnect newArrowId connection =>
      BigArrowsCanvas.onConnect newArrowId connection
  | CanvasNodeDragStop nodeId position =>
      BigArrowsCanvas.onNodeDragStop nodeId position
  | CanvasCloseExpanded => collapseArrow
  | EdgeExpandClick id data => CustomEdge.handleExpandClick id data
  | OverlayOpenFullScreen arrowId => ExpandedArrow.handleNavigateToFrame arrowId
  | NodePanelSave nodeId content type description =>
      NodePanel.handleSave nodeId content type description
  | NodePanelDelete nodeId => NodePanel.handleDelete nodeId
  | ArrowPanelSave arrowId type hasSubFrame =>
      ArrowPanel.handleSave arrowId type hasSubFrame
  | ArrowPanelDelete arrowId => ArrowPanel.handleDelete arrowId
  | ArrowPanelCreateSubFrame newFrameId arrowId =>
      ArrowPanel.handleCreateSubFrame newFrameId arrowId
  end.

Fixpoint interact (st : ArrowsState) (events : list Event) : ArrowsState :=
  match events with
  | [] => st
  | e :: rest => interact (stateAfter (handle e) st) rest
  end.

(** A drawn connection joins two nodes of the frame on display. *)
Definition joinsDisplayedNodes (st : ArrowsState) (e : Event) : Prop :=
  match e with
  | CanvasConnect _ connection =>
      match frames st !! currentFrameId st,
            Connection.source connection, Connection.target connection with
      | Some f, Some source, Some target => source ∈ nodeIds f ∧ target ∈ nodeIds f
      | _, _, _ => True
      end
  | _ => True
  end.

Fixpoint drawnOnDisplay (st : ArrowsState) (events : list Event) : Prop :=
  match events with
  | [] => True
  | e :: rest =>
      joinsDisplayedNodes st e ∧ drawnOnDisplay (stateAfter (handle e) st) rest
  end.

(** ** Further predicates on states *)

(** Every frame is stored under its own id. *)
Definition keysAreIds (st : ArrowsState) : Prop :=
  map_Forall (λ k f, Frame.id f = k) (frames st).

(** Every sub-frame an arrow is bound to is a key of [frames]. *)
Definition subFramesResolve (st : ArrowsState) : Prop :=
  map_Forall
    (λ _ f, Forall (λ a, ∀ s, Arrow.subFrameId a = Some s → is_Some (frames st !! s))
                   (Frame.arrows f))
    (frames st).

(** A call that does not hand an id to a new frame. *)
Definition namesNoFrame (c : Call) : Prop :=
  match c with
  | CreateFrame _ frame => PartialFrame.id frame = None
  | CreateSubFrame _ _ frame => PartialFrame.id frame = None
  | _ => True
  end.

(** n-fold [navigateBack]. *)
Fixpoint backs (n : nat) : list Call :=
  match n with
  | O => []
  | S n => NavigateBack :: backs n
  end.

(** The frame an editing call works on. *)
Definition editedFrame (c : Call) : option string :=
  match c with
  | CreateNode _ frameId _ => Some frameId
  | UpdateNode frameId _ _ => Some frameId
  | DeleteNode frameId _ => Some frameId
  | CreateArrow _ frameId _ => Some frameId
  | UpdateArrow frameId _ _ => Some frameId
  | DeleteArrow frameId _ => Some frameId
  | _ => None
  end.

(** The four navigation calls. *)
Definition isNavigation (c : Call) : bool :=
  match c with
  | ExpandArrow _ | CollapseArrow | NavigateToFrame _ | NavigateBack => true
  | _ => false
  end.

(** Reading the property [k] of a record used as a map. *)
Definition prop (k : string) (d : Data) : option string :=
  match list_find (λ p : string * string, p.1 = k) (d : list (string * string)) with
  | Some (_, (_, v)) => Some v
  | None => None
  end.

(** A call that binds no arrow to a sub-frame by hand. *)
Definition bindsNoSubFrame (c : Call) : Prop :=
  match c with
  | CreateArrow _ _ arrow => PartialArrow.subFrameId arrow = None
  | UpdateArrow _ _ updates => PartialArrow.subFrameId updates = None
  | CreateFrame _ frame => PartialFrame.arrows frame = None
  | CreateSubFrame _ _ frame => PartialFrame.arrows frame = None
  | _ => True
  end.

(** Caller-supplied frame fields for a frame at level 2^53 with one arrow. *)
Definition deepFrame : PartialFrame.t :=
  {| PartialFrame.id := None; PartialFrame.title := Some "deep";
     PartialFrame.description := None; PartialFrame.nodes := None;
     PartialFrame.arrows := Some [mkArrow "a1" "" "" ArrowLogical false None];
     PartialFrame.parentArrowId := None;
     PartialFrame.level := Some 9007199254740992 |}.

(** A [navigateToFrame] call whose target is a key of [frames], or at least
    no inherited name. *)
Definition targetsFrame (st : ArrowsState) (c : Call) : Prop :=
  match c with
  | NavigateToFrame frameId => is_Some (frames st !! frameId) ∨ frameId ∉ inheritedNames
  | _ => True
  end.

Fixpoint targeted (st : ArrowsState) (calls : list Call) : Prop :=
  match calls with
  | [] => True
  | c :: rest => targetsFrame st c ∧ targeted (after st c) rest
  end.

(** ** Worked examples on the seed data *)

Example seed_main : initialState.(frames) !! "main" = Some mainFrame.
Proof. reflexivity. Qed.

Example seed_expand :
  stateAfter (expandArrow "arrow-scientific-to-carbon") initialState
  = with_expandedArrowId (Some "arrow-scientific-to-carbon") initialState.
Proof. reflexivity. Qed.

(** ** Facts about the array helpers *)

Section ArrayHelpers.

Lemma includes_true l s : includes l s = true ↔ s ∈ l.
Proof. unfold includes. by rewrite bool_decide_eq_true. Qed.

Lemma includes_false l s : includes l s = false ↔ s ∉ l.
Proof. unfold includes. by rewrite bool_decide_eq_false. Qed.

(** The first occurrence splits the array. *)
Lemma first_occurrence (l : list string) s :
  s ∈ l → ∃ pre post, l = pre ++ s :: post ∧ s ∉ pre.
Proof.
  induction l as [|b l IH]; intros Hin.
  - by apply elem_of_nil in Hin.
  - destruct (decide (b = s)) as [->|Hne].
    + exists [], l. split; [done | apply not_elem_of_nil].
    + apply elem_of_cons in Hin as [->|Hin]; [done |].
      destruct (IH Hin) as (pre & post & -> & Hpre).
      exists (b :: pre), post. split; [done |].
      rewrite elem_of_cons. by intros [?|?].
Qed.

Lemma indexOf_first pre post s :
  s ∉ pre → indexOf (pre ++ s :: post) s = Z.of_nat (length pre).
Proof.
  intros Hpre. unfold indexOf.
  assert (list_find (λ b, b = s) (pre ++ s :: post) = Some (length pre, s)) as ->;
    [| done].
  apply list_find_Some. split_and!.
  - by rewrite list_lookup_middle.
  - done.
  - intros j b Hj Hlt ->. apply Hpre.
    rewrite lookup_app_l in Hj by done. by eapply list_elem_of_lookup_2.
Qed.

Lemma indexOf_absent l s : s ∉ l → indexOf l s = -1.
Proof.
  intros Hl. unfold indexOf.
  assert (list_find (λ b, b = s) l = None) as ->; [| done].
  apply list_find_None, Forall_forall. intros b Hb ->. done.
Qed.

Lemma slice0_through pre post s :
  slice0 (pre ++ s :: post) (Z.of_nat (length pre) + 1) = pre ++ [s].
Proof.
  unfold slice0.
  replace (Z.to_nat (Z.of_nat (length pre) + 1)) with (length pre + 1)%nat by lia.
  rewrite take_app_add'; [| done]. done.
Qed.

Lemma pop_snoc (l : list string) b : pop (l ++ [b]) = l.
Proof.
  unfold pop. rewrite length_app. simpl.
  replace (length l + 1 - 1)%nat with (length l) by lia.
  by rewrite take_app_length.
Qed.

(** An array of length at least two ends in its last two entries. *)
Lemma last_two (l : list string) :
  (1 < length l)%nat → ∃ init prev lst, l = init ++ [prev; lst].
Proof.
  intros Hlen.
  destruct (exists_last (l:=l)) as (l1 & lst & ->).
  { intros ->. simpl in Hlen. lia. }
  destruct (exists_last (l:=l1)) as (init & prev & ->).
  { intros ->. simpl in Hlen. lia. }
  exists init, prev, lst. by rewrite <- app_assoc.
Qed.

End ArrayHelpers.

(** ** Navigation *)

Section PropertyReads.

Lemma readFrame_own m k frame : m !! k = Some frame → readFrame m k = OwnFrame frame.
Proof. intros H. unfold readFrame. by rewrite H. Qed.

Lemma readFrame_inherited m k :
  m !! k = None → k ∈ inheritedNames → readFrame m k = Inherited.
Proof. intros H Hk. unfold readFrame. by rewrite H, bool_decide_eq_true_2. Qed.

Lemma readFrame_undefined m k :
  m !! k = None → k ∉ inheritedNames → readFrame m k = Undefined.
Proof. intros H Hk. unfold readFrame. by rewrite H, bool_decide_eq_false_2. Qed.

(** The test [if (frames[k])] passes on the keys and on the inherited
    names. *)
Lemma readFrame_truthy m k :
  readFrame m k ≠ Undefined ↔ is_Some (m !! k) ∨ k ∈ inheritedNames.
Proof.
  unfold readFrame. destruct (m !! k) as [frame|] eqn:H.
  - split; [eauto | done].
  - destruct (decide (k ∈ inheritedNames)) as [Hk|Hk].
    + rewrite bool_decide_eq_true_2 by done. split; [auto | done].
    + rewrite bool_decide_eq_false_2 by done. split; [done |].
      intros [[? ?]|?]; done.
Qed.

End PropertyReads.

Section Navigation.

Lemma navigateToFrame_no_frame st frameId :
  frames st !! frameId = None → frameId ∉ inheritedNames →
  navigateToFrame frameId st = Normal tt st.
Proof.
  intros H Hk. unfold navigateToFrame, mbind, action_bind, get.
  by rewrite readFrame_undefined.
Qed.

Lemma navigateToFrame_truthy st frameId :
  readFrame (frames st) frameId ≠ Undefined →
  navigateToFrame frameId st
  = Normal tt
      {| frames := frames st;
         currentFrameId := frameId;
         expandedArrowId := None;
         breadcrumbs :=
           if negb (includes (breadcrumbs st) frameId)
           then breadcrumbs st ++ [frameId]
           else slice0 (breadcrumbs st) (indexOf (breadcrumbs st) frameId + 1) |}.
Proof.
  intros H. unfold navigateToFrame, mbind, action_bind, get, set.
  destruct (readFrame (frames st) frameId); [| | done];
    simpl; by destruct (includes (breadcrumbs st) frameId).
Qed.

Lemma navigateToFrame_known st frameId :
  is_Some (frames st !! frameId) →
  navigateToFrame frameId st
  = Normal tt
      {| frames := frames st;
         currentFrameId := frameId;
         expandedArrowId := None;
         breadcrumbs :=
           if negb (includes (breadcrumbs st) frameId)
           then breadcrumbs st ++ [frameId]
           else slice0 (breadcrumbs st) (indexOf (breadcrumbs st) frameId + 1) |}.
Proof. intros H. apply navigateToFrame_truthy, readFrame_truthy. by left. Qed.

(** The two outcomes of [navigateToFrame]. *)
Lemma navigateToFrame_cases st frameId :
  navigateToFrame frameId st = Normal tt st ∨
  (is_Some (frames st !! frameId) ∨ frameId ∈ inheritedNames) ∧
  navigateToFrame frameId st
  = Normal tt
      {| frames := frames st;
         currentFrameId := frameId;
         expandedArrowId := None;
         breadcrumbs :=
           if negb (includes (breadcrumbs st) frameId)
           then breadcrumbs st ++ [frameId]
           else slice0 (breadcrumbs st) (indexOf (breadcrumbs st) frameId + 1) |}.
Proof.
  destruct (readFrame (frames st) frameId) eqn:H.
  - right. split; [apply readFrame_truthy | apply navigateToFrame_truthy];
      by rewrite H.
  - right. split; [apply readFrame_truthy | apply navigateToFrame_truthy];
      by rewrite H.
  - left. unfold navigateToFrame, mbind, action_bind, get. by rewrite H.
Qed.

Lemma navigateBack_short st :
  (length (breadcrumbs st) ≤ 1)%nat → navigateBack st = Normal tt st.
Proof.
  intros H. unfold navigateBack, mbind, action_bind, get.
  rewrite bool_decide_eq_false_2 by lia. done.
Qed.

Lemma navigateBack_pops st init prev lst :
  breadcrumbs st = init ++ [prev; lst] →
  navigateBack st
  = Normal tt
      {| frames := frames st;
         currentFrameId := prev;
         expandedArrowId := None;
         breadcrumbs := init ++ [prev] |}.
Proof.
  intros H. unfold navigateBack, mbind, action_bind, get, set. rewrite H.
  rewrite bool_decide_eq_true_2 by (rewrite length_app; simpl; lia).
  assert ((init ++ [prev; lst]) !! (length (init ++ [prev; lst]) - 2)%nat = Some prev)
    as ->.
  { rewrite length_app. simpl.
    replace (length init + 2 - 2)%nat with (length init) by lia.
    by rewrite list_lookup_middle. }
  simpl. rewrite H.
  replace (init ++ [prev; lst]) with ((init ++ [prev]) ++ [lst])
    by (rewrite <- app_assoc; done).
  by rewrite pop_snoc.
Qed.

End Navigation.

(** The rule of the trail. [navigateToFrame(frameId)] on an id that is neither
    a key of [frames] nor an inherited name changes nothing. On a key of
    [frames] it makes that frame current, clears [expandedArrowId], leaves
    [frames] alone and updates the trail: an id that is not in the trail is
    appended at its end; an id that is in the trail cuts the trail just
    after its first occurrence, dropping all that followed. *)
Lemma navigateToFrame_trail_rule (st : ArrowsState) (frameId : string) :
  (frames st !! frameId = None → frameId ∉ inheritedNames →
   navigateToFrame frameId st = Normal tt st) ∧
  (is_Some (frames st !! frameId) →
   ∃ st', navigateToFrame frameId st = Normal tt st' ∧
     frames st' = frames st ∧
     currentFrameId st' = frameId ∧
     expandedArrowId st' = None ∧
     (frameId ∉ breadcrumbs st → breadcrumbs st' = breadcrumbs st ++ [frameId]) ∧
     (frameId ∈ breadcrumbs st →
      ∃ pre post, breadcrumbs st = pre ++ frameId :: post ∧ (frameId ∉ pre) ∧
                  breadcrumbs st' = pre ++ [frameId])).
Proof.
  split; [apply navigateToFrame_no_frame |].
  intros Hk. eexists. split; [by apply navigateToFrame_known |]. simpl.
  split_and!; try done.
  - intros Hno. apply includes_false in Hno. by rewrite Hno.
  - intros Hin. destruct (first_occurrence _ _ Hin) as (pre & post & Hl & Hpre).
    exists pre, post. split_and!; try done.
    apply includes_true in Hin. rewrite Hin. simpl.
    rewrite Hl, indexOf_first by done. apply slice0_through.
Qed.

Example navigateToFrame_jump_back :
  navigateToFrame "main"
    (run initialState [NavigateToFrame "scientific-carbon";
                       NavigateToFrame "climate-models-detail"])
  = Normal tt initialState.
Proof. reflexivity. Qed.

(** C5. The test of [navigateToFrame] passes on a name that [frames]
    inherits from [Object.prototype]. From the initial state,
    [navigateToFrame('constructor')], on an id that is not a key of
    [frames], does not leave the state as it was: it makes 'constructor' the
    current frame id and appends it to the trail. *)
Theorem navigateToFrame_inherited_name :
  frames initialState !! "constructor" = None ∧
  navigateToFrame "constructor" initialState
  = Normal tt
      {| frames := frames initialState;
         currentFrameId := "constructor";
         expandedArrowId := None;
         breadcrumbs := ["main"; "constructor"] |} ∧
  stateAfter (navigateToFrame "constructor") initialState ≠ initialState.
Proof. split_and!; [reflexivity | reflexivity | discriminate]. Qed.

(** ** Node CRUD *)

Ltac unfold_action :=
  unfold mbind, action_bind, mret, action_ret, get, set, deref, produce, readFrame;
  simpl.

(** The id is no key of [frames]: the recipe throws or does nothing, and
    the state is as before either way. *)
Ltac no_frame := destruct (bool_decide (_ ∈ inheritedNames)); simpl; done.

Lemma deleteNode_no_frame st frameId nodeId :
  frames st !! frameId = None → frameId ∉ inheritedNames →
  deleteNode frameId nodeId st = Normal tt st.
Proof.
  intros H Hk. unfold deleteNode, produce. by rewrite readFrame_undefined.
Qed.

(** C7. [deleteNode(f, nodeId)] on a frame of the mapping keeps, in their
    order, the nodes of [f] whose id is not [nodeId] and the arrows of [f]
    that neither start nor end at [nodeId], and drops the others; the rest of
    the frame record, every other frame, the key set of [frames] and the
    navigation fields are as before. *)
Theorem deleteNode_cascade
    (st : ArrowsState) (frameId nodeId : string) (f : Frame.t) :
  frames st !! frameId = Some f →
  ∃ st' f',
    deleteNode frameId nodeId st = Normal tt st' ∧
    frames st' !! frameId = Some f' ∧
    Frame.nodes f' = filter (λ n, Node.id n ≠ nodeId) (Frame.nodes f) ∧
    (∀ n, n ∈ Frame.nodes f' ↔ n ∈ Frame.nodes f ∧ Node.id n ≠ nodeId) ∧
    Frame.arrows f'
    = filter (λ a, Arrow.source a ≠ nodeId ∧ Arrow.target a ≠ nodeId) (Frame.arrows f) ∧
    (∀ a, a ∈ Frame.arrows f' ↔
          a ∈ Frame.arrows f ∧ ¬ (Arrow.source a = nodeId ∨ Arrow.target a = nodeId)) ∧
    (Frame.id f' = Frame.id f ∧ Frame.title f' = Frame.title f ∧
     Frame.description f' = Frame.description f ∧
     Frame.parentArrowId f' = Frame.parentArrowId f ∧ Frame.level f' = Frame.level f) ∧
    (∀ g, g ≠ frameId → frames st' !! g = frames st !! g) ∧
    dom (frames st') = dom (frames st) ∧
    currentFrameId st' = currentFrameId st ∧
    expandedArrowId st' = expandedArrowId st ∧
    breadcrumbs st' = breadcrumbs st.
Proof.
  intros Hf. unfold deleteNode. unfold_action. rewrite Hf.
  eexists _, _. split; [reflexivity |]. simpl.
  split; [apply lookup_insert_eq |]. simpl.
  split_and!; try done.
  - intros n. by rewrite list_elem_of_filter, (comm and).
  - intros a. rewrite list_elem_of_filter. split.
    + intros [[Hs Ht] Ha]. split; [done |]. by intros [?|?].
    + intros [Ha Hno]. split; [| done]. split; intros ?; apply Hno; auto.
  - intros g Hg. by rewrite lookup_insert_ne.
  - rewrite dom_insert_L. apply elem_of_dom_2 in Hf. set_solver.
Qed.

Lemma deleteNode_cascade_witness :
  ∃ st' f',
    deleteNode "main" "carbon-tax" initialState = Normal tt st' ∧
    frames st' !! "main" = Some f' ∧
    nodeIds f' = ["scientific-evidence"; "economic-analysis"; "implementation-plan"] ∧
    Arrow.id <$> Frame.arrows f'
    = ["arrow-scientific-to-economic"; "arrow-economic-to-implementation"].
Proof.
  destruct (deleteNode_cascade initialState "main" "carbon-tax" mainFrame)
    as (st' & f' & Hrun & Hf' & Hn & _ & Ha & _); [reflexivity |].
  exists st', f'. split_and!; try done.
  - unfold nodeIds. rewrite Hn. reflexivity.
  - rewrite Ha. reflexivity.
Defined.

(** [createNode] on a frame id that is neither a key of [frames] nor an
    inherited name returns the generated id and leaves the whole state as it
    was. *)
Lemma createNode_no_frame
    (st : ArrowsState) (newNodeId frameId : string) (node : PartialNode.t) :
  frames st !! frameId = None → frameId ∉ inheritedNames →
  createNode newNodeId frameId node st = Normal newNodeId st.
Proof.
  intros Hf Hk. unfold createNode, produce, mbind, action_bind.
  by rewrite readFrame_undefined.
Qed.

Example createNode_nowhere :
  createNode "n1" "nowhere" PartialNode.empty initialState = Normal "n1" initialState.
Proof. reflexivity. Qed.

(** C6. [createNode] throws on a name that [frames] inherits from
    [Object.prototype]. From the initial state,
    [createNode('constructor', {})], on a frame id that is not a key of
    [frames], returns no id: the test of line 101 passes on the inherited
    property, whose [nodes] is [undefined], and [push] raises a
    [TypeError]. *)
Theorem createNode_inherited_name_throws :
  frames initialState !! "constructor" = None ∧
  createNode "n1" "constructor" PartialNode.empty initialState = TypeError.
Proof. split; reflexivity. Qed.

(** ** Expansion *)

Section Expansion.

Lemma truthy_nonempty s : truthy s = true ↔ s ≠ "".
Proof.
  unfold truthy. rewrite negb_true_iff. apply String.eqb_neq.
Qed.

(** The boolean test of the source against its reading on the array. *)
Lemma expandable_first f arrowId :
  expandable (findArrow arrowId (Frame.arrows f)) = true
  ↔ firstArrowExpandable f arrowId.
Proof.
  unfold findArrow, firstArrowExpandable. split.
  - destruct (list_find _ _) as [[i a]|] eqn:Hfind; simpl; [| done].
    apply list_find_Some in Hfind as (Hi & Hid & Hfirst).
    intros [Hflag Hsub]%andb_true_iff.
    destruct (Arrow.subFrameId a) as [s|] eqn:Hs; [| done].
    exists i, a, s. split_and!; try done. by apply truthy_nonempty.
  - intros (i & a & s & Hi & Hid & Hfirst & Hflag & Hs & Hne).
    assert (list_find (λ a, Arrow.id a = arrowId) (Frame.arrows f) = Some (i, a))
      as ->.
    { apply list_find_Some. split_and!; done. }
    simpl. rewrite Hflag, Hs. simpl. by apply truthy_nonempty.
Qed.

Lemma firstArrowExpandable_elem f arrowId :
  firstArrowExpandable f arrowId →
  ∃ a s, a ∈ Frame.arrows f ∧ Arrow.id a = arrowId ∧
         Arrow.hasSubFrame a = true ∧ Arrow.subFrameId a = Some s ∧ s ≠ "".
Proof.
  intros (i & a & s & Hi & Hid & _ & Hflag & Hs & Hne).
  exists a, s. split_and!; try done. by eapply list_elem_of_lookup_2.
Qed.

(** With no current frame the action throws before it reaches [set]. *)
Lemma expandArrow_no_current_frame st arrowId :
  frames st !! currentFrameId st = None → expandArrow arrowId st = TypeError.
Proof. intros H. unfold expandArrow. unfold_action. by rewrite H. Qed.

(** The two outcomes of [expandArrow] on a current frame that exists. *)
Lemma expandArrow_on_frame (st : ArrowsState) (arrowId : string) (f : Frame.t) :
  frames st !! currentFrameId st = Some f →
  ∃ st',
    expandArrow arrowId st = Normal tt st' ∧
    frames st' = frames st ∧
    currentFrameId st' = currentFrameId st ∧
    breadcrumbs st' = breadcrumbs st ∧
    (firstArrowExpandable f arrowId → expandedArrowId st' = Some arrowId) ∧
    (¬ firstArrowExpandable f arrowId → st' = st) ∧
    ((∀ a s, a ∈ Frame.arrows f → Arrow.id a = arrowId →
             Arrow.hasSubFrame a = true → Arrow.subFrameId a = Some s → s = "") →
     st' = st).
Proof.
  intros Hf. unfold expandArrow. unfold_action. rewrite Hf.
  destruct (expandable _) eqn:Hgate; unfold set.
  - apply expandable_first in Hgate.
    eexists. split; [reflexivity |]. simpl. split_and!; try done.
    intros Hnone. exfalso.
    destruct (firstArrowExpandable_elem _ _ Hgate) as (a & s & Ha & Hid & Hflag & Hs & Hne).
    by apply Hne, (Hnone a s).
  - assert (¬ firstArrowExpandable f arrowId) as Hno.
    { intros H%expandable_first. congruence. }
    eexists. split; [reflexivity |]. split_and!; try done.
Qed.

End Expansion.

(** C3, as the store has it. When the current frame exists,
    [expandArrow(arrowId)] returns, sets [expandedArrowId] to [arrowId]
    when the first arrow of the current frame with that id is flagged
    [hasSubFrame] and carries a non-empty [subFrameId], whether or not that
    id is a key of [frames], and in every other case leaves the state as it
    was; it never touches any other field. *)
Theorem expandArrow_gate (st : ArrowsState) (arrowId : string) (f : Frame.t) :
  frames st !! currentFrameId st = Some f →
  ∃ st',
    expandArrow arrowId st = Normal tt st' ∧
    frames st' = frames st ∧
    currentFrameId st' = currentFrameId st ∧
    breadcrumbs st' = breadcrumbs st ∧
    (firstArrowExpandable f arrowId → expandedArrowId st' = Some arrowId) ∧
    (¬ firstArrowExpandable f arrowId → st' = st) ∧
    ((∀ a s, a ∈ Frame.arrows f → Arrow.id a = arrowId →
             Arrow.hasSubFrame a = true → Arrow.subFrameId a = Some s → s = "") →
     st' = st).
Proof. apply expandArrow_on_frame. Qed.

Lemma expandArrow_gate_witness :
  ∃ st',
    expandArrow "arrow-scientific-to-carbon" initialState = Normal tt st' ∧
    expandedArrowId st' = Some "arrow-scientific-to-carbon".
Proof.
  destruct (expandArrow_gate initialState "arrow-scientific-to-carbon" mainFrame)
    as (st' & Hrun & _ & _ & _ & Hset & _); [reflexivity |].
  exists st'. split; [done |]. apply Hset.
  exists 0%nat, (mkArrow "arrow-scientific-to-carbon" "scientific-evidence" "carbon-tax"
                   ArrowLogical true (Some "scientific-carbon")), "scientific-carbon".
  split_and!; try done. intros j b _ Hlt. lia.
Defined.

(** C3, as stated, fails: after an [updateArrow] that flags an arrow and
    binds it to an id that is not a key of [frames], [expandArrow] sets
    [expandedArrowId] although no arrow of the current frame has a sub-frame
    that resolves. *)
Lemma expandArrow_unresolved_subframe :
  frames ghostState !! "ghost" = None ∧
  ¬ resolvableSubFrame ghostState "arrow-scientific-to-economic" ∧
  expandedArrowId ghostState = None ∧
  ∃ st',
    expandArrow "arrow-scientific-to-economic" ghostState = Normal tt st' ∧
    expandedArrowId st' = Some "arrow-scientific-to-economic".
Proof.
  split_and!; try reflexivity.
  - intros (f & a & s & Hf & Ha & Hid & Hflag & Hs & Hres).
    vm_compute in Hf. injection Hf as <-.
    repeat (apply elem_of_cons in Ha as [->|Ha]; [try done |]).
    + vm_compute in Hs. injection Hs as <-. vm_compute in Hres. by destruct Hres.
    + by apply elem_of_nil in Ha.
  - vm_compute. eexists. split; reflexivity.
Qed.

(** ** Sub-frame creation *)

Section SubFrames.

Lemma findArrowIndex_elem (l : list Arrow.t) arrowId :
  (∃ a, a ∈ l ∧ Arrow.id a = arrowId) →
  ∃ i a, findArrowIndex arrowId l = Some (i, a).
Proof.
  intros (a & Ha & Hid). unfold findArrowIndex.
  destruct (list_find_elem_of (λ a, Arrow.id a = arrowId) l a Ha Hid) as [[i b] H].
  by exists i, b.
Qed.

Lemma findArrowIndex_Some (l : list Arrow.t) arrowId i a :
  findArrowIndex arrowId l = Some (i, a) →
  l !! i = Some a ∧ Arrow.id a = arrowId ∧ findArrow arrowId l = Some a.
Proof.
  unfold findArrowIndex, findArrow. intros H. rewrite H.
  apply list_find_Some in H as (Hi & Hid & _). done.
Qed.

(** Rewriting the found arrow in place keeps it the first with its id. *)
Lemma findArrowIndex_rebound (l : list Arrow.t) arrowId i a newFrameId :
  findArrowIndex arrowId l = Some (i, a) →
  findArrowIndex arrowId (<[i := bindSubFrame newFrameId a]> l)
  = Some (i, bindSubFrame newFrameId a).
Proof.
  unfold findArrowIndex. intros (Hi & Hid & Hfirst)%list_find_Some.
  apply list_find_Some. split_and!.
  - apply list_lookup_insert_eq. by eapply lookup_lt_Some.
  - done.
  - intros j b Hj Hlt. rewrite list_lookup_insert_ne in Hj by lia.
    by apply (Hfirst j b).
Qed.

Lemma createSubFrame_no_current_frame st newFrameId arrowId fields :
  frames st !! currentFrameId st = None →
  createSubFrame newFrameId arrowId fields st = TypeError.
Proof. intros H. unfold createSubFrame. unfold_action. by rewrite H. Qed.

Lemma createSubFrame_unknown_arrow st newFrameId arrowId fields cur :
  frames st !! currentFrameId st = Some cur →
  findArrow arrowId (Frame.arrows cur) = None →
  createSubFrame newFrameId arrowId fields st = Normal "" st.
Proof.
  intros Hc Hf. unfold createSubFrame. unfold_action. by rewrite Hc, Hf.
Qed.

(** The call on an arrow of the current frame, with a generated id that is
    not the current frame's key. *)
Lemma createSubFrame_call st newFrameId arrowId fields cur i a :
  frames st !! currentFrameId st = Some cur →
  findArrowIndex arrowId (Frame.arrows cur) = Some (i, a) →
  newFrameId ≠ currentFrameId st →
  createSubFrame newFrameId arrowId fields st
  = Normal newFrameId
      (with_frames
         (<[currentFrameId st :=
              Frame.with_arrows
                (<[i := bindSubFrame newFrameId a]> (Frame.arrows cur)) cur]>
            (<[newFrameId := spreadFrame (subFrameDefaults newFrameId arrowId cur) fields]>
               (frames st)))
         st).
Proof.
  intros Hc Hf Hne. unfold createSubFrame. unfold_action. rewrite Hc.
  destruct (findArrowIndex_Some _ _ _ _ Hf) as (_ & _ & ->).
  unfold hasKey. simpl. rewrite lookup_insert_ne by done. rewrite Hc.
  rewrite bool_decide_eq_true_2 by eauto. by rewrite Hf.
Qed.

(** The same call when the generated id happens to be the current frame's
    key: the new frame replaces the current one before the arrow is sought. *)
Lemma createSubFrame_call_clash st arrowId fields cur i a :
  frames st !! currentFrameId st = Some cur →
  findArrowIndex arrowId (Frame.arrows cur) = Some (i, a) →
  ∃ st' sub,
    createSubFrame (currentFrameId st) arrowId fields st
    = Normal (currentFrameId st) st' ∧
    frames st' !! currentFrameId st = Some sub ∧
    Frame.level sub
    = Frame.level (spreadFrame (subFrameDefaults (currentFrameId st) arrowId cur) fields) ∧
    Frame.parentArrowId sub
    = Frame.parentArrowId
        (spreadFrame (subFrameDefaults (currentFrameId st) arrowId cur) fields) ∧
    Frame.id sub
    = Frame.id (spreadFrame (subFrameDefaults (currentFrameId st) arrowId cur) fields).
Proof.
  intros Hc Hf. unfold createSubFrame. unfold_action. rewrite Hc.
  destruct (findArrowIndex_Some _ _ _ _ Hf) as (_ & _ & ->).
  unfold hasKey. simpl. rewrite lookup_insert_eq.
  rewrite bool_decide_eq_true_2 by eauto.
  destruct (findArrowIndex arrowId (Frame.arrows (spreadFrame _ fields)))
    as [[j b]|].
  - eexists _, _. split; [reflexivity |]. simpl.
    split; [apply lookup_insert_eq |]. done.
  - eexists _, _. split; [reflexivity |]. simpl.
    split; [apply lookup_insert_eq |]. done.
Qed.

End SubFrames.

Section Numbers.

Lemma roundToDouble_exact n :
  - 9007199254740992 ≤ n ≤ 9007199254740992 → roundToDouble n = n.
Proof.
  intros H. unfold roundToDouble.
  destruct (Z.leb_spec (Z.abs n) 9007199254740992) as [_|Hbig]; [done | lia].
Qed.

Lemma numberPlus_one_exact level : safeLevel level → numberPlus level 1 = level + 1.
Proof. unfold safeLevel, numberPlus. intros H. apply roundToDouble_exact. lia. Qed.

(** At 2^53 the next integer is no double: the sum is 2^53 again. *)
Example numberPlus_one_rounded : numberPlus 9007199254740992 1 = 9007199254740992.
Proof. reflexivity. Qed.

End Numbers.

(** C4, as the store has it. For an arrow of the current frame,
    [createSubFrame(arrowId, fields)] returns the generated id and stores
    under it a frame whose [parentArrowId] is [arrowId] and whose [level] is
    the current frame's level plus 1, for a current level from -2^53 to
    2^53 - 1 on which that sum is exact, whenever [fields] does not supply
    that field, however many frames exist; a [level] or [parentArrowId] in
    [fields] replaces the derived value. *)
Theorem createSubFrame_level
    (st : ArrowsState) (newFrameId arrowId : string) (fields : PartialFrame.t)
    (cur : Frame.t) :
  frames st !! currentFrameId st = Some cur →
  (∃ a, a ∈ Frame.arrows cur ∧ Arrow.id a = arrowId) →
  ∃ st' sub,
    createSubFrame newFrameId arrowId fields st = Normal newFrameId st' ∧
    frames st' !! newFrameId = Some sub ∧
    (PartialFrame.level fields = None → safeLevel (Frame.level cur) →
     Frame.level sub = Frame.level cur + 1) ∧
    (∀ l, PartialFrame.level fields = Some l → Frame.level sub = l) ∧
    (PartialFrame.parentArrowId fields = None →
     Frame.parentArrowId sub = Some arrowId) ∧
    (∀ p, PartialFrame.parentArrowId fields = Some p →
          Frame.parentArrowId sub = Some p).
Proof.
  intros Hc Harrow.
  destruct (findArrowIndex_elem _ _ Harrow) as (i & a & Hf).
  assert (∃ st' sub,
    createSubFrame newFrameId arrowId fields st = Normal newFrameId st' ∧
    frames st' !! newFrameId = Some sub ∧
    Frame.level sub
    = over (numberPlus (Frame.level cur) 1) (PartialFrame.level fields) ∧
    Frame.parentArrowId sub
    = over_opt (Some arrowId) (PartialFrame.parentArrowId fields))
    as (st' & sub & Hrun & Hsub & Hlevel & Hparent).
  { destruct (decide (newFrameId = currentFrameId st)) as [->|Hne].
    - destruct (createSubFrame_call_clash st arrowId fields cur i a Hc Hf)
        as (st' & sub & Hrun & Hsub & Hl & Hp & _).
      by exists st', sub.
    - eexists _, _. split; [by apply createSubFrame_call |]. simpl.
      rewrite lookup_insert_ne by done. rewrite lookup_insert_eq. done. }
  exists st', sub. rewrite Hlevel, Hparent. split_and!; try done.
  - intros -> Hsafe. by apply numberPlus_one_exact.
  - by intros l ->.
  - by intros ->.
  - by intros p ->.
Qed.

Lemma createSubFrame_level_witness :
  ∃ st' sub,
    createSubFrame "f2" "arrow-scientific-to-economic" PartialFrame.empty initialState
    = Normal "f2" st' ∧
    frames st' !! "f2" = Some sub ∧
    Frame.level sub = 1 ∧
    Frame.parentArrowId sub = Some "arrow-scientific-to-economic".
Proof.
  destruct (createSubFrame_level initialState "f2" "arrow-scientific-to-economic"
              PartialFrame.empty mainFrame)
    as (st' & sub & Hrun & Hsub & Hlevel & _ & Hparent & _).
  - reflexivity.
  - eexists. split; [apply list_elem_of_further, list_elem_of_here | reflexivity].
  - exists st', sub. split_and!; try done.
    + apply Hlevel; [done |]. unfold safeLevel. simpl. lia.
    + by apply Hparent.
Defined.

(** C4, as stated, fails: a [level] among the caller's fields is spread over
    the derived one, so the sub-frame of a frame at level 0 can be stored with
    level 7. *)
Lemma createSubFrame_level_overridden :
  Frame.level <$> frames initialState !! currentFrameId initialState = Some 0 ∧
  ∃ st' sub,
    createSubFrame "f2" "arrow-scientific-to-economic" levelSeven initialState
    = Normal "f2" st' ∧
    frames st' !! "f2" = Some sub ∧
    Frame.level sub = 7 ∧
    Frame.level sub ≠ 0 + 1.
Proof.
  split; [reflexivity |]. vm_compute. eexists _, _. split_and!; try reflexivity.
  discriminate.
Qed.

(** Beyond the bound the sum is rounded: under a frame at level 2^53 the
    sub-frame is stored at level 2^53. *)
Example createSubFrame_level_rounded :
  ∃ cur st' sub,
    frames (run initialState [CreateFrame "deep" deepFrame; NavigateToFrame "deep"])
    !! "deep" = Some cur ∧
    Frame.level cur = 9007199254740992 ∧
    createSubFrame "g1" "a1" PartialFrame.empty
      (run initialState [CreateFrame "deep" deepFrame; NavigateToFrame "deep"])
    = Normal "g1" st' ∧
    frames st' !! "g1" = Some sub ∧
    Frame.level sub = 9007199254740992.
Proof. vm_compute. eexists _, _, _. split_and!; reflexivity. Qed.

Section Rebinding.

(** One call on an arrow of the current frame with a fresh generated id:
    one frame more, and the arrow now points at it. *)
Lemma createSubFrame_fresh st newFrameId arrowId fields cur :
  frames st !! currentFrameId st = Some cur →
  (∃ a, a ∈ Frame.arrows cur ∧ Arrow.id a = arrowId) →
  frames st !! newFrameId = None →
  ∃ st' cur' a',
    createSubFrame newFrameId arrowId fields st = Normal newFrameId st' ∧
    currentFrameId st' = currentFrameId st ∧
    frames st' !! currentFrameId st' = Some cur' ∧
    findArrow arrowId (Frame.arrows cur') = Some a' ∧
    Arrow.hasSubFrame a' = true ∧
    Arrow.subFrameId a' = Some newFrameId ∧
    frames st' !! newFrameId
    = Some (spreadFrame (subFrameDefaults newFrameId arrowId cur) fields) ∧
    dom (frames st') = {[newFrameId]} ∪ dom (frames st) ∧
    size (frames st') = S (size (frames st)).
Proof.
  intros Hc Harrow Hfresh.
  destruct (findArrowIndex_elem _ _ Harrow) as (i & a & Hf).
  assert (newFrameId ≠ currentFrameId st) as Hne by (intros ->; congruence).
  eexists _, _, _. split; [by apply createSubFrame_call |]. simpl.
  split; [done |].
  split; [apply lookup_insert_eq |]. simpl.
  split.
  { eapply findArrowIndex_Some, findArrowIndex_rebound, Hf. }
  split_and!; try done.
  - rewrite lookup_insert_ne by done. apply lookup_insert_eq.
  - rewrite !dom_insert_L. apply elem_of_dom_2 in Hc. set_solver.
  - rewrite map_size_insert_Some.
    + by apply map_size_insert_None.
    + rewrite lookup_insert_ne by done. eauto.
Qed.

End Rebinding.

(** C1, as the store has it. [createSubFrame] does not look at the arrow's
    [subFrameId]. Each call on an arrow of the current frame with a fresh
    generated id stores one new frame under that id, sets [hasSubFrame] and
    rebinds the arrow's [subFrameId] to it, and returns it; so two calls on
    the same arrow return two different ids and add two frames, and the
    second one finds the arrow already bound by the first. *)
Theorem createSubFrame_rebinds
    (st : ArrowsState) (id1 id2 arrowId : string)
    (fields1 fields2 : PartialFrame.t) (cur : Frame.t) :
  frames st !! currentFrameId st = Some cur →
  (∃ a, a ∈ Frame.arrows cur ∧ Arrow.id a = arrowId) →
  frames st !! id1 = None →
  frames st !! id2 = None →
  id1 ≠ id2 →
  ∃ st1 st2 cur1 cur2 a1 a2,
    createSubFrame id1 arrowId fields1 st = Normal id1 st1 ∧
    frames st1 !! currentFrameId st1 = Some cur1 ∧
    findArrow arrowId (Frame.arrows cur1) = Some a1 ∧
    Arrow.hasSubFrame a1 = true ∧ Arrow.subFrameId a1 = Some id1 ∧
    dom (frames st1) = {[id1]} ∪ dom (frames st) ∧
    createSubFrame id2 arrowId fields2 st1 = Normal id2 st2 ∧
    frames st2 !! currentFrameId st2 = Some cur2 ∧
    findArrow arrowId (Frame.arrows cur2) = Some a2 ∧
    Arrow.hasSubFrame a2 = true ∧ Arrow.subFrameId a2 = Some id2 ∧
    dom (frames st2) = {[id2]} ∪ dom (frames st1) ∧
    size (frames st2) = S (S (size (frames st))).
Proof.
  intros Hc Harrow Hfresh1 Hfresh2 Hne.
  destruct (createSubFrame_fresh st id1 arrowId fields1 cur Hc Harrow Hfresh1)
    as (st1 & cur1 & a1 & Hrun1 & Hcid1 & Hc1 & Hfind1 & Hflag1 & Hsub1 & Hnew1
        & Hdom1 & Hsize1).
  assert (∃ a, a ∈ Frame.arrows cur1 ∧ Arrow.id a = arrowId) as Harrow1.
  { unfold findArrow in Hfind1.
    destruct (list_find _ _) as [[i b]|] eqn:Hfind; [| done].
    simpl in Hfind1. injection Hfind1 as ->.
    apply list_find_Some in Hfind as (Hi & Hid & _).
    exists a1. split; [by eapply list_elem_of_lookup_2 | done]. }
  assert (frames st1 !! id2 = None) as Hfresh2'.
  { apply not_elem_of_dom. rewrite Hdom1.
    apply not_elem_of_dom in Hfresh2. set_solver. }
  destruct (createSubFrame_fresh st1 id2 arrowId fields2 cur1 Hc1 Harrow1 Hfresh2')
    as (st2 & cur2 & a2 & Hrun2 & Hcid2 & Hc2 & Hfind2 & Hflag2 & Hsub2 & Hnew2
        & Hdom2 & Hsize2).
  exists st1, st2, cur1, cur2, a1, a2. split_and!; try done.
  by rewrite Hsize2, Hsize1.
Qed.

Lemma createSubFrame_rebinds_witness :
  ∃ st1 st2,
    createSubFrame "g1" "arrow-scientific-to-carbon" PartialFrame.empty initialState
    = Normal "g1" st1 ∧
    createSubFrame "g2" "arrow-scientific-to-carbon" PartialFrame.empty st1
    = Normal "g2" st2 ∧
    size (frames st2) = S (S (size (frames initialState))).
Proof.
  destruct (createSubFrame_rebinds initialState "g1" "g2" "arrow-scientific-to-carbon"
              PartialFrame.empty PartialFrame.empty mainFrame)
    as (st1 & st2 & ? & ? & ? & ? & Hrun1 & _ & _ & _ & _ & _ & Hrun2 & _ & _ & _ & _
        & _ & Hsize).
  - reflexivity.
  - eexists. split; [apply list_elem_of_here | reflexivity].
  - reflexivity.
  - reflexivity.
  - discriminate.
  - by exists st1, st2.
Defined.

(** C1, as stated, fails: on the seed arrow that is already bound to the
    frame [scientific-carbon], the call returns the generated id, not the
    existing one, adds a fourth frame to the three of the seed, and rebinds
    the arrow. *)
Lemma createSubFrame_not_idempotent :
  Arrow.subFrameId <$> findArrow "arrow-scientific-to-carbon" (Frame.arrows mainFrame)
  = Some (Some "scientific-carbon") ∧
  size (frames initialState) = 3%nat ∧
  ∃ st',
    createSubFrame "g1" "arrow-scientific-to-carbon" PartialFrame.empty initialState
    = Normal "g1" st' ∧
    "g1" ≠ "scientific-carbon" ∧
    size (frames st') = 4%nat ∧
    (Arrow.subFrameId <$>
       (frames st' !! "main" ≫= λ f,
          findArrow "arrow-scientific-to-carbon" (Frame.arrows f)))
    = Some (Some "g1").
Proof.
  split; [reflexivity |]. split; [reflexivity |].
  vm_compute. eexists. split_and!; try reflexivity. discriminate.
Qed.

(** ** Caller-supplied ids *)

Section CallerIds.

Lemma createNode_known_frame st newNodeId frameId node f :
  frames st !! frameId = Some f →
  createNode newNodeId frameId node st
  = Normal newNodeId
      (with_frames
         (<[frameId :=
              Frame.with_nodes
                (Frame.nodes f ++
                 [spreadNode
                    {| Node.id := newNodeId; Node.type := NodeProposition;
                       Node.content := "";
                       Node.position := {| Position.x := 100; Position.y := 100 |};
                       Node.data := None |}
                    node])
                f]>
            (frames st))
         st).
Proof. intros H. unfold createNode. unfold_action. by rewrite H. Qed.

Lemma createArrow_known_frame st newArrowId frameId arrow f :
  frames st !! frameId = Some f →
  createArrow newArrowId frameId arrow st
  = Normal newArrowId
      (with_frames
         (<[frameId :=
              Frame.with_arrows
                (Frame.arrows f ++
                 [spreadArrow
                    {| Arrow.id := newArrowId; Arrow.source := "";
                       Arrow.target := ""; Arrow.type := ArrowLogical;
                       Arrow.hasSubFrame := false; Arrow.subFrameId := None |}
                    arrow])
                f]>
            (frames st))
         st).
Proof. intros H. unfold createArrow. unfold_action. by rewrite H. Qed.

(** Appending an element whose key is already in the list breaks the
    uniqueness of keys. *)
Lemma snoc_duplicate_key {A} (key : A → string) (l : list A) (e : A) :
  key e ∈ key <$> l → ¬ NoDup (key <$> (l ++ [e])).
Proof.
  intros Hin Hnd. rewrite fmap_app in Hnd.
  apply NoDup_app in Hnd as (_ & Hdisj & _).
  apply (Hdisj _ Hin). simpl. apply list_elem_of_here.
Qed.

(** Replacing one frame by one with an extra element whose key differs from
    [i] does not make [i] the key of an element of the store. *)
Lemma bears_after_snoc {A} (key : A → string) (proj : Frame.t → list A)
      (m : gmap string Frame.t) frameId f f' e i :
  m !! frameId = Some f →
  proj f' = proj f ++ [e] →
  key e ≠ i →
  ¬ map_Exists (λ _ g, Exists (λ z, key z = i) (proj g)) m →
  ¬ map_Exists (λ _ g, Exists (λ z, key z = i) (proj g)) (<[frameId := f']> m).
Proof.
  intros Hf Hproj Hkey Hno [Hnew|Hold]%map_Exists_insert_1.
  - rewrite Hproj, Exists_app in Hnew. destruct Hnew as [Hnew|Hnew].
    + apply Hno. by exists frameId, f.
    + apply Exists_cons in Hnew as [?|Hnil]; [done |].
      by apply Exists_nil in Hnil.
  - done.
Qed.

End CallerIds.

(** C9, as the store has it. A creating action spreads the caller's fields
    over the generated values, so when the fields include an id the entity
    that is stored carries the caller's id while the action returns the
    generated one. For [createNode] and [createArrow] on a frame of the
    mapping, no node (arrow) of the store then bears the returned id, as long
    as it is fresh and differs from the caller's; and a caller's id that is
    already in the frame ends the uniqueness of ids in that frame. For
    [createSubFrame] the new frame carries the caller's id in its [id] field
    but is stored under the generated id, which therefore is a key of
    [frames]. *)
Theorem caller_id_overrides_generated_id :
  (∀ st newNodeId frameId node callerId f,
     PartialNode.id node = Some callerId →
     frames st !! frameId = Some f →
     ∃ st' n,
       createNode newNodeId frameId node st = Normal newNodeId st' ∧
       frames st' !! frameId = Some (Frame.with_nodes (Frame.nodes f ++ [n]) f) ∧
       Node.id n = callerId ∧
       (callerId ≠ newNodeId → ¬ bearsNodeId st newNodeId →
        ¬ bearsNodeId st' newNodeId) ∧
       (callerId ∈ nodeIds f →
        ¬ NoDup (nodeIds (Frame.with_nodes (Frame.nodes f ++ [n]) f)))) ∧
  (∀ st newArrowId frameId arrow callerId f,
     PartialArrow.id arrow = Some callerId →
     frames st !! frameId = Some f →
     ∃ st' a,
       createArrow newArrowId frameId arrow st = Normal newArrowId st' ∧
       frames st' !! frameId = Some (Frame.with_arrows (Frame.arrows f ++ [a]) f) ∧
       Arrow.id a = callerId ∧
       (callerId ≠ newArrowId → ¬ bearsArrowId st newArrowId →
        ¬ bearsArrowId st' newArrowId) ∧
       (callerId ∈ Arrow.id <$> Frame.arrows f →
        ¬ NoDup (Arrow.id <$> (Frame.arrows f ++ [a])))) ∧
  (∀ st newFrameId arrowId fields callerId cur,
     PartialFrame.id fields = Some callerId →
     frames st !! currentFrameId st = Some cur →
     (∃ a, a ∈ Frame.arrows cur ∧ Arrow.id a = arrowId) →
     ∃ st' sub,
       createSubFrame newFrameId arrowId fields st = Normal newFrameId st' ∧
       frames st' !! newFrameId = Some sub ∧
       Frame.id sub = callerId).
Proof.
  split_and!.
  - intros st newNodeId frameId node callerId f Hid Hf.
    eexists _, _. split; [by apply createNode_known_frame |]. simpl.
    split; [apply lookup_insert_eq |].
    split; [simpl; by rewrite Hid |].
    split.
    + intros Hne Hfresh. unfold bearsNodeId. simpl.
      eapply (bears_after_snoc Node.id Frame.nodes); [done | done | | done].
      simpl. by rewrite Hid.
    + intros Hin. unfold nodeIds. simpl.
      apply snoc_duplicate_key. simpl. by rewrite Hid.
  - intros st newArrowId frameId arrow callerId f Hid Hf.
    eexists _, _. split; [by apply createArrow_known_frame |]. simpl.
    split; [apply lookup_insert_eq |].
    split; [simpl; by rewrite Hid |].
    split.
    + intros Hne Hfresh. unfold bearsArrowId. simpl.
      eapply (bears_after_snoc Arrow.id Frame.arrows); [done | done | | done].
      simpl. by rewrite Hid.
    + intros Hin. apply snoc_duplicate_key. simpl. by rewrite Hid.
  - intros st newFrameId arrowId fields callerId cur Hid Hc Harrow.
    destruct (findArrowIndex_elem _ _ Harrow) as (i & a & Hf).
    destruct (decide (newFrameId = currentFrameId st)) as [->|Hne].
    + destruct (createSubFrame_call_clash st arrowId fields cur i a Hc Hf)
        as (st' & sub & Hrun & Hsub & _ & _ & Hsubid).
      exists st', sub. split_and!; try done.
      rewrite Hsubid. simpl. by rewrite Hid.
    + eexists _, _. split; [by apply createSubFrame_call |]. simpl.
      rewrite lookup_insert_ne by done. rewrite lookup_insert_eq.
      split; [done |]. simpl. by rewrite Hid.
Qed.

Lemma caller_id_overrides_generated_id_witness :
  ∃ st' sub,
    createSubFrame "g1" "arrow-scientific-to-economic" (frameWithId "mine") initialState
    = Normal "g1" st' ∧
    frames st' !! "g1" = Some sub ∧
    Frame.id sub = "mine".
Proof.
  destruct caller_id_overrides_generated_id as (_ & _ & H).
  apply (H initialState "g1" "arrow-scientific-to-economic" (frameWithId "mine") "mine"
           mainFrame).
  - reflexivity.
  - reflexivity.
  - eexists. split; [apply list_elem_of_further, list_elem_of_here | reflexivity].
Defined.

(** C9, as stated, fails for [createSubFrame]: the returned id does name an
    entity of the store. The new frame, whose [id] field is the caller's, is
    the value of [frames] at the returned id, the arrow's [subFrameId] is the
    returned id, and [navigateToFrame] on the returned id makes that frame
    current. *)
Lemma createSubFrame_returned_id_names_frame :
  ∃ st' sub,
    createSubFrame "g1" "arrow-scientific-to-economic" (frameWithId "mine") initialState
    = Normal "g1" st' ∧
    frames st' !! "g1" = Some sub ∧
    Frame.id sub = "mine" ∧
    (Arrow.subFrameId <$>
       (frames st' !! "main" ≫= λ f,
          findArrow "arrow-scientific-to-economic" (Frame.arrows f)))
    = Some (Some "g1") ∧
    currentFrameId (stateAfter (navigateToFrame "g1") st') = "g1".
Proof.
  vm_compute. eexists _, _. split_and!; reflexivity.
Qed.

(** ** Invariants along sequences of calls *)

Section Steps.

Ltac step_cases :=
  unfold after, stateAfter, expandArrow, collapseArrow, createNode, updateNode,
    deleteNode, createArrow, updateArrow, deleteArrow, createFrame, createSubFrame;
  unfold_action; unfold set, hasKey;
  repeat case_match; simplify_eq; simpl.

(** Only the two navigation actions move the current frame or the trail. *)
Lemma editing_keeps_navigation st c :
  (∀ frameId, c ≠ NavigateToFrame frameId) → c ≠ NavigateBack →
  currentFrameId (after st c) = currentFrameId st ∧
  breadcrumbs (after st c) = breadcrumbs st.
Proof.
  intros Hto Hback.
  destruct c; try done; try (by destruct (Hto frameId)); step_cases; done.
Qed.

Lemma is_Some_insert (m : gmap string Frame.t) i x k :
  is_Some (m !! k) → is_Some (<[i := x]> m !! k).
Proof.
  intros H. destruct (decide (i = k)) as [->|Hne].
  - rewrite lookup_insert_eq. eauto.
  - by rewrite lookup_insert_ne.
Qed.

(** No call removes a key of [frames]. *)
Lemma frames_kept_by_call st c k :
  is_Some (frames st !! k) → is_Some (frames (after st c) !! k).
Proof.
  intros H. destruct c;
    try (unfold after, stateAfter, navigateToFrame, navigateBack; unfold_action;
         repeat case_match; simplify_eq; simpl; done);
    step_cases; auto using is_Some_insert.
Qed.

Lemma frames_kept_by_run st calls k :
  is_Some (frames st !! k) → is_Some (frames (run st calls) !! k).
Proof.
  revert st. induction calls as [|c calls IH]; intros st H; simpl; [done |].
  by apply IH, frames_kept_by_call.
Qed.

(** A completed [navigateToFrame]: the trail ends at the target, and holds
    nothing that was not in it before, save the target. *)
Lemma navigateToFrame_trail_truthy st frameId :
  readFrame (frames st) frameId ≠ Undefined →
  ∃ pre,
    after st (NavigateToFrame frameId)
    = {| frames := frames st; currentFrameId := frameId;
         expandedArrowId := None; breadcrumbs := pre ++ [frameId] |} ∧
    ∀ b, b ∈ pre → b ∈ breadcrumbs st.
Proof.
  intros Hk. unfold after, stateAfter. rewrite navigateToFrame_truthy by done.
  destruct (includes (breadcrumbs st) frameId) eqn:Hin; simpl.
  - apply includes_true in Hin.
    destruct (first_occurrence _ _ Hin) as (pre & post & Hl & Hpre).
    exists pre. rewrite Hl at 1 2. rewrite indexOf_first, slice0_through by done.
    split; [done |]. intros b Hb. rewrite Hl. apply elem_of_app. by left.
  - by exists (breadcrumbs st).
Qed.

Lemma navigateToFrame_trail st frameId :
  is_Some (frames st !! frameId) →
  ∃ pre,
    after st (NavigateToFrame frameId)
    = {| frames := frames st; currentFrameId := frameId;
         expandedArrowId := None; breadcrumbs := pre ++ [frameId] |} ∧
    ∀ b, b ∈ pre → b ∈ breadcrumbs st.
Proof. intros Hk. apply navigateToFrame_trail_truthy, readFrame_truthy. by left. Qed.

(** A [navigateToFrame] that does not pass its test. *)
Lemma after_undefined_frame st frameId :
  readFrame (frames st) frameId = Undefined →
  after st (NavigateToFrame frameId) = st.
Proof.
  intros H. unfold after, stateAfter, navigateToFrame, mbind, action_bind, get.
  by rewrite H.
Qed.

Lemma navigateBack_trail st :
  (1 < length (breadcrumbs st))%nat →
  ∃ init prev lst,
    breadcrumbs st = init ++ [prev; lst] ∧
    after st NavigateBack
    = {| frames := frames st; currentFrameId := prev;
         expandedArrowId := None; breadcrumbs := init ++ [prev] |}.
Proof.
  intros Hlen. destruct (last_two _ Hlen) as (init & prev & lst & Hl).
  exists init, prev, lst. split; [done |].
  unfold after, stateAfter. by rewrite (navigateBack_pops st init prev lst).
Qed.

Ltac editing_call st :=
  match goal with
  | |- context [after st ?c] =>
      let Hc := fresh "Hc" in
      let Hb := fresh "Hb" in
      destruct (editing_keeps_navigation st c) as [Hc Hb];
      [done | done | rewrite ?Hc, ?Hb]
  end.

Lemma trail_kept_by_call st c :
  trailEndsAtCurrent st → trailEndsAtCurrent (after st c).
Proof.
  unfold trailEndsAtCurrent. intros H.
  destruct c; try (editing_call st; done).
  - destruct (readFrame (frames st) frameId) eqn:Hf.
    + destruct (navigateToFrame_trail_truthy st frameId) as (pre & -> & _);
        [by rewrite Hf |].
      simpl. apply last_snoc.
    + destruct (navigateToFrame_trail_truthy st frameId) as (pre & -> & _);
        [by rewrite Hf |].
      simpl. apply last_snoc.
    + by rewrite after_undefined_frame.
  - destruct (decide (1 < length (breadcrumbs st))%nat) as [Hlen|Hlen].
    + destruct (navigateBack_trail st Hlen) as (init & prev & lst & _ & ->).
      simpl. apply last_snoc.
    + unfold after, stateAfter. rewrite navigateBack_short by lia. done.
Qed.

(** The current frame id and the trail stay within the keys of [frames] as
    long as [navigateToFrame] is given no inherited name that is not a
    key. *)
Lemma navigation_kept_by_call st c :
  navigationResolves st → targetsFrame st c → navigationResolves (after st c).
Proof.
  unfold navigationResolves. intros [Hcur Htrail] Htarget.
  destruct c;
    try (editing_call st;
         split; [by apply frames_kept_by_call |];
         apply Forall_forall; intros b Hin; apply frames_kept_by_call;
         by apply (proj1 (Forall_forall _ _) Htrail)).
  - destruct (frames st !! frameId) as [f|] eqn:Hf.
    + destruct (navigateToFrame_trail st frameId) as (pre & -> & Hpre); [eauto |].
      simpl. split; [eauto |]. apply Forall_app. split.
      * apply Forall_forall. intros b Hb.
        by apply (proj1 (Forall_forall _ _) Htrail), Hpre.
      * apply Forall_singleton. eauto.
    + destruct Htarget as [[? ?]|Hk]; [congruence |].
      rewrite after_undefined_frame; [done | by apply readFrame_undefined].
  - destruct (decide (1 < length (breadcrumbs st))%nat) as [Hlen|Hlen].
    + destruct (navigateBack_trail st Hlen) as (init & prev & lst & Hl & ->).
      simpl. rewrite Hl in Htrail.
      replace (init ++ [prev; lst]) with ((init ++ [prev]) ++ [lst]) in Htrail
        by (rewrite <- app_assoc; done).
      apply Forall_app in Htrail as [Htrail _]. split; [| done].
      apply Forall_app in Htrail as [_ Hprev].
      exact (proj1 (Forall_singleton _ _) Hprev).
    + unfold after, stateAfter. rewrite navigateBack_short by lia. done.
Qed.

End Steps.

Section Runs.

Lemma trail_kept_by_run st calls :
  trailEndsAtCurrent st → trailEndsAtCurrent (run st calls).
Proof.
  revert st. induction calls as [|c calls IH]; intros st H; simpl; [done |].
  by apply IH, trail_kept_by_call.
Qed.

Lemma navigation_kept_by_run st calls :
  navigationResolves st → targeted st calls → navigationResolves (run st calls).
Proof.
  revert st. induction calls as [|c calls IH]; intros st H Ht; simpl; [done |].
  destruct Ht as [Hc Ht]. apply IH; [by apply navigation_kept_by_call | done].
Qed.

Lemma run_app st calls1 calls2 :
  run st (calls1 ++ calls2) = run (run st calls1) calls2.
Proof.
  revert st. induction calls1 as [|c calls1 IH]; intros st; simpl; [done |].
  apply IH.
Qed.

Lemma initial_trail : trailEndsAtCurrent initialState.
Proof. reflexivity. Qed.

Lemma initial_navigation : navigationResolves initialState.
Proof.
  split.
  - exists mainFrame. reflexivity.
  - apply Forall_singleton. exists mainFrame. reflexivity.
Qed.

End Runs.

(** C8. From the initial state, after any sequence of store calls the trail
    is not empty and its last entry is the current frame. A completed
    [navigateToFrame] leaves, from any state, a trail that ends at the
    current frame. [navigateBack] on a trail of length at most 1 changes
    nothing; on a longer trail it makes the second-to-last entry current,
    clears [expandedArrowId] and drops the last entry, so that the trail
    again ends at the current frame. *)
Theorem breadcrumbs_invariant :
  (∀ calls,
     breadcrumbs (run initialState calls) ≠ [] ∧
     last (breadcrumbs (run initialState calls))
     = Some (currentFrameId (run initialState calls))) ∧
  (∀ st frameId,
     is_Some (frames st !! frameId) →
     ∃ st', navigateToFrame frameId st = Normal tt st' ∧
            breadcrumbs st' ≠ [] ∧
            last (breadcrumbs st') = Some (currentFrameId st')) ∧
  (∀ st, (length (breadcrumbs st) ≤ 1)%nat → navigateBack st = Normal tt st) ∧
  (∀ st,
     (1 < length (breadcrumbs st))%nat →
     ∃ init prev lst,
       breadcrumbs st = init ++ [prev; lst] ∧
       navigateBack st
       = Normal tt
           {| frames := frames st;
              currentFrameId := prev;
              expandedArrowId := None;
              breadcrumbs := init ++ [prev] |} ∧
       last (init ++ [prev]) = Some prev).
Proof.
  split_and!.
  - intros calls.
    pose proof (trail_kept_by_run initialState calls initial_trail) as H.
    unfold trailEndsAtCurrent in H. split; [| done].
    intros Hnil. by rewrite Hnil in H.
  - intros st frameId Hk.
    destruct (navigateToFrame_trail st frameId Hk) as (pre & Hafter & _).
    unfold after, stateAfter in Hafter.
    rewrite navigateToFrame_known in * by done.
    eexists. split; [reflexivity |]. rewrite Hafter. simpl. split.
    + intros Hnil. by apply app_nil in Hnil as [_ ?].
    + apply last_snoc.
  - apply navigateBack_short.
  - intros st Hlen. destruct (last_two _ Hlen) as (init & prev & lst & Hl).
    exists init, prev, lst.
    split_and!; [done | by apply (navigateBack_pops st init prev lst) |].
    apply last_snoc.
Qed.

Lemma breadcrumbs_invariant_witness :
  ∃ init prev lst,
    breadcrumbs (run initialState [NavigateToFrame "scientific-carbon"])
    = init ++ [prev; lst] ∧
    navigateBack (run initialState [NavigateToFrame "scientific-carbon"])
    = Normal tt
        {| frames := exampleData;
           currentFrameId := prev;
           expandedArrowId := None;
           breadcrumbs := init ++ [prev] |} ∧
    last (init ++ [prev]) = Some prev.
Proof.
  destruct breadcrumbs_invariant as (_ & _ & _ & H).
  apply (H (run initialState [NavigateToFrame "scientific-carbon"])).
  vm_compute. lia.
Defined.

Example frames_kept_on_seed :
  is_Some
    (frames (run initialState
               [DeleteArrow "main" "arrow-scientific-to-carbon";
                DeleteNode "scientific-carbon" "human-co2";
                CreateFrame "scientific-carbon" PartialFrame.empty])
     !! "scientific-carbon").
Proof. apply frames_kept_by_run. exists scientificCarbonFrame. reflexivity. Qed.

(** C10. Navigation leaves the keys of [frames]. From the initial state,
    after [navigateToFrame('constructor')] the current frame id and the last
    breadcrumb are 'constructor', which is not a key of [frames]: the test
    of line 59 passes on the property that [frames] inherits from
    [Object.prototype]. The next action that reads the current frame
    throws. *)
Theorem navigation_leaves_frames :
  currentFrameId (run initialState [NavigateToFrame "constructor"]) = "constructor" ∧
  breadcrumbs (run initialState [NavigateToFrame "constructor"])
  = ["main"; "constructor"] ∧
  frames (run initialState [NavigateToFrame "constructor"]) !! "constructor" = None ∧
  ¬ navigationResolves (run initialState [NavigateToFrame "constructor"]) ∧
  expandArrow "arrow-scientific-to-carbon"
    (run initialState [NavigateToFrame "constructor"]) = TypeError.
Proof.
  split_and!; try reflexivity.
  intros [[f Hf] _]. discriminate Hf.
Qed.

(** ** Referential integrity *)

Section Integrity.

Lemma closedFrame_lookup st k f :
  referentialIntegrity st → frames st !! k = Some f → closedFrame f.
Proof. intros Hst Hf. by apply (Hst k f). Qed.

Lemma integrity_insert st k f :
  referentialIntegrity st → closedFrame f →
  referentialIntegrity (with_frames (<[k := f]> (frames st)) st).
Proof. intros Hst Hf. unfold referentialIntegrity. simpl. by apply map_Forall_insert_2. Qed.

(** More nodes, the same arrows. *)
Lemma closedFrame_more_nodes f ns :
  (∀ i, i ∈ nodeIds f → i ∈ Node.id <$> ns) →
  closedFrame f → closedFrame (Frame.with_nodes ns f).
Proof.
  intros Hsub Hf. unfold closedFrame, nodeIds in *. simpl.
  eapply Forall_impl; [exact Hf |]. intros a [Hs Ht]. split; by apply Hsub.
Qed.

(** The same nodes, arrows that all have their endpoints among them. *)
Lemma closedFrame_arrows f ars :
  Forall (λ a, Arrow.source a ∈ nodeIds f ∧ Arrow.target a ∈ nodeIds f) ars →
  closedFrame (Frame.with_arrows ars f).
Proof. done. Qed.

Lemma closedFrame_deleteNode f nodeId :
  closedFrame f →
  closedFrame
    (Frame.with_arrows
       (filter (λ a, Arrow.source a ≠ nodeId ∧ Arrow.target a ≠ nodeId)
               (Frame.arrows f))
       (Frame.with_nodes (filter (λ n, Node.id n ≠ nodeId) (Frame.nodes f)) f)).
Proof.
  intros Hf. unfold closedFrame, nodeIds in *. simpl.
  apply Forall_forall. intros a [[Hs Ht] Ha]%list_elem_of_filter.
  destruct (proj1 (Forall_forall _ _) Hf a Ha) as [Hsrc Htgt].
  apply list_elem_of_fmap in Hsrc as (n & Hn & Hnin).
  apply list_elem_of_fmap in Htgt as (m & Hm & Hmin).
  split; apply list_elem_of_fmap.
  - exists n. split; [done |]. apply list_elem_of_filter. split; [congruence | done].
  - exists m. split; [done |]. apply list_elem_of_filter. split; [congruence | done].
Qed.

Lemma closedFrame_updateNode f nodeId i old updates :
  findNodeIndex nodeId (Frame.nodes f) = Some (i, old) →
  (∀ j, PartialNode.id updates = Some j → j = nodeId) →
  closedFrame f →
  closedFrame (Frame.with_nodes (<[i := spreadNode old updates]> (Frame.nodes f)) f).
Proof.
  intros (Hi & Hid & _)%list_find_Some Hkeep Hf.
  apply closedFrame_more_nodes; [| done].
  intros k Hk. rewrite list_fmap_insert.
  assert (Node.id (spreadNode old updates) = Node.id old) as ->.
  { simpl. destruct (PartialNode.id updates) as [j|] eqn:Hj; simpl; [| done].
    rewrite (Hkeep j) by done. done. }
  rewrite list_insert_id; [done |]. by rewrite list_lookup_fmap, Hi.
Qed.

Lemma closedFrame_updateArrow f arrowId i old updates :
  findArrowIndex arrowId (Frame.arrows f) = Some (i, old) →
  (∀ s, PartialArrow.source updates = Some s → s ∈ nodeIds f) →
  (∀ t, PartialArrow.target updates = Some t → t ∈ nodeIds f) →
  closedFrame f →
  closedFrame
    (Frame.with_arrows (<[i := spreadArrow old updates]> (Frame.arrows f)) f).
Proof.
  intros (Hi & _ & _)%list_find_Some Hs Ht Hf. apply closedFrame_arrows.
  apply Forall_insert; [exact Hf |].
  destruct (proj1 (Forall_lookup _ _) Hf i old Hi) as [Hsrc Htgt]. simpl. split.
  - destruct (PartialArrow.source updates) as [s|] eqn:E; simpl; auto.
  - destruct (PartialArrow.target updates) as [t|] eqn:E; simpl; auto.
Qed.

Lemma closedFrame_bind f arrowId i a newFrameId :
  findArrowIndex arrowId (Frame.arrows f) = Some (i, a) →
  closedFrame f →
  closedFrame
    (Frame.with_arrows (<[i := bindSubFrame newFrameId a]> (Frame.arrows f)) f).
Proof.
  intros (Hi & _ & _)%list_find_Some Hf. apply closedFrame_arrows.
  apply Forall_insert; [exact Hf |].
  exact (proj1 (Forall_lookup _ _) Hf i a Hi).
Qed.

Lemma closedFrame_spread base fields :
  Frame.nodes base = [] → Frame.arrows base = [] →
  closedFields fields → closedFrame (spreadFrame base fields).
Proof.
  intros Hn Ha H. unfold closedFrame, nodeIds, closedFields in *. simpl.
  by rewrite Hn, Ha.
Qed.

Lemma integrity_kept_by_call st c :
  referentialIntegrity st → honoursEndpointContract st c →
  referentialIntegrity (after st c).
Proof.
  intros Hst Hc. destruct c; simpl in Hc.
  - unfold after, stateAfter, expandArrow. unfold_action.
    repeat case_match; simplify_eq; done.
  - done.
  - unfold after, stateAfter, navigateToFrame. unfold_action.
    repeat case_match; simplify_eq; done.
  - unfold after, stateAfter, navigateBack. unfold_action.
    repeat case_match; simplify_eq; done.
  - unfold after, stateAfter, createNode. unfold_action.
    destruct (frames st !! frameId) as [f|] eqn:Hf; [| no_frame].
    apply integrity_insert; [done |].
    apply closedFrame_more_nodes; [| by eapply closedFrame_lookup].
    intros i Hi. rewrite fmap_app. apply elem_of_app. by left.
  - unfold after, stateAfter, updateNode. unfold_action.
    destruct (frames st !! frameId) as [f|] eqn:Hf; [| no_frame].
    destruct (findNodeIndex nodeId (Frame.nodes f)) as [[i old]|] eqn:Hfind; [| done].
    apply integrity_insert; [done |].
    eapply closedFrame_updateNode; [done | done | by eapply closedFrame_lookup].
  - unfold after, stateAfter, deleteNode. unfold_action.
    destruct (frames st !! frameId) as [f|] eqn:Hf; [| no_frame].
    apply integrity_insert; [done |].
    apply closedFrame_deleteNode. by eapply closedFrame_lookup.
  - unfold after, stateAfter, createArrow. unfold_action.
    destruct (frames st !! frameId) as [f|] eqn:Hf; [| no_frame].
    apply integrity_insert; [done |]. apply closedFrame_arrows.
    apply Forall_app. split; [by eapply closedFrame_lookup |].
    apply Forall_singleton. exact Hc.
  - unfold after, stateAfter, updateArrow. unfold_action.
    destruct (frames st !! frameId) as [f|] eqn:Hf; [| no_frame].
    destruct (findArrowIndex arrowId (Frame.arrows f)) as [[i old]|] eqn:Hfind;
      [| done].
    destruct Hc as [Hs Ht].
    apply integrity_insert; [done |].
    eapply closedFrame_updateArrow; [done | done | done | by eapply closedFrame_lookup].
  - unfold after, stateAfter, deleteArrow. unfold_action.
    destruct (frames st !! frameId) as [f|] eqn:Hf; [| no_frame].
    apply integrity_insert; [done |]. apply closedFrame_arrows.
    apply Forall_forall. intros a [_ Ha]%list_elem_of_filter.
    exact (proj1 (Forall_forall _ _) (closedFrame_lookup _ _ _ Hst Hf) a Ha).
  - unfold after, stateAfter, createFrame. unfold_action.
    apply integrity_insert; [done |]. by apply closedFrame_spread.
  - unfold after, stateAfter, createSubFrame. unfold_action.
    destruct (frames st !! currentFrameId st) as [cur|] eqn:Hcur; [| done].
    destruct (findArrow arrowId (Frame.arrows cur)) as [a0|]; [| done].
    unfold set. simpl.
    pose proof (integrity_insert st newFrameId
                  (spreadFrame (subFrameDefaults newFrameId arrowId cur) frame)
                  Hst
                  (closedFrame_spread (subFrameDefaults newFrameId arrowId cur) frame
                     eq_refl eq_refl Hc)) as Hst1.
    destruct (hasKey _ _); [| done].
    destruct (<[newFrameId := _]> (frames st) !! currentFrameId st)
      as [cur1|] eqn:Hcur1; [| done].
    destruct (findArrowIndex arrowId (Frame.arrows cur1)) as [[i a]|] eqn:Hfind;
      [| done].
    apply (integrity_insert _ (currentFrameId st) _ Hst1).
    eapply closedFrame_bind; [done |].
    by eapply (closedFrame_lookup _ (currentFrameId st) cur1 Hst1).
Qed.

Lemma integrity_kept_by_run st calls :
  referentialIntegrity st → honoured st calls →
  referentialIntegrity (run st calls).
Proof.
  revert st. induction calls as [|c calls IH]; intros st Hst Hcalls; [done |].
  destruct Hcalls as [Hc Hrest]. simpl. apply IH; [| done].
  by apply integrity_kept_by_call.
Qed.

Lemma honoured_take st calls n : honoured st calls → honoured st (take n calls).
Proof.
  revert st n. induction calls as [|c calls IH]; intros st n H.
  - by rewrite take_nil.
  - destruct n as [|n]; [done |]. destruct H as [Hc Hrest].
    simpl. split; [done |]. by apply IH.
Qed.

End Integrity.

(** C2, as the store has it. The store validates no endpoint: referential
    integrity is kept by every call whose caller honours the contract that
    the endpoints an arrow is created with or updated to are nodes of the
    frame, that a node update keeps the node's id, and that the content
    handed to a new frame is closed. From a state in which it holds, it then
    holds after each call of the sequence; [deleteNode] keeps it by its
    cascade, and navigation, [createNode] and [deleteArrow] keep it
    unconditionally. *)
Theorem referential_integrity_under_contract (st : ArrowsState) (calls : list Call) :
  referentialIntegrity st →
  honoured st calls →
  ∀ n, referentialIntegrity (run st (take n calls)).
Proof.
  intros Hst Hcalls n.
  apply integrity_kept_by_run; [done |]. by apply honoured_take.
Qed.

Lemma referential_integrity_under_contract_witness :
  referentialIntegrity
    (run initialState
       (take 2 [CreateArrow "a1" "main" connectEvidenceToPlan;
                DeleteNode "main" "scientific-evidence";
                CollapseArrow])).
Proof.
  apply (referential_integrity_under_contract initialState).
  - apply (bool_decide_unpack _). vm_compute. exact I.
  - split; [| done].
    unfold honoursEndpointContract. rewrite seed_main.
    split; apply (bool_decide_unpack _); vm_compute; exact I.
Defined.

(** C2, as stated, fails: [createArrow] with no endpoints among its fields
    stores an arrow from [''] to [''] in a frame that has no such node. *)
Lemma createArrow_dangling_endpoints :
  referentialIntegrity initialState ∧
  ¬ referentialIntegrity (run initialState [CreateArrow "a1" "main" PartialArrow.empty]).
Proof.
  split; apply (bool_decide_unpack _); vm_compute; exact I.
Qed.

(** ** Editing: what a call changes, and how calls undo each other *)

Section Editing.

Lemma with_frames_same st fs : fs = frames st → with_frames fs st = st.
Proof. intros ->. by destruct st. Qed.

(** An editing call on an id that is no key of [frames] leaves the state as
    it was, whether its recipe did nothing or threw. *)
Lemma after_edit_no_frame st c frameId :
  editedFrame c = Some frameId → frames st !! frameId = None → after st c = st.
Proof.
  intros Hc Hf.
  destruct c; simpl in Hc; simplify_eq;
    unfold after, stateAfter, createNode, updateNode, deleteNode, createArrow,
      updateArrow, deleteArrow;
    unfold_action; rewrite Hf; no_frame.
Qed.

Lemma filter_all {A} (P : A → Prop) `{!∀ x, Decision (P x)} (l : list A) :
  Forall P l → filter P l = l.
Proof.
  induction 1 as [|a l Ha _ IH]; [done |].
  rewrite filter_cons_True by done. by rewrite IH.
Qed.

Lemma filter_twice {A} (P : A → Prop) `{!∀ x, Decision (P x)} (l : list A) :
  filter P (filter P l) = filter P l.
Proof. by apply list_filter_filter_l. Qed.

Lemma after_deleteNode st frameId nodeId f :
  frames st !! frameId = Some f →
  after st (DeleteNode frameId nodeId)
  = with_frames
      (<[frameId :=
           Frame.with_arrows
             (filter (λ a, Arrow.source a ≠ nodeId ∧ Arrow.target a ≠ nodeId)
                     (Frame.arrows f))
             (Frame.with_nodes (filter (λ n, Node.id n ≠ nodeId) (Frame.nodes f)) f)]>
         (frames st))
      st.
Proof.
  intros Hf. unfold after, stateAfter, deleteNode. unfold_action. by rewrite Hf.
Qed.

Lemma after_deleteArrow st frameId arrowId f :
  frames st !! frameId = Some f →
  after st (DeleteArrow frameId arrowId)
  = with_frames
      (<[frameId :=
           Frame.with_arrows (filter (λ a, Arrow.id a ≠ arrowId) (Frame.arrows f)) f]>
         (frames st))
      st.
Proof.
  intros Hf. unfold after, stateAfter, deleteArrow. unfold_action. by rewrite Hf.
Qed.

Lemma after_updateNode st frameId nodeId updates f i old :
  frames st !! frameId = Some f →
  findNodeIndex nodeId (Frame.nodes f) = Some (i, old) →
  after st (UpdateNode frameId nodeId updates)
  = with_frames
      (<[frameId :=
           Frame.with_nodes (<[i := spreadNode old updates]> (Frame.nodes f)) f]>
         (frames st))
      st.
Proof.
  intros Hf Hi. unfold after, stateAfter, updateNode. unfold_action.
  by rewrite Hf, Hi.
Qed.

Lemma after_updateArrow st frameId arrowId updates f i old :
  frames st !! frameId = Some f →
  findArrowIndex arrowId (Frame.arrows f) = Some (i, old) →
  after st (UpdateArrow frameId arrowId updates)
  = with_frames
      (<[frameId :=
           Frame.with_arrows (<[i := spreadArrow old updates]> (Frame.arrows f)) f]>
         (frames st))
      st.
Proof.
  intros Hf Hi. unfold after, stateAfter, updateArrow. unfold_action.
  by rewrite Hf, Hi.
Qed.

End Editing.

Section Undo.

Lemma after_createNode st newNodeId frameId node f :
  frames st !! frameId = Some f →
  after st (CreateNode newNodeId frameId node)
  = with_frames
      (<[frameId :=
           Frame.with_nodes
             (Frame.nodes f ++
              [spreadNode
                 {| Node.id := newNodeId; Node.type := NodeProposition;
                    Node.content := "";
                    Node.position := {| Position.x := 100; Position.y := 100 |};
                    Node.data := None |}
                 node])
             f]>
         (frames st))
      st.
Proof.
  intros Hf. unfold after, stateAfter. by rewrite (createNode_known_frame _ _ _ _ f).
Qed.

Lemma after_createArrow st newArrowId frameId arrow f :
  frames st !! frameId = Some f →
  after st (CreateArrow newArrowId frameId arrow)
  = with_frames
      (<[frameId :=
           Frame.with_arrows
             (Frame.arrows f ++
              [spreadArrow
                 {| Arrow.id := newArrowId; Arrow.source := "";
                    Arrow.target := ""; Arrow.type := ArrowLogical;
                    Arrow.hasSubFrame := false; Arrow.subFrameId := None |}
                 arrow])
             f]>
         (frames st))
      st.
Proof.
  intros Hf. unfold after, stateAfter. by rewrite (createArrow_known_frame _ _ _ _ f).
Qed.

Lemma with_frames_twice st fs1 fs2 :
  with_frames fs2 (with_frames fs1 st) = with_frames fs2 st.
Proof. done. Qed.

Lemma frame_eta (f : Frame.t) :
  Frame.with_arrows (Frame.arrows f) (Frame.with_nodes (Frame.nodes f) f) = f.
Proof. by destruct f. Qed.

End Undo.

Lemma createNode_deleteNode_undo
    (st : ArrowsState) (newNodeId frameId : string) (node : PartialNode.t)
    (f : Frame.t) :
  frames st !! frameId = Some f →
  PartialNode.id node = None →
  newNodeId ∉ nodeIds f →
  Forall (λ a, Arrow.source a ≠ newNodeId ∧ Arrow.target a ≠ newNodeId)
         (Frame.arrows f) →
  run st [CreateNode newNodeId frameId node; DeleteNode frameId newNodeId] = st.
Proof.
  intros Hf Hid Hfresh Harrows.
  change (run st _)
    with (after (after st (CreateNode newNodeId frameId node))
                (DeleteNode frameId newNodeId)).
  rewrite (after_createNode _ _ _ _ f) by done.
  erewrite after_deleteNode; [| simpl; apply lookup_insert_eq].
  cbn [frames with_frames Frame.nodes Frame.arrows Frame.with_nodes Frame.with_arrows].
  rewrite with_frames_twice, insert_insert_eq. apply with_frames_same.
  rewrite filter_app, (filter_all _ (Frame.nodes f)).
  - rewrite filter_cons_False, filter_nil, app_nil_r.
    + rewrite (filter_all _ (Frame.arrows f)) by done.
      apply insert_id. rewrite Hf. f_equal. by destruct f.
    + simpl. rewrite Hid. simpl. by intros [].
  - apply Forall_forall. intros n Hn Heq. apply Hfresh.
    unfold nodeIds. apply list_elem_of_fmap. eauto.
Qed.

(** X1. A node created without an id of the caller's, under a generated id
    that no node of the frame bears and no arrow of the frame mentions, is
    undone by [deleteNode] on the returned id: the store is back in the
    state it was in. *)
Theorem createNode_deleteNode_round_trip
    (st : ArrowsState) (newNodeId frameId : string) (node : PartialNode.t)
    (f : Frame.t) :
  frames st !! frameId = Some f →
  PartialNode.id node = None →
  newNodeId ∉ nodeIds f →
  Forall (λ a, Arrow.source a ≠ newNodeId ∧ Arrow.target a ≠ newNodeId)
         (Frame.arrows f) →
  run st [CreateNode newNodeId frameId node; DeleteNode frameId newNodeId] = st.
Proof. apply createNode_deleteNode_undo. Qed.

Lemma createNode_deleteNode_round_trip_witness :
  run initialState [CreateNode "n1" "main" PartialNode.empty; DeleteNode "main" "n1"]
  = initialState.
Proof.
  apply (createNode_deleteNode_round_trip initialState "n1" "main" PartialNode.empty
           mainFrame).
  - reflexivity.
  - reflexivity.
  - apply (bool_decide_unpack _). vm_compute. exact I.
  - apply (bool_decide_unpack _). vm_compute. exact I.
Defined.

(** X2. An arrow created without an id of the caller's, under a generated id
    that no arrow of the frame bears, is undone by [deleteArrow] on the
    returned id. *)
Theorem createArrow_deleteArrow_round_trip
    (st : ArrowsState) (newArrowId frameId : string) (arrow : PartialArrow.t)
    (f : Frame.t) :
  frames st !! frameId = Some f →
  PartialArrow.id arrow = None →
  newArrowId ∉ Arrow.id <$> Frame.arrows f →
  run st [CreateArrow newArrowId frameId arrow; DeleteArrow frameId newArrowId] = st.
Proof.
  intros Hf Hid Hfresh.
  change (run st _)
    with (after (after st (CreateArrow newArrowId frameId arrow))
                (DeleteArrow frameId newArrowId)).
  rewrite (after_createArrow _ _ _ _ f) by done.
  erewrite after_deleteArrow; [| simpl; apply lookup_insert_eq].
  cbn [frames with_frames Frame.nodes Frame.arrows Frame.with_nodes Frame.with_arrows].
  rewrite with_frames_twice, insert_insert_eq. apply with_frames_same.
  rewrite filter_app, (filter_all _ (Frame.arrows f)).
  - rewrite filter_cons_False, filter_nil, app_nil_r.
    + apply insert_id. rewrite Hf. f_equal. by destruct f.
    + simpl. rewrite Hid. simpl. by intros [].
  - apply Forall_forall. intros a Ha Heq. apply Hfresh.
    apply list_elem_of_fmap. eauto.
Qed.

Lemma createArrow_deleteArrow_round_trip_witness :
  run initialState
    [CreateArrow "a1" "main" connectEvidenceToPlan; DeleteArrow "main" "a1"]
  = initialState.
Proof.
  apply (createArrow_deleteArrow_round_trip initialState "a1" "main"
           connectEvidenceToPlan mainFrame).
  - reflexivity.
  - reflexivity.
  - apply (bool_decide_unpack _). vm_compute. exact I.
Defined.
Section Idempotence.

Lemma spreadNode_twice n u : spreadNode (spreadNode n u) u = spreadNode n u.
Proof.
  destruct u as [i t c p d]. unfold spreadNode. simpl.
  by destruct i, t, c, p, d.
Qed.

Lemma spreadArrow_twice a u : spreadArrow (spreadArrow a u) u = spreadArrow a u.
Proof.
  destruct u as [i s t k h b]. unfold spreadArrow. simpl.
  by destruct i, s, t, k, h, b.
Qed.

(** Replacing the found element by one that satisfies the predicate leaves
    it the first that does. *)
Lemma list_find_replaced {A} (P : A → Prop) `{!∀ x, Decision (P x)}
    (l : list A) i x y :
  list_find P l = Some (i, x) → P y → list_find P (<[i := y]> l) = Some (i, y).
Proof.
  intros (Hi & Hx & Hfirst)%list_find_Some Hy.
  apply list_find_Some. split_and!.
  - apply list_lookup_insert_eq. by eapply lookup_lt_Some.
  - done.
  - intros j z Hj Hlt. rewrite list_lookup_insert_ne in Hj by lia.
    by apply (Hfirst j z).
Qed.

End Idempotence.

(** X3. Deleting twice is deleting once, for nodes and for arrows, whether
    or not the frame or the element exists. *)
Theorem delete_idempotent (st : ArrowsState) (frameId i : string) :
  run st [DeleteNode frameId i; DeleteNode frameId i] = run st [DeleteNode frameId i] ∧
  run st [DeleteArrow frameId i; DeleteArrow frameId i] = run st [DeleteArrow frameId i].
Proof.
  split.
  - change (after (after st (DeleteNode frameId i)) (DeleteNode frameId i)
            = after st (DeleteNode frameId i)).
    destruct (frames st !! frameId) as [f|] eqn:Hf.
    + rewrite (after_deleteNode st _ _ f) by done.
      erewrite after_deleteNode; [| simpl; apply lookup_insert_eq].
      cbn [frames with_frames Frame.nodes Frame.arrows Frame.with_nodes
           Frame.with_arrows].
      by rewrite insert_insert_eq, !filter_twice.
    + assert (after st (DeleteNode frameId i) = st) as Hsame.
      { by apply (after_edit_no_frame _ _ frameId). }
      by rewrite !Hsame.
  - change (after (after st (DeleteArrow frameId i)) (DeleteArrow frameId i)
            = after st (DeleteArrow frameId i)).
    destruct (frames st !! frameId) as [f|] eqn:Hf.
    + rewrite (after_deleteArrow st _ _ f) by done.
      erewrite after_deleteArrow; [| simpl; apply lookup_insert_eq].
      cbn [frames with_frames Frame.nodes Frame.arrows Frame.with_nodes
           Frame.with_arrows].
      by rewrite insert_insert_eq, !filter_twice.
    + assert (after st (DeleteArrow frameId i) = st) as Hsame.
      { by apply (after_edit_no_frame _ _ frameId). }
      by rewrite !Hsame.
Qed.

(** X4. An update that does not rename its target is idempotent: applying
    the same partial fields a second time changes nothing more. *)
Theorem update_idempotent (st : ArrowsState) (frameId i : string) :
  (∀ updates, PartialNode.id updates = None →
     run st [UpdateNode frameId i updates; UpdateNode frameId i updates]
     = run st [UpdateNode frameId i updates]) ∧
  (∀ updates, PartialArrow.id updates = None →
     run st [UpdateArrow frameId i updates; UpdateArrow frameId i updates]
     = run st [UpdateArrow frameId i updates]).
Proof.
  split; intros updates Hid.
  - change (after (after st (UpdateNode frameId i updates)) (UpdateNode frameId i updates)
            = after st (UpdateNode frameId i updates)).
    destruct (frames st !! frameId) as [f|] eqn:Hf.
    + destruct (findNodeIndex i (Frame.nodes f)) as [[j old]|] eqn:Hfind.
      * rewrite (after_updateNode st _ _ _ f j old) by done.
        erewrite after_updateNode; [| simpl; apply lookup_insert_eq |].
        2:{ simpl. apply (list_find_replaced _ _ _ _ _ Hfind).
            apply list_find_Some in Hfind as (_ & Hold & _).
            simpl. by rewrite Hid. }
        cbn [frames with_frames Frame.nodes Frame.arrows Frame.with_nodes
             Frame.with_arrows].
        by rewrite insert_insert_eq, list_insert_insert_eq, spreadNode_twice.
      * assert (after st (UpdateNode frameId i updates) = st) as Hsame.
        { unfold after, stateAfter, updateNode. unfold_action. by rewrite Hf, Hfind. }
        by rewrite !Hsame.
    + assert (after st (UpdateNode frameId i updates) = st) as Hsame.
      { by apply (after_edit_no_frame _ _ frameId). }
      by rewrite !Hsame.
  - change (after (after st (UpdateArrow frameId i updates))
                  (UpdateArrow frameId i updates)
            = after st (UpdateArrow frameId i updates)).
    destruct (frames st !! frameId) as [f|] eqn:Hf.
    + destruct (findArrowIndex i (Frame.arrows f)) as [[j old]|] eqn:Hfind.
      * rewrite (after_updateArrow st _ _ _ f j old) by done.
        erewrite after_updateArrow; [| simpl; apply lookup_insert_eq |].
        2:{ simpl. apply (list_find_replaced _ _ _ _ _ Hfind).
            apply list_find_Some in Hfind as (_ & Hold & _).
            simpl. by rewrite Hid. }
        cbn [frames with_frames Frame.nodes Frame.arrows Frame.with_nodes
             Frame.with_arrows].
        by rewrite insert_insert_eq, list_insert_insert_eq, spreadArrow_twice.
      * assert (after st (UpdateArrow frameId i updates) = st) as Hsame.
        { unfold after, stateAfter, updateArrow. unfold_action. by rewrite Hf, Hfind. }
        by rewrite !Hsame.
    + assert (after st (UpdateArrow frameId i updates) = st) as Hsame.
      { by apply (after_edit_no_frame _ _ frameId). }
      by rewrite !Hsame.
Qed.
Section Locality.

Lemma local_insert st frameId f f' :
  frames st !! frameId = Some f →
  Frame.id f' = Frame.id f → Frame.title f' = Frame.title f →
  Frame.description f' = Frame.description f →
  Frame.parentArrowId f' = Frame.parentArrowId f → Frame.level f' = Frame.level f →
  let st' := with_frames (<[frameId := f']> (frames st)) st in
  dom (frames st') = dom (frames st) ∧
  (∀ k, k ≠ frameId → frames st' !! k = frames st !! k) ∧
  ∃ g, frames st' !! frameId = Some g ∧
       Frame.id g = Frame.id f ∧ Frame.title g = Frame.title f ∧
       Frame.description g = Frame.description f ∧
       Frame.parentArrowId g = Frame.parentArrowId f ∧ Frame.level g = Frame.level f.
Proof.
  intros Hf ? ? ? ? ? st'. subst st'. simpl. split_and!.
  - rewrite dom_insert_L. apply elem_of_dom_2 in Hf. set_solver.
  - intros k Hk. by rewrite lookup_insert_ne.
  - exists f'. by rewrite lookup_insert_eq.
Qed.

End Locality.

Lemma edit_is_local (st : ArrowsState) (c : Call) (frameId : string) :
  editedFrame c = Some frameId →
  currentFrameId (after st c) = currentFrameId st ∧
  expandedArrowId (after st c) = expandedArrowId st ∧
  breadcrumbs (after st c) = breadcrumbs st ∧
  dom (frames (after st c)) = dom (frames st) ∧
  (∀ k, k ≠ frameId → frames (after st c) !! k = frames st !! k) ∧
  (∀ f, frames st !! frameId = Some f →
     ∃ g, frames (after st c) !! frameId = Some g ∧
          Frame.id g = Frame.id f ∧ Frame.title g = Frame.title f ∧
          Frame.description g = Frame.description f ∧
          Frame.parentArrowId g = Frame.parentArrowId f ∧
          Frame.level g = Frame.level f).
Proof.
  intros Hc.
  assert (∀ f f', frames st !! frameId = Some f →
            Frame.id f' = Frame.id f → Frame.title f' = Frame.title f →
            Frame.description f' = Frame.description f →
            Frame.parentArrowId f' = Frame.parentArrowId f →
            Frame.level f' = Frame.level f →
            after st c = with_frames (<[frameId := f']> (frames st)) st →
            currentFrameId (after st c) = currentFrameId st ∧
            expandedArrowId (after st c) = expandedArrowId st ∧
            breadcrumbs (after st c) = breadcrumbs st ∧
            dom (frames (after st c)) = dom (frames st) ∧
            (∀ k, k ≠ frameId → frames (after st c) !! k = frames st !! k) ∧
            (∀ f0, frames st !! frameId = Some f0 →
               ∃ g, frames (after st c) !! frameId = Some g ∧
                    Frame.id g = Frame.id f0 ∧ Frame.title g = Frame.title f0 ∧
                    Frame.description g = Frame.description f0 ∧
                    Frame.parentArrowId g = Frame.parentArrowId f0 ∧
                    Frame.level g = Frame.level f0)) as Hchanged.
  { intros f f' Hf H1 H2 H3 H4 H5 ->.
    destruct (local_insert st frameId f f' Hf H1 H2 H3 H4 H5) as (Hd & Hk & Hg).
    split_and!; try done. intros f0 Hf0. by simplify_eq. }
  assert (after st c = st →
            currentFrameId (after st c) = currentFrameId st ∧
            expandedArrowId (after st c) = expandedArrowId st ∧
            breadcrumbs (after st c) = breadcrumbs st ∧
            dom (frames (after st c)) = dom (frames st) ∧
            (∀ k, k ≠ frameId → frames (after st c) !! k = frames st !! k) ∧
            (∀ f0, frames st !! frameId = Some f0 →
               ∃ g, frames (after st c) !! frameId = Some g ∧
                    Frame.id g = Frame.id f0 ∧ Frame.title g = Frame.title f0 ∧
                    Frame.description g = Frame.description f0 ∧
                    Frame.parentArrowId g = Frame.parentArrowId f0 ∧
                    Frame.level g = Frame.level f0)) as Hsame.
  { intros ->. split_and!; try done. intros f0 Hf0. by exists f0. }
  destruct c; simpl in Hc; simplify_eq.
  - destruct (frames st !! frameId) as [f|] eqn:Hf.
    + eapply (Hchanged f); [done | | | | | | by apply after_createNode]; done.
    + apply Hsame. by apply (after_edit_no_frame _ _ frameId).
  - destruct (frames st !! frameId) as [f|] eqn:Hf.
    + destruct (findNodeIndex nodeId (Frame.nodes f)) as [[j old]|] eqn:Hfind.
      * eapply (Hchanged f); [done | | | | | | by eapply after_updateNode]; done.
      * apply Hsame. unfold after, stateAfter, updateNode. unfold_action.
        by rewrite Hf, Hfind.
    + apply Hsame. by apply (after_edit_no_frame _ _ frameId).
  - destruct (frames st !! frameId) as [f|] eqn:Hf.
    + eapply (Hchanged f); [done | | | | | | by apply after_deleteNode]; done.
    + apply Hsame. by apply (after_edit_no_frame _ _ frameId).
  - destruct (frames st !! frameId) as [f|] eqn:Hf.
    + eapply (Hchanged f); [done | | | | | | by apply after_createArrow]; done.
    + apply Hsame. by apply (after_edit_no_frame _ _ frameId).
  - destruct (frames st !! frameId) as [f|] eqn:Hf.
    + destruct (findArrowIndex arrowId (Frame.arrows f)) as [[j old]|] eqn:Hfind.
      * eapply (Hchanged f); [done | | | | | | by eapply after_updateArrow]; done.
      * apply Hsame. unfold after, stateAfter, updateArrow. unfold_action.
        by rewrite Hf, Hfind.
    + apply Hsame. by apply (after_edit_no_frame _ _ frameId).
  - destruct (frames st !! frameId) as [f|] eqn:Hf.
    + eapply (Hchanged f); [done | | | | | | by apply after_deleteArrow]; done.
    + apply Hsame. by apply (after_edit_no_frame _ _ frameId).
Qed.

(** X5. The six editing calls are local to the frame they name: they leave
    the current frame id, the expanded arrow and the trail alone (so that
    deleting the expanded arrow does not collapse it), add or remove no key
    of [frames], leave every other frame as it was, and in the frame itself
    change nothing but the node and arrow lists. *)
Theorem edits_are_local (st : ArrowsState) (c : Call) (frameId : string) :
  editedFrame c = Some frameId →
  currentFrameId (after st c) = currentFrameId st ∧
  expandedArrowId (after st c) = expandedArrowId st ∧
  breadcrumbs (after st c) = breadcrumbs st ∧
  dom (frames (after st c)) = dom (frames st) ∧
  (∀ k, k ≠ frameId → frames (after st c) !! k = frames st !! k) ∧
  (∀ f, frames st !! frameId = Some f →
     ∃ g, frames (after st c) !! frameId = Some g ∧
          Frame.id g = Frame.id f ∧ Frame.title g = Frame.title f ∧
          Frame.description g = Frame.description f ∧
          Frame.parentArrowId g = Frame.parentArrowId f ∧
          Frame.level g = Frame.level f).
Proof. apply edit_is_local. Qed.

Lemma edits_are_local_witness :
  expandedArrowId
    (after (after initialState (ExpandArrow "arrow-scientific-to-carbon"))
           (DeleteArrow "main" "arrow-scientific-to-carbon"))
  = Some "arrow-scientific-to-carbon".
Proof.
  destruct (edits_are_local
              (after initialState (ExpandArrow "arrow-scientific-to-carbon"))
              (DeleteArrow "main" "arrow-scientific-to-carbon") "main")
    as (_ & -> & _); reflexivity.
Defined.

Lemma frames_kept_by_navigation (st : ArrowsState) (calls : list Call) :
  Forall (λ c, isNavigation c = true) calls → frames (run st calls) = frames st.
Proof.
  revert st. induction calls as [|c calls IH]; intros st Hnav; [done |].
  apply Forall_cons in Hnav as [Hc Hnav]. simpl. rewrite IH by done.
  destruct c; try discriminate.
  - unfold after, stateAfter, expandArrow. unfold_action.
    repeat case_match; simplify_eq; done.
  - done.
  - unfold after, stateAfter, navigateToFrame. unfold_action.
    repeat case_match; simplify_eq; done.
  - unfold after, stateAfter, navigateBack. unfold_action.
    repeat case_match; simplify_eq; done.
Qed.

(** X6. Navigation never edits: along any sequence of the four navigation
    calls the [frames] mapping stays as it was. *)
Theorem navigation_keeps_frames (st : ArrowsState) (calls : list Call) :
  Forall (λ c, isNavigation c = true) calls → frames (run st calls) = frames st.
Proof. apply frames_kept_by_navigation. Qed.

Lemma navigation_keeps_frames_witness :
  frames (run initialState
            [NavigateToFrame "scientific-carbon";
             ExpandArrow "arrow-models-to-reduction"; NavigateBack])
  = exampleData.
Proof.
  apply (navigation_keeps_frames initialState).
  repeat constructor.
Defined.
Section Trails.

(** A completed [navigateToFrame], with the part of the trail it keeps. *)
Lemma navigateToFrame_keeps_prefix_truthy st frameId :
  readFrame (frames st) frameId ≠ Undefined →
  ∃ pre,
    after st (NavigateToFrame frameId)
    = {| frames := frames st; currentFrameId := frameId;
         expandedArrowId := None; breadcrumbs := pre ++ [frameId] |} ∧
    (frameId ∉ pre) ∧
    (((frameId ∉ breadcrumbs st) ∧ pre = breadcrumbs st) ∨
     (∃ post, breadcrumbs st = pre ++ frameId :: post)).
Proof.
  intros Hk. unfold after, stateAfter. rewrite navigateToFrame_truthy by done.
  destruct (includes (breadcrumbs st) frameId) eqn:Hin; simpl.
  - apply includes_true in Hin.
    destruct (first_occurrence _ _ Hin) as (pre & post & Hl & Hpre).
    exists pre. rewrite Hl at 1 2. rewrite indexOf_first, slice0_through by done.
    split_and!; [done | done |]. right. by exists post.
  - apply includes_false in Hin. exists (breadcrumbs st).
    split_and!; [done | done |]. by left.
Qed.

Lemma navigateToFrame_keeps_prefix st frameId :
  is_Some (frames st !! frameId) →
  ∃ pre,
    after st (NavigateToFrame frameId)
    = {| frames := frames st; currentFrameId := frameId;
         expandedArrowId := None; breadcrumbs := pre ++ [frameId] |} ∧
    (frameId ∉ pre) ∧
    (((frameId ∉ breadcrumbs st) ∧ pre = breadcrumbs st) ∨
     (∃ post, breadcrumbs st = pre ++ frameId :: post)).
Proof.
  intros Hk. apply navigateToFrame_keeps_prefix_truthy, readFrame_truthy. by left.
Qed.

Lemma navigateToFrame_current st frameId pre :
  readFrame (frames st) frameId ≠ Undefined →
  frameId ∉ pre →
  breadcrumbs st = pre ++ [frameId] →
  after st (NavigateToFrame frameId)
  = {| frames := frames st; currentFrameId := frameId;
       expandedArrowId := None; breadcrumbs := pre ++ [frameId] |}.
Proof.
  intros Hk Hpre Hl. unfold after, stateAfter. rewrite navigateToFrame_truthy by done.
  assert (includes (breadcrumbs st) frameId = true) as ->.
  { apply includes_true. rewrite Hl. apply elem_of_app. right. apply list_elem_of_here. }
  simpl. by rewrite Hl, indexOf_first, slice0_through.
Qed.

Lemma after_back_short st :
  (length (breadcrumbs st) ≤ 1)%nat → after st NavigateBack = st.
Proof. intros H. unfold after, stateAfter. by rewrite navigateBack_short. Qed.

Lemma after_back_long st init prev lst :
  breadcrumbs st = init ++ [prev; lst] →
  after st NavigateBack
  = {| frames := frames st; currentFrameId := prev;
       expandedArrowId := None; breadcrumbs := init ++ [prev] |}.
Proof.
  intros H. unfold after, stateAfter. by rewrite (navigateBack_pops st init prev lst).
Qed.

End Trails.

(** X7. Navigating to the frame one has just navigated to changes nothing:
    [navigateToFrame] is idempotent, on known and unknown ids alike. *)
Theorem navigateToFrame_idempotent (st : ArrowsState) (frameId : string) :
  run st [NavigateToFrame frameId; NavigateToFrame frameId]
  = run st [NavigateToFrame frameId].
Proof.
  change (after (after st (NavigateToFrame frameId)) (NavigateToFrame frameId)
          = after st (NavigateToFrame frameId)).
  destruct (readFrame (frames st) frameId) eqn:Hf.
  - destruct (navigateToFrame_keeps_prefix_truthy st frameId) as (pre & -> & Hpre & _);
      [by rewrite Hf |].
    by rewrite (navigateToFrame_current _ frameId pre) by (simpl; by rewrite ?Hf).
  - destruct (navigateToFrame_keeps_prefix_truthy st frameId) as (pre & -> & Hpre & _);
      [by rewrite Hf |].
    by rewrite (navigateToFrame_current _ frameId pre) by (simpl; by rewrite ?Hf).
  - by rewrite !after_undefined_frame by (rewrite ?after_undefined_frame; done).
Qed.

(** X8. Drilling into a frame that is not yet in the trail and pressing Back
    returns to where one was: the current frame and the trail are restored,
    and nothing is left expanded. *)
Theorem navigate_forward_back_round_trip (st : ArrowsState) (frameId : string) :
  trailEndsAtCurrent st →
  is_Some (frames st !! frameId) →
  frameId ∉ breadcrumbs st →
  run st [NavigateToFrame frameId; NavigateBack] = with_expandedArrowId None st.
Proof.
  intros Hend Hk Hnew.
  change (after (after st (NavigateToFrame frameId)) NavigateBack
          = with_expandedArrowId None st).
  destruct (navigateToFrame_keeps_prefix st frameId Hk)
    as (pre & -> & _ & [[_ ->]|[post Hl]]).
  - unfold trailEndsAtCurrent in Hend.
    destruct (breadcrumbs st) as [|b l] eqn:Hb using rev_ind; [done |]. clear IHl.
    rewrite last_snoc in Hend. injection Hend as ->.
    rewrite (after_back_long _ l (currentFrameId st) frameId)
      by (simpl; by rewrite <- app_assoc).
    simpl. unfold with_expandedArrowId. by rewrite Hb.
  - exfalso. apply Hnew. rewrite Hl. apply elem_of_app. right. apply list_elem_of_here.
Qed.

Lemma navigate_forward_back_round_trip_witness :
  run initialState [NavigateToFrame "scientific-carbon"; NavigateBack]
  = with_expandedArrowId None initialState.
Proof.
  apply (navigate_forward_back_round_trip initialState "scientific-carbon").
  - reflexivity.
  - vm_compute. eauto.
  - apply (bool_decide_unpack _). vm_compute. exact I.
Defined.
Section Paths.

Lemma trail_shape_kept st c root :
  NoDup (breadcrumbs st) → head (breadcrumbs st) = Some root →
  NoDup (breadcrumbs (after st c)) ∧ head (breadcrumbs (after st c)) = Some root.
Proof.
  intros Hnd Hhead.
  destruct c;
    try (match goal with
         | |- context [after st ?c] =>
             destruct (editing_keeps_navigation st c) as [_ Hsame];
             [done | done | by rewrite Hsame]
         end).
  - destruct (decide (is_Some (frames st !! frameId) ∨ frameId ∈ inheritedNames))
      as [Hf|Hf];
      [apply readFrame_truthy in Hf |
       rewrite after_undefined_frame; [done |];
       destruct (readFrame (frames st) frameId) eqn:Hr; [| | done];
       destruct Hf; apply readFrame_truthy; by rewrite Hr].
    destruct (navigateToFrame_keeps_prefix_truthy st frameId)
      as (pre & -> & Hpre & [[Hnew ->]|[post Hl]]); [done | |]; simpl.
    + split.
      * apply NoDup_app. split_and!; [done | | apply NoDup_singleton].
        intros b Hb ->%list_elem_of_singleton. done.
      * by rewrite head_snoc, Hhead.
    + rewrite Hl in Hnd, Hhead. split.
      * apply NoDup_app in Hnd as (Hnd1 & Hdisj & _).
        apply NoDup_app. split_and!; [done | | apply NoDup_singleton].
        intros b Hb ->%list_elem_of_singleton.
        apply (Hdisj _ Hb), list_elem_of_here.
      * by destruct pre.
  - destruct (decide (1 < length (breadcrumbs st))%nat) as [Hlen|Hlen];
      [| by rewrite after_back_short by lia].
    destruct (last_two _ Hlen) as (init & prev & lst & Hl).
    rewrite (after_back_long st init prev lst) by done. simpl.
    rewrite Hl in Hnd, Hhead. split.
    + replace (init ++ [prev; lst]) with ((init ++ [prev]) ++ [lst]) in Hnd
        by (rewrite <- app_assoc; done).
      by apply NoDup_app in Hnd as [? _].
    + by rewrite head_snoc_snoc in Hhead.
Qed.

Lemma backs_add a b : backs (a + b) = backs a ++ backs b.
Proof. induction a as [|a IH]; [done |]. simpl. by rewrite IH. Qed.

(** On a trail of one entry any number of Backs does nothing. *)
Lemma backs_at_root st n :
  (length (breadcrumbs st) ≤ 1)%nat → run st (backs n) = st.
Proof.
  intros H. induction n as [|n IH]; [done |].
  cbn [backs run]. by rewrite after_back_short.
Qed.

Lemma backs_unwind rest : ∀ st root,
  breadcrumbs st = root :: rest →
  breadcrumbs (run st (backs (length rest))) = [root] ∧
  frames (run st (backs (length rest))) = frames st ∧
  (rest ≠ [] → currentFrameId (run st (backs (length rest))) = root).
Proof.
  induction rest as [|x r IH] using rev_ind; intros st root Hl; [done |].
  rewrite length_app. simpl.
  replace (length r + 1)%nat with (S (length r)) by lia. cbn [backs run].
  destruct (last_two (breadcrumbs st)) as (init & prev & lst & Hl').
  { rewrite Hl. simpl. rewrite length_app. simpl. lia. }
  assert (root :: r = init ++ [prev] ∧ x = lst) as [Hinit ->].
  { rewrite Hl in Hl'.
    replace (init ++ [prev; lst]) with ((init ++ [prev]) ++ [lst]) in Hl'
      by (rewrite <- app_assoc; done).
    change (root :: r ++ [x]) with ((root :: r) ++ [x]) in Hl'.
    by apply app_inj_tail in Hl'. }
  rewrite (after_back_long st init prev lst) by done.
  destruct (IH {| frames := frames st; currentFrameId := prev;
                  expandedArrowId := None; breadcrumbs := init ++ [prev] |} root)
    as (Hb & Hf & Hc); [by simpl |].
  split_and!; [done | done |]. intros _.
  destruct r as [|y r]; [| by apply Hc].
  simpl. destruct init as [|? [|? ?]]; simplify_eq/=; done.
Qed.

End Paths.

Lemma trail_shape_kept_by_run (calls : list Call) :
  NoDup (breadcrumbs (run initialState calls)) ∧
  head (breadcrumbs (run initialState calls)) = Some "main".
Proof.
  assert (∀ st, NoDup (breadcrumbs st) ∧ head (breadcrumbs st) = Some "main" →
                NoDup (breadcrumbs (run st calls)) ∧
                head (breadcrumbs (run st calls)) = Some "main") as Hrun.
  { induction calls as [|c calls IH]; intros st [Hnd Hhead]; [done |].
    simpl. apply IH. by apply trail_shape_kept. }
  apply Hrun. split; [apply NoDup_singleton | reflexivity].
Qed.

(** X9. From the initial state, after any sequence of store calls, the trail
    starts at [main] and holds no frame id twice. *)
Theorem trail_is_a_path (calls : list Call) :
  NoDup (breadcrumbs (run initialState calls)) ∧
  head (breadcrumbs (run initialState calls)) = Some "main".
Proof. apply trail_shape_kept_by_run. Qed.

(** X10. From wherever a sequence of store calls has led, pressing Back
    once per breadcrumb after the first (or more often) ends at [main]:
    [main] is current, the trail is [main] alone, and no frame has changed. *)
Theorem back_reaches_main (calls : list Call) (n : nat) :
  (length (breadcrumbs (run initialState calls)) - 1 ≤ n)%nat →
  currentFrameId (run (run initialState calls) (backs n)) = "main" ∧
  breadcrumbs (run (run initialState calls) (backs n)) = ["main"] ∧
  frames (run (run initialState calls) (backs n))
  = frames (run initialState calls).
Proof.
  intros Hn. set (st := run initialState calls) in *.
  destruct (trail_shape_kept_by_run calls) as [_ Hhead]. fold st in Hhead.
  pose proof (trail_kept_by_run initialState calls initial_trail) as Hend.
  fold st in Hend. unfold trailEndsAtCurrent in Hend.
  destruct (breadcrumbs st) as [|root rest] eqn:Hl; [done |].
  simpl in Hhead. injection Hhead as ->. simpl in Hn.
  replace n with (length rest + (n - length rest))%nat by lia.
  rewrite backs_add, run_app.
  destruct (backs_unwind rest st "main" Hl) as (Hb & Hf & Hc).
  rewrite backs_at_root by (rewrite Hb; simpl; lia).
  split_and!; [| done | done].
  destruct rest as [|x rest]; [| by apply Hc].
  simpl. simpl in Hend. by injection Hend.
Qed.

Lemma back_reaches_main_witness :
  currentFrameId
    (run (run initialState
            [NavigateToFrame "scientific-carbon";
             NavigateToFrame "climate-models-detail"])
         (backs 5))
  = "main".
Proof.
  apply (back_reaches_main
           [NavigateToFrame "scientific-carbon"; NavigateToFrame "climate-models-detail"]
           5).
  vm_compute. lia.
Defined.
(** X11. A peek leaves no trace: expanding any arrow id and collapsing
    again gives the state that collapsing alone gives, whether or not the
    arrow could be expanded and even when there is no current frame; so from
    a state with nothing expanded the pair restores the state. *)
Theorem expand_then_collapse (st : ArrowsState) (arrowId : string) :
  run st [ExpandArrow arrowId; CollapseArrow] = with_expandedArrowId None st ∧
  (expandedArrowId st = None → run st [ExpandArrow arrowId; CollapseArrow] = st).
Proof.
  assert (∃ e, after st (ExpandArrow arrowId) = with_expandedArrowId e st) as [e He].
  { unfold after, stateAfter, expandArrow. unfold_action. unfold set.
    destruct (frames st !! currentFrameId st) as [cur|];
      [destruct (expandable (findArrow arrowId (Frame.arrows cur))) |];
      first [by eexists | exists (expandedArrowId st); by destruct st]. }
  assert (run st [ExpandArrow arrowId; CollapseArrow] = with_expandedArrowId None st)
    as H.
  { change (run st _) with (after (after st (ExpandArrow arrowId)) CollapseArrow).
    by rewrite He. }
  split; [done |]. intros Hnone. rewrite H. destruct st. simpl in *. by subst.
Qed.

Lemma expand_then_collapse_witness :
  run initialState [ExpandArrow "arrow-scientific-to-carbon"; CollapseArrow]
  = initialState.
Proof.
  destruct (expand_then_collapse initialState "arrow-scientific-to-carbon") as [_ H].
  by apply H.
Defined.

Section Keys.

Lemma keysAreIds_insert st k f :
  keysAreIds st → Frame.id f = k →
  keysAreIds (with_frames (<[k := f]> (frames st)) st).
Proof. intros Hst Hf. unfold keysAreIds. simpl. by apply map_Forall_insert_2. Qed.

Lemma keysAreIds_kept_by_call st c :
  keysAreIds st → namesNoFrame c → keysAreIds (after st c).
Proof.
  intros Hst Hc.
  destruct (editedFrame c) as [frameId|] eqn:Hedit.
  - destruct (edit_is_local st c frameId Hedit) as (_ & _ & _ & Hdom & Hother & Hthis).
    intros k g Hg. destruct (decide (k = frameId)) as [->|Hne].
    + assert (is_Some (frames st !! frameId)) as [f Hf].
      { apply elem_of_dom. rewrite <- Hdom. apply elem_of_dom. eauto. }
      destruct (Hthis f Hf) as (g' & Hg' & Hid & _). simplify_eq.
      rewrite Hid. by apply (Hst frameId f).
    + rewrite Hother in Hg by done. by apply (Hst k g).
  - destruct c; simpl in Hedit; try discriminate.
    + change (keysAreIds (run st [ExpandArrow arrowId])). unfold keysAreIds.
      by rewrite frames_kept_by_navigation by (by repeat constructor).
    + done.
    + change (keysAreIds (run st [NavigateToFrame frameId])). unfold keysAreIds.
      by rewrite frames_kept_by_navigation by (by repeat constructor).
    + change (keysAreIds (run st [NavigateBack])). unfold keysAreIds.
      by rewrite frames_kept_by_navigation by (by repeat constructor).
    + unfold after, stateAfter, createFrame. unfold_action.
      apply keysAreIds_insert; [done |]. simpl. simpl in Hc. by rewrite Hc.
    + simpl in Hc.
      unfold after, stateAfter, createSubFrame. unfold_action.
      destruct (frames st !! currentFrameId st) as [cur|] eqn:Hcur; [| done].
      destruct (findArrow arrowId (Frame.arrows cur)) as [a0|]; [| done].
      unfold set. simpl.
      assert (keysAreIds
                (with_frames
                   (<[newFrameId :=
                        spreadFrame (subFrameDefaults newFrameId arrowId cur) frame]>
                      (frames st)) st)) as Hst1.
      { apply keysAreIds_insert; [done |]. simpl. by rewrite Hc. }
      destruct (hasKey _ _); [| done].
      destruct (<[newFrameId := _]> (frames st) !! currentFrameId st)
        as [cur1|] eqn:Hcur1; [| done].
      destruct (findArrowIndex arrowId (Frame.arrows cur1)) as [[i a]|] eqn:Hfind;
        [| done].
      apply (keysAreIds_insert _ (currentFrameId st) _ Hst1). simpl.
      by apply (Hst1 (currentFrameId st) cur1).
Qed.

End Keys.

Lemma keysAreIds_kept_by_run (st : ArrowsState) (calls : list Call) :
  keysAreIds st →
  Forall namesNoFrame calls →
  keysAreIds (run st calls).
Proof.
  revert st. induction calls as [|c calls IH]; intros st Hst Hcalls; [done |].
  apply Forall_cons in Hcalls as [Hc Hcalls]. simpl.
  apply IH; [| done]. by apply keysAreIds_kept_by_call.
Qed.

(** X12. The key of a frame is its id: if every frame is stored under its
    own [id], this stays so along any sequence of store calls in which no
    [createFrame] or [createSubFrame] is handed an id by its caller. *)
Theorem keys_stay_ids (st : ArrowsState) (calls : list Call) :
  keysAreIds st →
  Forall namesNoFrame calls →
  keysAreIds (run st calls).
Proof. apply keysAreIds_kept_by_run. Qed.

Lemma keys_stay_ids_witness :
  keysAreIds
    (run initialState
       [CreateSubFrame "g1" "arrow-scientific-to-economic" PartialFrame.empty;
        DeleteNode "main" "carbon-tax";
        CreateFrame "g2" PartialFrame.empty]).
Proof.
  apply (keys_stay_ids initialState).
  - intros k f Hf. unfold initialState, exampleData in Hf. simpl in Hf.
    repeat (apply lookup_insert_Some in Hf as [[<- <-]|[_ Hf]]; [reflexivity |]).
    by rewrite lookup_empty in Hf.
  - repeat constructor.
Defined.

(** X13. A frame that has just been created can be entered: after
    [createFrame] and [navigateToFrame] on the returned id that frame is
    current and ends the trail; created with no fields it is an empty frame
    of level 0 without parent arrow, and no other key of [frames] has
    changed. *)
Theorem createFrame_then_navigate
    (st : ArrowsState) (newFrameId : string) (fields : PartialFrame.t) :
  ∃ fr,
    createFrame newFrameId fields st
    = Normal newFrameId (with_frames (<[newFrameId := fr]> (frames st)) st) ∧
    currentFrameId (run st [CreateFrame newFrameId fields; NavigateToFrame newFrameId])
    = newFrameId ∧
    last (breadcrumbs
            (run st [CreateFrame newFrameId fields; NavigateToFrame newFrameId]))
    = Some newFrameId ∧
    frames (run st [CreateFrame newFrameId fields; NavigateToFrame newFrameId])
    = <[newFrameId := fr]> (frames st) ∧
    (fields = PartialFrame.empty →
     Frame.id fr = newFrameId ∧ Frame.nodes fr = [] ∧ Frame.arrows fr = [] ∧
     Frame.level fr = 0 ∧ Frame.parentArrowId fr = None).
Proof.
  eexists. split; [reflexivity |].
  change (run st _)
    with (after (after st (CreateFrame newFrameId fields)) (NavigateToFrame newFrameId)).
  set (st1 := after st (CreateFrame newFrameId fields)).
  assert (is_Some (frames st1 !! newFrameId)) as Hk.
  { unfold st1, after, stateAfter, createFrame. unfold_action.
    rewrite lookup_insert_eq. eauto. }
  destruct (navigateToFrame_keeps_prefix st1 newFrameId Hk) as (pre & -> & _).
  simpl. split_and!; try done.
  - apply last_snoc.
  - by intros ->.
Qed.
(** ** The arrow panel *)

Section ArrowPanelFacts.

Lemma findArrow_index l arrowId a :
  findArrow arrowId l = Some a → ∃ i, findArrowIndex arrowId l = Some (i, a).
Proof.
  unfold findArrow, findArrowIndex.
  destruct (list_find _ l) as [[i b]|]; [| done]. simpl. intros [= ->]. by exists i.
Qed.

Lemma findArrow_elem l arrowId a :
  findArrow arrowId l = Some a → a ∈ l ∧ Arrow.id a = arrowId.
Proof.
  intros [i Hi]%findArrow_index.
  apply list_find_Some in Hi as (Hi & Hid & _).
  split; [by eapply list_elem_of_lookup_2 | done].
Qed.

(** Writing back the arrow that was found changes nothing. *)
Lemma updateArrow_same st frameId arrowId updates f i old :
  frames st !! frameId = Some f →
  findArrowIndex arrowId (Frame.arrows f) = Some (i, old) →
  spreadArrow old updates = old →
  updateArrow frameId arrowId updates st = Normal tt st.
Proof.
  intros Hf Hi Hsame. unfold updateArrow. unfold_action. rewrite Hf, Hi, Hsame.
  f_equal. apply with_frames_same.
  apply list_find_Some in Hi as (Hi & _ & _).
  rewrite list_insert_id by done. apply insert_id. rewrite Hf. f_equal. by destruct f.
Qed.

Lemma updateArrow_found st frameId arrowId updates f i old :
  frames st !! frameId = Some f →
  findArrowIndex arrowId (Frame.arrows f) = Some (i, old) →
  updateArrow frameId arrowId updates st
  = Normal tt
      (with_frames
         (<[frameId :=
              Frame.with_arrows (<[i := spreadArrow old updates]> (Frame.arrows f)) f]>
            (frames st))
         st).
Proof. intros Hf Hi. unfold updateArrow. unfold_action. by rewrite Hf, Hi. Qed.

Lemma handleCreateSubFrame_bound st newFrameId arrowId cur a :
  frames st !! currentFrameId st = Some cur →
  findArrow arrowId (Frame.arrows cur) = Some a →
  truthyOpt (Arrow.subFrameId a) = true →
  ArrowPanel.handleCreateSubFrame newFrameId arrowId st
  = updateArrow (currentFrameId st) arrowId ArrowPanel.enable st.
Proof.
  intros Hc Ha Hb. unfold ArrowPanel.handleCreateSubFrame, mbind, action_bind, get, deref.
  by rewrite Hc, Ha, Hb.
Qed.

Lemma handleCreateSubFrame_unbound st newFrameId arrowId cur a r st' :
  frames st !! currentFrameId st = Some cur →
  findArrow arrowId (Frame.arrows cur) = Some a →
  truthyOpt (Arrow.subFrameId a) = false →
  createSubFrame newFrameId arrowId (ArrowPanel.subFrameFields cur a) st = Normal r st' →
  ArrowPanel.handleCreateSubFrame newFrameId arrowId st = Normal tt st'.
Proof.
  intros Hc Ha Hb Hrun.
  unfold ArrowPanel.handleCreateSubFrame, mbind, action_bind, get, deref.
  by rewrite Hc, Ha, Hb, Hrun.
Qed.

Lemma handleSave_found st arrowId type hasSubFrame cur a :
  frames st !! currentFrameId st = Some cur →
  findArrow arrowId (Frame.arrows cur) = Some a →
  ArrowPanel.handleSave arrowId type hasSubFrame st
  = updateArrow (currentFrameId st) arrowId
      {| PartialArrow.id := None; PartialArrow.source := None;
         PartialArrow.target := None;
         PartialArrow.type := Some type;
         PartialArrow.hasSubFrame := Some hasSubFrame;
         PartialArrow.subFrameId := None |}
      st.
Proof.
  intros Hc Ha. unfold ArrowPanel.handleSave, mbind, action_bind, get, deref.
  by rewrite Hc, Ha.
Qed.

End ArrowPanelFacts.

(** X14. The guard of the arrow panel makes sub-frame creation idempotent.
    On an arrow of the current frame that is not yet bound to a sub-frame,
    [handleCreateSubFrame] with a fresh, non-empty generated id adds one
    frame and binds the arrow to it; a second [handleCreateSubFrame] on the
    same arrow changes nothing at all: no second frame, the same
    [subFrameId]. *)
Theorem handleCreateSubFrame_idempotent
    (st : ArrowsState) (id1 id2 arrowId : string) (cur : Frame.t) (a : Arrow.t) :
  frames st !! currentFrameId st = Some cur →
  findArrow arrowId (Frame.arrows cur) = Some a →
  truthyOpt (Arrow.subFrameId a) = false →
  frames st !! id1 = None →
  id1 ≠ "" →
  ∃ st1 cur1 a1,
    ArrowPanel.handleCreateSubFrame id1 arrowId st = Normal tt st1 ∧
    size (frames st1) = S (size (frames st)) ∧
    frames st1 !! currentFrameId st1 = Some cur1 ∧
    findArrow arrowId (Frame.arrows cur1) = Some a1 ∧
    Arrow.hasSubFrame a1 = true ∧
    Arrow.subFrameId a1 = Some id1 ∧
    is_Some (frames st1 !! id1) ∧
    ArrowPanel.handleCreateSubFrame id2 arrowId st1 = Normal tt st1.
Proof.
  intros Hc Ha Hunbound Hfresh Hne.
  destruct (findArrow_elem _ _ _ Ha) as [Hin Hid].
  destruct (createSubFrame_fresh st id1 arrowId (ArrowPanel.subFrameFields cur a) cur
              Hc (ex_intro _ a (conj Hin Hid)) Hfresh)
    as (st1 & cur1 & a1 & Hrun & Hcid & Hc1 & Ha1 & Hflag & Hsub & Hnew & _ & Hsize).
  exists st1, cur1, a1.
  split; [by eapply handleCreateSubFrame_unbound |].
  split_and!; try done.
  rewrite (handleCreateSubFrame_bound st1 id2 arrowId cur1 a1); [| done | done |].
  - destruct (findArrow_index _ _ _ Ha1) as [i Hi].
    apply (updateArrow_same st1 _ _ _ cur1 i a1); [done | done |].
    destruct a1. simpl in *. by subst.
  - rewrite Hsub. simpl. by apply truthy_nonempty.
Qed.

Lemma handleCreateSubFrame_idempotent_witness :
  ∃ st1,
    ArrowPanel.handleCreateSubFrame "g1" "arrow-scientific-to-economic" initialState
    = Normal tt st1 ∧
    size (frames st1) = S (size (frames initialState)) ∧
    ArrowPanel.handleCreateSubFrame "g2" "arrow-scientific-to-economic" st1
    = Normal tt st1.
Proof.
  destruct (handleCreateSubFrame_idempotent initialState "g1" "g2"
              "arrow-scientific-to-economic" mainFrame
              (mkArrow "arrow-scientific-to-economic" "scientific-evidence"
                 "economic-analysis" ArrowSupportive false None))
    as (st1 & ? & ? & Hrun1 & Hsize & _ & _ & _ & _ & _ & Hrun2);
    try reflexivity; [discriminate |].
  by exists st1.
Defined.

(** X15. Hiding a sub-frame and showing it again is a round trip. On an
    arrow that shows a sub-frame, saving the arrow panel with the box
    unchecked keeps [subFrameId] and every frame, and makes [expandArrow]
    refuse the arrow; [handleCreateSubFrame] then creates nothing and puts
    the store back in the state it was in before the sub-frame was hidden. *)
Theorem hide_then_show_round_trip
    (st : ArrowsState) (newFrameId arrowId s : string) (cur : Frame.t) (a : Arrow.t) :
  frames st !! currentFrameId st = Some cur →
  findArrow arrowId (Frame.arrows cur) = Some a →
  Arrow.hasSubFrame a = true →
  Arrow.subFrameId a = Some s →
  s ≠ "" →
  ∃ hidden curh ah,
    ArrowPanel.handleSave arrowId (Arrow.type a) false st = Normal tt hidden ∧
    dom (frames hidden) = dom (frames st) ∧
    frames hidden !! currentFrameId hidden = Some curh ∧
    findArrow arrowId (Frame.arrows curh) = Some ah ∧
    Arrow.hasSubFrame ah = false ∧
    Arrow.subFrameId ah = Some s ∧
    expandArrow arrowId hidden = Normal tt hidden ∧
    ArrowPanel.handleCreateSubFrame newFrameId arrowId hidden = Normal tt st.
Proof.
  intros Hc Ha Hflag Hsub Hne.
  destruct (findArrow_index _ _ _ Ha) as [i Hi].
  set (ah := spreadArrow a
               {| PartialArrow.id := None; PartialArrow.source := None;
                  PartialArrow.target := None;
                  PartialArrow.type := Some (Arrow.type a);
                  PartialArrow.hasSubFrame := Some false;
                  PartialArrow.subFrameId := None |}).
  set (curh := Frame.with_arrows (<[i := ah]> (Frame.arrows cur)) cur).
  set (hidden := with_frames (<[currentFrameId st := curh]> (frames st)) st).
  assert (findArrowIndex arrowId (Frame.arrows curh) = Some (i, ah)) as Hih.
  { unfold curh. simpl. apply (list_find_replaced _ _ _ _ _ Hi).
    apply list_find_Some in Hi as (_ & Hid & _). done. }
  assert (findArrow arrowId (Frame.arrows curh) = Some ah) as Hah.
  { by destruct (findArrowIndex_Some _ _ _ _ Hih) as (_ & _ & ?). }
  assert (frames hidden !! currentFrameId hidden = Some curh) as Hch.
  { unfold hidden. simpl. apply lookup_insert_eq. }
  exists hidden, curh, ah. split_and!; try done.
  - rewrite (handleSave_found st _ _ _ cur a) by done.
    by rewrite (updateArrow_found st _ _ _ cur i a).
  - unfold hidden. simpl. rewrite dom_insert_L. apply elem_of_dom_2 in Hc. set_solver.
  - destruct (expandArrow_on_frame hidden arrowId curh Hch)
      as (st' & Hrun & _ & _ & _ & _ & Hno & _).
    rewrite Hrun. f_equal. apply Hno.
    intros (j & b & t & Hj & Hidb & Hfirst & Hflagb & _).
    assert (list_find (λ x, Arrow.id x = arrowId) (Frame.arrows curh) = Some (j, b))
      as Hjb by (apply list_find_Some; split_and!; done).
    unfold findArrowIndex in Hih. rewrite Hih in Hjb. by simplify_eq.
  - assert (truthyOpt (Arrow.subFrameId ah) = true) as Hbound.
    { unfold ah. simpl. rewrite Hsub. simpl. by apply truthy_nonempty. }
    rewrite (handleCreateSubFrame_bound hidden _ _ curh ah) by done.
    rewrite (updateArrow_found hidden _ _ _ curh i ah) by done.
    f_equal. unfold hidden, curh. simpl.
    rewrite with_frames_twice, insert_insert_eq. apply with_frames_same.
    rewrite list_insert_insert_eq.
    assert (spreadArrow ah ArrowPanel.enable = a) as ->.
    { unfold ah. destruct a. simpl in *. by subst. }
    apply list_find_Some in Hi as (Hi & _ & _).
    rewrite list_insert_id by done. apply insert_id. rewrite Hc. f_equal. by destruct cur.
Qed.

Lemma hide_then_show_round_trip_witness :
  ∃ hidden,
    ArrowPanel.handleSave "arrow-scientific-to-carbon" ArrowLogical false initialState
    = Normal tt hidden ∧
    expandArrow "arrow-scientific-to-carbon" hidden = Normal tt hidden ∧
    ArrowPanel.handleCreateSubFrame "g1" "arrow-scientific-to-carbon" hidden
    = Normal tt initialState.
Proof.
  destruct (hide_then_show_round_trip initialState "g1" "arrow-scientific-to-carbon"
              "scientific-carbon" mainFrame
              (mkArrow "arrow-scientific-to-carbon" "scientific-evidence" "carbon-tax"
                 ArrowLogical true (Some "scientific-carbon")))
    as (hidden & ? & ? & Hsave & _ & _ & _ & _ & _ & Hexp & Hshow);
    try reflexivity; [discriminate |].
  by exists hidden.
Defined.
(** ** The overlay, the toolbar, the canvas and the node panel *)

Section Handlers.

Lemma handleNavigateToFrame_shown st arrowId cur a s sub :
  frames st !! currentFrameId st = Some cur →
  findArrow arrowId (Frame.arrows cur) = Some a →
  Arrow.hasSubFrame a = true →
  Arrow.subFrameId a = Some s →
  s ≠ "" →
  frames st !! s = Some sub →
  ExpandedArrow.handleNavigateToFrame arrowId st = navigateToFrame (Frame.id sub) st.
Proof.
  intros Hc Ha Hflag Hs Hne Hsub.
  unfold ExpandedArrow.handleNavigateToFrame, mbind, action_bind, get, deref.
  rewrite Hc, Ha, Hflag, Hs. simpl.
  assert (truthy s = true) as -> by by apply truthy_nonempty.
  simpl. unfold mbind, option_bind. by rewrite Hsub.
Qed.

Lemma prop_assign k v d : prop k (assign k v d) = Some v.
Proof.
  unfold prop. induction d as [|[k' v'] d IH]; simpl.
  - by rewrite decide_True.
  - destruct (decide (k' = k)) as [->|Hne]; simpl.
    + by rewrite decide_True.
    + rewrite decide_False by done.
      destruct (list_find _ (assign k v d)) as [[i [k2 v2]]|]; simpl in *; by simplify_eq.
Qed.

Lemma prop_assign_other k k' v d : k' ≠ k → prop k' (assign k v d) = prop k' d.
Proof.
  intros Hne. unfold prop. induction d as [|[k0 v0] d IH]; simpl.
  - by rewrite decide_False by done.
  - destruct (decide (k0 = k)) as [->|Hne0]; simpl.
    + by rewrite !decide_False by done.
    + destruct (decide (k0 = k')); [done |].
      destruct (list_find _ (assign k v d)) as [[i [k2 v2]]|],
               (list_find _ d) as [[j [k3 v3]]|]; simpl in *; by simplify_eq.
Qed.

Lemma open_full_screen_shape st arrowId s cur sub a :
  frames st !! currentFrameId st = Some cur →
  findArrow arrowId (Frame.arrows cur) = Some a →
  Arrow.hasSubFrame a = true →
  Arrow.subFrameId a = Some s →
  s ≠ "" →
  frames st !! s = Some sub →
  Frame.id sub = s →
  ∃ st',
    ExpandedArrow.handleNavigateToFrame arrowId st = Normal tt st' ∧
    currentFrameId st' = s ∧
    expandedArrowId st' = None ∧
    last (breadcrumbs st') = Some s ∧
    (s ∉ breadcrumbs st → breadcrumbs st' = breadcrumbs st ++ [s]) ∧
    frames st' = frames st.
Proof.
  intros Hc Ha Hflag Hs Hne Hsub Hid.
  rewrite (handleNavigateToFrame_shown st arrowId cur a s sub) by done.
  rewrite Hid.
  destruct (navigateToFrame_keeps_prefix st s) as (pre & Hafter & _ & Hcase); [eauto |].
  unfold after, stateAfter in Hafter.
  rewrite navigateToFrame_known in * by eauto.
  eexists. split; [reflexivity |]. rewrite Hafter. simpl.
  split_and!; try done.
  - apply last_snoc.
  - intros Hnew. destruct Hcase as [[_ ->]|[post Hl]]; [done |].
    exfalso. apply Hnew. rewrite Hl. apply elem_of_app. right. apply list_elem_of_here.
Qed.

End Handlers.

(** X16. Open Full Screen enters the sub-frame. When the arrow shown in the
    overlay is bound to a frame that is stored under its own id, the
    overlay's [handleNavigateToFrame] makes that frame current, ends the
    trail with it, collapses the overlay and changes no frame. *)
Theorem open_full_screen_enters_subframe
    (st : ArrowsState) (arrowId s : string) (cur sub : Frame.t) (a : Arrow.t) :
  frames st !! currentFrameId st = Some cur →
  findArrow arrowId (Frame.arrows cur) = Some a →
  Arrow.hasSubFrame a = true →
  Arrow.subFrameId a = Some s →
  s ≠ "" →
  frames st !! s = Some sub →
  Frame.id sub = s →
  ∃ st',
    ExpandedArrow.handleNavigateToFrame arrowId st = Normal tt st' ∧
    currentFrameId st' = s ∧
    expandedArrowId st' = None ∧
    last (breadcrumbs st') = Some s ∧
    (s ∉ breadcrumbs st → breadcrumbs st' = breadcrumbs st ++ [s]) ∧
    frames st' = frames st.
Proof. apply open_full_screen_shape. Qed.

Lemma open_full_screen_enters_subframe_witness :
  ∃ st',
    ExpandedArrow.handleNavigateToFrame "arrow-scientific-to-carbon" initialState
    = Normal tt st' ∧
    currentFrameId st' = "scientific-carbon" ∧
    breadcrumbs st' = ["main"; "scientific-carbon"].
Proof.
  destruct (open_full_screen_enters_subframe initialState "arrow-scientific-to-carbon"
              "scientific-carbon" mainFrame scientificCarbonFrame
              (mkArrow "arrow-scientific-to-carbon" "scientific-evidence" "carbon-tax"
                 ArrowLogical true (Some "scientific-carbon")))
    as (st' & Hrun & Hcur & _ & _ & Happend & _);
    try reflexivity; [discriminate |].
  exists st'. split_and!; try done. apply Happend.
  apply (bool_decide_unpack _). vm_compute. exact I.
Defined.

(** X17. Create, peek, open. On an arrow of the current frame that is not
    bound yet, with a fresh non-empty generated id, in a current frame whose
    level is from -2^53 to 2^53 - 1: the arrow panel creates the sub-frame
    one level below the current frame, with the arrow as its parent and
    under its own id; [expandArrow] then shows it in the overlay; and Open
    Full Screen makes it the current frame at the end of the trail. *)
Theorem create_peek_open
    (st : ArrowsState) (newFrameId arrowId : string) (cur : Frame.t) (a : Arrow.t) :
  frames st !! currentFrameId st = Some cur →
  findArrow arrowId (Frame.arrows cur) = Some a →
  truthyOpt (Arrow.subFrameId a) = false →
  frames st !! newFrameId = None →
  newFrameId ≠ "" →
  safeLevel (Frame.level cur) →
  ∃ st1 st2 st3 sub,
    ArrowPanel.handleCreateSubFrame newFrameId arrowId st = Normal tt st1 ∧
    frames st1 !! newFrameId = Some sub ∧
    Frame.id sub = newFrameId ∧
    Frame.level sub = Frame.level cur + 1 ∧
    Frame.parentArrowId sub = Some arrowId ∧
    Frame.nodes sub = [] ∧ Frame.arrows sub = [] ∧
    expandArrow arrowId st1 = Normal tt st2 ∧
    expandedArrowId st2 = Some arrowId ∧
    ExpandedArrow.handleNavigateToFrame arrowId st2 = Normal tt st3 ∧
    currentFrameId st3 = newFrameId ∧
    expandedArrowId st3 = None ∧
    last (breadcrumbs st3) = Some newFrameId.
Proof.
  intros Hc Ha Hunbound Hfresh Hne Hsafe.
  destruct (findArrow_elem _ _ _ Ha) as [Hin Hid].
  destruct (createSubFrame_fresh st newFrameId arrowId (ArrowPanel.subFrameFields cur a)
              cur Hc (ex_intro _ a (conj Hin Hid)) Hfresh)
    as (st1 & cur1 & a1 & Hrun & Hcid & Hc1 & Ha1 & Hflag & Hsub & Hnew & _ & _).
  destruct (findArrow_index _ _ _ Ha1) as [i Hi].
  destruct (expandArrow_on_frame st1 arrowId cur1 Hc1)
    as (st2 & Hrun2 & Hf2 & Hc2 & Hb2 & Hset & _).
  assert (expandedArrowId st2 = Some arrowId) as Hexp.
  { apply Hset. apply list_find_Some in Hi as (Hi & Hida & Hfirst).
    exists i, a1, newFrameId. split_and!; done. }
  destruct (open_full_screen_shape st2 arrowId newFrameId cur1
              (spreadFrame (subFrameDefaults newFrameId arrowId cur)
                 (ArrowPanel.subFrameFields cur a)) a1)
    as (st3 & Hrun3 & Hcur3 & Hexp3 & Hlast3 & _);
    rewrite ?Hf2, ?Hc2, <- ?Hcid; try done.
  exists st1, st2, st3, (spreadFrame (subFrameDefaults newFrameId arrowId cur)
                           (ArrowPanel.subFrameFields cur a)).
  split; [by eapply handleCreateSubFrame_unbound |].
  split_and!; try done.
  simpl. by apply numberPlus_one_exact.
Qed.

Lemma create_peek_open_witness :
  ∃ st1 st3,
    ArrowPanel.handleCreateSubFrame "g1" "arrow-scientific-to-economic" initialState
    = Normal tt st1 ∧
    ExpandedArrow.handleNavigateToFrame "arrow-scientific-to-economic"
      (stateAfter (expandArrow "arrow-scientific-to-economic") st1)
    = Normal tt st3 ∧
    currentFrameId st3 = "g1".
Proof.
  destruct (create_peek_open initialState "g1" "arrow-scientific-to-economic" mainFrame
              (mkArrow "arrow-scientific-to-economic" "scientific-evidence"
                 "economic-analysis" ArrowSupportive false None))
    as (st1 & st2 & st3 & sub & Hrun1 & _ & _ & _ & _ & _ & _ & Hrun2 & _ & Hrun3
        & Hcur & _);
    try reflexivity; [discriminate | unfold safeLevel; simpl; lia |].
  exists st1, st3. split_and!; try done.
  unfold stateAfter. by rewrite Hrun2.
Defined.

Lemma handleDelete_as_call st nodeId :
  is_Some (frames st !! currentFrameId st) →
  NodePanel.handleDelete nodeId st
  = Normal tt (after st (DeleteNode (currentFrameId st) nodeId)).
Proof.
  intros [cur Hc].
  unfold NodePanel.handleDelete, after, stateAfter, deleteNode. unfold_action.
  by rewrite Hc.
Qed.

(** X18. Add Node, then Delete in the node panel. In a current frame where
    the generated id is new and no arrow mentions it, the toolbar's
    [handleAddNode] appends one node that bears the generated id, reads
    'New Proposition', is a proposition and sits at (200, 200); the node
    panel's [handleDelete] on that id then puts the store back in the state
    it was in. *)
Theorem add_node_then_delete
    (st : ArrowsState) (newNodeId : string) (cur : Frame.t) :
  frames st !! currentFrameId st = Some cur →
  newNodeId ∉ nodeIds cur →
  Forall (λ a, Arrow.source a ≠ newNodeId ∧ Arrow.target a ≠ newNodeId)
         (Frame.arrows cur) →
  ∃ st1 n,
    Toolbar.handleAddNode newNodeId st = Normal tt st1 ∧
    frames st1 !! currentFrameId st1
    = Some (Frame.with_nodes (Frame.nodes cur ++ [n]) cur) ∧
    Node.id n = newNodeId ∧
    Node.content n = "New Proposition" ∧
    Node.type n = NodeProposition ∧
    Node.position n = {| Position.x := 200; Position.y := 200 |} ∧
    NodePanel.handleDelete newNodeId st1 = Normal tt st.
Proof.
  intros Hc Hfresh Harrows.
  set (fields := {| PartialNode.id := None; PartialNode.type := None;
                    PartialNode.content := Some "New Proposition";
                    PartialNode.position :=
                      Some {| Position.x := 200; Position.y := 200 |};
                    PartialNode.data := None |}).
  assert (Toolbar.handleAddNode newNodeId st
          = Normal tt (after st (CreateNode newNodeId (currentFrameId st) fields)))
    as Hadd.
  { unfold Toolbar.handleAddNode, after, stateAfter, mbind, action_bind, get.
    fold fields. by rewrite (createNode_known_frame _ _ _ _ cur). }
  pose proof (createNode_deleteNode_undo st newNodeId (currentFrameId st) fields cur
                Hc eq_refl Hfresh Harrows) as Hundo.
  change (run st _)
    with (after (after st (CreateNode newNodeId (currentFrameId st) fields))
                (DeleteNode (currentFrameId st) newNodeId)) in Hundo.
  rewrite Hadd. rewrite (after_createNode _ _ _ _ cur) in * by done.
  eexists _, _. split; [reflexivity |].
  split; [simpl; apply lookup_insert_eq |].
  split_and!; try done.
  rewrite handleDelete_as_call by (simpl; rewrite lookup_insert_eq; eauto).
  cbn [currentFrameId with_frames]. by rewrite Hundo.
Qed.

Lemma add_node_then_delete_witness :
  ∃ st1,
    Toolbar.handleAddNode "n1" initialState = Normal tt st1 ∧
    NodePanel.handleDelete "n1" st1 = Normal tt initialState.
Proof.
  destruct (add_node_then_delete initialState "n1" mainFrame)
    as (st1 & n & Hadd & _ & _ & _ & _ & _ & Hdel).
  - reflexivity.
  - apply (bool_decide_unpack _). vm_compute. exact I.
  - apply (bool_decide_unpack _). vm_compute. exact I.
  - by exists st1.
Defined.

(** X19. The canvas never stores an arrow without endpoints. [onConnect]
    does nothing when the source or the target of the connection is missing
    or empty; otherwise, in an existing current frame, it appends exactly
    one arrow, from that source to that target, logical, without sub-frame,
    under the generated id. *)
Theorem onConnect_guard
    (st : ArrowsState) (newArrowId : string) (connection : Connection.t) :
  (truthyOpt (Connection.source connection)
   && truthyOpt (Connection.target connection) = false →
   BigArrowsCanvas.onConnect newArrowId connection st = Normal tt st) ∧
  (∀ source target cur,
     Connection.source connection = Some source → source ≠ "" →
     Connection.target connection = Some target → target ≠ "" →
     frames st !! currentFrameId st = Some cur →
     BigArrowsCanvas.onConnect newArrowId connection st
     = Normal tt
         (with_frames
            (<[currentFrameId st :=
                 Frame.with_arrows
                   (Frame.arrows cur ++
                    [mkArrow newArrowId source target ArrowLogical false None])
                   cur]>
               (frames st))
            st)).
Proof.
  destruct connection as [src tgt]. simpl. split.
  - intros Hguard. unfold BigArrowsCanvas.onConnect, mbind, action_bind, get. simpl.
    destruct src as [s|], tgt as [t|]; try done.
    simpl in Hguard. by rewrite Hguard.
  - intros source target cur -> Hs -> Ht Hc.
    unfold BigArrowsCanvas.onConnect, mbind, action_bind, get.
    cbn [Connection.source Connection.target].
    apply truthy_nonempty in Hs, Ht. rewrite Hs, Ht. cbn [andb].
    by rewrite (createArrow_known_frame _ _ _ _ cur).
Qed.

Lemma onConnect_guard_witness :
  BigArrowsCanvas.onConnect "a1"
    {| Connection.source := Some "carbon-tax"; Connection.target := None |}
    initialState
  = Normal tt initialState.
Proof.
  destruct (onConnect_guard initialState "a1"
              {| Connection.source := Some "carbon-tax"; Connection.target := None |})
    as [H _].
  by apply H.
Defined.

(** X20. What the node panel saves is what it shows next. After
    [handleSave] on a node of the current frame, the node found under that
    id has the saved content and type and the saved description in its
    data, with the other data keys, its id and its position as before; the
    frame has as many nodes as before and the same arrows. *)
Theorem nodePanel_save_then_read
    (st : ArrowsState) (nodeId content description : string) (type : NodeType)
    (cur : Frame.t) (node : Node.t) :
  frames st !! currentFrameId st = Some cur →
  findNode nodeId (Frame.nodes cur) = Some node →
  ∃ st' cur' node',
    NodePanel.handleSave nodeId content type description st = Normal tt st' ∧
    frames st' !! currentFrameId st' = Some cur' ∧
    findNode nodeId (Frame.nodes cur') = Some node' ∧
    Node.content node' = content ∧
    Node.type node' = type ∧
    (Node.data node' ≫= prop "description") = Some description ∧
    (∀ k d, k ≠ "description" → Node.data node = Some d →
            (Node.data node' ≫= prop k) = prop k d) ∧
    Node.id node' = Node.id node ∧
    Node.position node' = Node.position node ∧
    length (Frame.nodes cur') = length (Frame.nodes cur) ∧
    Frame.arrows cur' = Frame.arrows cur.
Proof.
  intros Hc Hn.
  assert (∃ i, findNodeIndex nodeId (Frame.nodes cur) = Some (i, node)) as [i Hi].
  { unfold findNode, findNodeIndex in *.
    destruct (list_find _ _) as [[i b]|]; [| done]. simpl in Hn. simplify_eq.
    by exists i. }
  eexists _, _, _. split.
  { unfold NodePanel.handleSave, mbind, action_bind, get, deref. rewrite Hc, Hn.
    unfold updateNode, produce, readFrame. rewrite Hc, Hi. reflexivity. }
  split; [simpl; apply lookup_insert_eq |].
  split.
  { simpl. unfold findNode.
    erewrite (list_find_replaced _ _ _ _ _ Hi); [reflexivity |].
    apply list_find_Some in Hi as (_ & Hid & _). done. }
  simpl. split_and!; try done.
  - apply prop_assign.
  - intros k d Hk Hd. rewrite Hd. simpl. by apply prop_assign_other.
  - by rewrite length_insert.
Qed.

Lemma nodePanel_save_then_read_witness :
  ∃ st' cur' node',
    NodePanel.handleSave "carbon-tax" "Carbon Tax" NodeAssumption "revised" initialState
    = Normal tt st' ∧
    frames st' !! "main" = Some cur' ∧
    findNode "carbon-tax" (Frame.nodes cur') = Some node' ∧
    Node.content node' = "Carbon Tax" ∧
    (Node.data node' ≫= prop "description") = Some "revised".
Proof.
  destruct (nodePanel_save_then_read initialState "carbon-tax" "Carbon Tax" "revised"
              NodeAssumption mainFrame
              (mkNode "carbon-tax" NodeProposition "Carbon Tax Policy" 650 100
                 [("description", "Proposed Solution")]))
    as (st' & cur' & node' & Hrun & Hc & Hn & Hcontent & _ & Hdesc & _);
    try reflexivity.
  exists st', cur', node'.
  assert (currentFrameId st' = "main") as Hmain.
  { unfold NodePanel.handleSave, mbind, action_bind, get, deref in Hrun.
    vm_compute in Hrun. by injection Hrun as <-. }
  rewrite Hmain in Hc. by split_and!.
Defined.
(** ** Bound sub-frames *)

Section Resolving.

Lemma resolve_weaken (fs fs' : gmap string Frame.t) (l : list Arrow.t) :
  (∀ k, is_Some (fs !! k) → is_Some (fs' !! k)) →
  Forall (λ a, ∀ s, Arrow.subFrameId a = Some s → is_Some (fs !! s)) l →
  Forall (λ a, ∀ s, Arrow.subFrameId a = Some s → is_Some (fs' !! s)) l.
Proof.
  intros Hmono Hl. eapply Forall_impl; [exact Hl |].
  intros a Ha s Hs. by apply Hmono, Ha.
Qed.

Lemma resolve_insert st k f :
  subFramesResolve st →
  Forall (λ a, ∀ s, Arrow.subFrameId a = Some s →
                    is_Some (<[k := f]> (frames st) !! s)) (Frame.arrows f) →
  subFramesResolve (with_frames (<[k := f]> (frames st)) st).
Proof.
  intros Hst Hf. unfold subFramesResolve. simpl.
  apply map_Forall_insert_2; [done |].
  intros j g Hg. simpl. eapply resolve_weaken; [| by apply (Hst j g)].
  intros s. apply is_Some_insert.
Qed.

Lemma resolve_lookup st k f :
  subFramesResolve st → frames st !! k = Some f →
  Forall (λ a, ∀ s, Arrow.subFrameId a = Some s → is_Some (frames st !! s))
         (Frame.arrows f).
Proof. intros Hst Hf. by apply (Hst k f). Qed.

Lemma resolve_edit st k f ars ns :
  subFramesResolve st → frames st !! k = Some f →
  Forall (λ a, ∀ s, Arrow.subFrameId a = Some s → is_Some (frames st !! s)) ars →
  subFramesResolve
    (with_frames
       (<[k := Frame.with_arrows ars (Frame.with_nodes ns f)]> (frames st)) st).
Proof.
  intros Hst Hf Hars. apply resolve_insert; [done |]. simpl.
  eapply resolve_weaken; [| exact Hars]. intros s. apply is_Some_insert.
Qed.

Lemma frame_with_nodes_only f ns :
  Frame.with_nodes ns f = Frame.with_arrows (Frame.arrows f) (Frame.with_nodes ns f).
Proof. done. Qed.

Lemma frame_with_arrows_only f ars :
  Frame.with_arrows ars f = Frame.with_arrows ars (Frame.with_nodes (Frame.nodes f) f).
Proof. by destruct f. Qed.

Lemma Forall_filter_weak {A} (P Q : A → Prop) `{!∀ x, Decision (Q x)} (l : list A) :
  Forall P l → Forall P (filter Q l).
Proof.
  intros Hl. apply Forall_forall. intros x [_ Hx]%list_elem_of_filter.
  by apply (proj1 (Forall_forall _ _) Hl).
Qed.

Lemma subFramesResolve_kept_by_call st c :
  subFramesResolve st → bindsNoSubFrame c → subFramesResolve (after st c).
Proof.
  intros Hst Hc. destruct c; simpl in Hc.
  - change (subFramesResolve (run st [ExpandArrow arrowId])).
    unfold subFramesResolve.
    by rewrite frames_kept_by_navigation by (by repeat constructor).
  - done.
  - change (subFramesResolve (run st [NavigateToFrame frameId])).
    unfold subFramesResolve.
    by rewrite frames_kept_by_navigation by (by repeat constructor).
  - change (subFramesResolve (run st [NavigateBack])).
    unfold subFramesResolve.
    by rewrite frames_kept_by_navigation by (by repeat constructor).
  - destruct (frames st !! frameId) as [f|] eqn:Hf.
    + rewrite (after_createNode _ _ _ _ f) by done.
      rewrite frame_with_nodes_only. apply resolve_edit; [done | done |].
      by eapply resolve_lookup.
    + by rewrite (after_edit_no_frame _ _ frameId).
  - destruct (frames st !! frameId) as [f|] eqn:Hf.
    + destruct (findNodeIndex nodeId (Frame.nodes f)) as [[j old]|] eqn:Hfind.
      * rewrite (after_updateNode _ _ _ _ f j old) by done.
        rewrite frame_with_nodes_only. apply resolve_edit; [done | done |].
        by eapply resolve_lookup.
      * unfold after, stateAfter, updateNode. unfold_action. by rewrite Hf, Hfind.
    + by rewrite (after_edit_no_frame _ _ frameId).
  - destruct (frames st !! frameId) as [f|] eqn:Hf.
    + rewrite (after_deleteNode _ _ _ f) by done.
      apply resolve_edit; [done | done |].
      apply Forall_filter_weak. by eapply resolve_lookup.
    + by rewrite (after_edit_no_frame _ _ frameId).
  - destruct (frames st !! frameId) as [f|] eqn:Hf.
    + rewrite (after_createArrow _ _ _ _ f) by done.
      rewrite frame_with_arrows_only. apply resolve_edit; [done | done |].
      apply Forall_app. split; [by eapply resolve_lookup |].
      apply Forall_singleton. simpl. rewrite Hc. simpl. by intros s.
    + by rewrite (after_edit_no_frame _ _ frameId).
  - destruct (frames st !! frameId) as [f|] eqn:Hf.
    + destruct (findArrowIndex arrowId (Frame.arrows f)) as [[j old]|] eqn:Hfind.
      * rewrite (after_updateArrow _ _ _ _ f j old) by done.
        rewrite frame_with_arrows_only. apply resolve_edit; [done | done |].
        pose proof (resolve_lookup st frameId f Hst Hf) as Hars.
        apply Forall_insert; [done |].
        apply list_find_Some in Hfind as (Hj & _ & _).
        pose proof (proj1 (Forall_lookup _ _) Hars j old Hj) as Hold.
        simpl. rewrite Hc. simpl. exact Hold.
      * unfold after, stateAfter, updateArrow. unfold_action. by rewrite Hf, Hfind.
    + by rewrite (after_edit_no_frame _ _ frameId).
  - destruct (frames st !! frameId) as [f|] eqn:Hf.
    + rewrite (after_deleteArrow _ _ _ f) by done.
      rewrite frame_with_arrows_only. apply resolve_edit; [done | done |].
      apply Forall_filter_weak. by eapply resolve_lookup.
    + by rewrite (after_edit_no_frame _ _ frameId).
  - unfold after, stateAfter, createFrame. unfold_action.
    apply resolve_insert; [done |]. simpl. rewrite Hc. simpl. constructor.
  - unfold after, stateAfter, createSubFrame. unfold_action.
    destruct (frames st !! currentFrameId st) as [cur|] eqn:Hcur; [| done].
    destruct (findArrow arrowId (Frame.arrows cur)) as [a0|]; [| done].
    unfold set. simpl.
    assert (subFramesResolve
              (with_frames
                 (<[newFrameId :=
                      spreadFrame (subFrameDefaults newFrameId arrowId cur) frame]>
                    (frames st)) st)) as Hst1.
    { apply resolve_insert; [done |]. simpl. rewrite Hc. simpl. constructor. }
    destruct (hasKey _ _); [| done].
    destruct (<[newFrameId := _]> (frames st) !! currentFrameId st)
      as [cur1|] eqn:Hcur1; [| done].
    destruct (findArrowIndex arrowId (Frame.arrows cur1)) as [[i a]|] eqn:Hfind;
      [| done].
    rewrite frame_with_arrows_only.
    apply (resolve_edit _ (currentFrameId st) cur1 _ _ Hst1); [done |].
    apply Forall_insert; [by apply (resolve_lookup _ _ _ Hst1 Hcur1) |].
    simpl. intros s [= <-]. rewrite lookup_insert_eq. eauto.
Qed.

End Resolving.

Lemma subFramesResolve_kept_by_run (st : ArrowsState) (calls : list Call) :
  subFramesResolve st →
  Forall bindsNoSubFrame calls →
  subFramesResolve (run st calls).
Proof.
  revert st. induction calls as [|c calls IH]; intros st Hst Hcalls; [done |].
  apply Forall_cons in Hcalls as [Hc Hcalls]. simpl.
  apply IH; [| done]. by apply subFramesResolve_kept_by_call.
Qed.

(** X21. Sub-frame bindings stay resolved: if every [subFrameId] of every
    arrow is a key of [frames], this stays so along any sequence of store
    calls that leave the binding of sub-frames to [createSubFrame], that is,
    whose [createArrow] and [updateArrow] carry no [subFrameId] and whose new
    frames are given no arrows. *)
Theorem sub_frames_stay_resolved (st : ArrowsState) (calls : list Call) :
  subFramesResolve st →
  Forall bindsNoSubFrame calls →
  subFramesResolve (run st calls).
Proof. apply subFramesResolve_kept_by_run. Qed.
Section Seed.

Lemma initial_keys : keysAreIds initialState.
Proof.
  intros k f Hf. unfold initialState, exampleData in Hf. simpl in Hf.
  repeat (apply lookup_insert_Some in Hf as [[<- <-]|[_ Hf]]; [reflexivity |]).
  by rewrite lookup_empty in Hf.
Qed.

Lemma initial_sub_frames : subFramesResolve initialState.
Proof.
  intros k f Hf. unfold initialState, exampleData in Hf. simpl in Hf.
  repeat (apply lookup_insert_Some in Hf as [[<- <-]|[_ Hf]];
          [repeat constructor; intros s [= <-]; vm_compute; eauto |]).
  by rewrite lookup_empty in Hf.
Qed.

Lemma initial_integrity : referentialIntegrity initialState.
Proof. apply (bool_decide_unpack _). vm_compute. exact I. Qed.

End Seed.

Lemma sub_frames_stay_resolved_witness :
  subFramesResolve
    (run initialState
       [CreateSubFrame "g1" "arrow-scientific-to-economic" PartialFrame.empty;
        DeleteArrow "main" "arrow-scientific-to-carbon";
        UpdateArrow "main" "arrow-scientific-to-economic" ArrowPanel.enable]).
Proof.
  apply (sub_frames_stay_resolved initialState).
  - apply initial_sub_frames.
  - repeat constructor.
Defined.

(** ** Events as store calls *)

Section Events.

Lemma stateAfter_then_unit {A} (m : Action A) st :
  stateAfter (m ≫= λ _, mret tt) st = stateAfter m st.
Proof. unfold stateAfter, mbind, action_bind. by destruct (m st). Qed.

Lemma honoured_app st calls1 calls2 :
  honoured st calls1 → honoured (run st calls1) calls2 →
  honoured st (calls1 ++ calls2).
Proof.
  revert st. induction calls1 as [|c calls1 IH]; intros st H1 H2; [done |].
  destruct H1 as [Hc H1]. simpl. split; [done |]. by apply IH.
Qed.

(** What a handler does to the store is what at most one store call does,
    and that call is one the store's invariants can live with. *)
Lemma event_as_calls st e :
  ∃ calls,
    stateAfter (handle e) st = run st calls ∧
    (length calls ≤ 1)%nat ∧
    Forall namesNoFrame calls ∧
    Forall bindsNoSubFrame calls ∧
    (keysAreIds st → navigationResolves st → Forall (targetsFrame st) calls) ∧
    (joinsDisplayedNodes st e → honoured st calls).
Proof.
  destruct e; simpl.
  - exists [CreateNode newNodeId (currentFrameId st)
              {| PartialNode.id := None; PartialNode.type := None;
                 PartialNode.content := Some "New Proposition";
                 PartialNode.position :=
                   Some {| Position.x := 200; Position.y := 200 |};
                 PartialNode.data := None |}].
    split.
    { unfold run, after, stateAfter, Toolbar.handleAddNode, mbind, action_bind, get.
      by destruct (createNode newNodeId (currentFrameId st) _ st). }
    split_and!;
      [simpl; lia | by repeat constructor | by repeat constructor |
       by repeat constructor | done].
  - exists [NavigateBack]. split; [reflexivity |].
    split_and!;
      [simpl; lia | by repeat constructor | by repeat constructor |
       by repeat constructor | done].
  - unfold stateAfter, Breadcrumbs.onClick, mbind, action_bind, get. cbv beta.
    destruct (includes (breadcrumbs st) frameId) eqn:Hin.
    + exists [NavigateToFrame frameId]. split; [reflexivity |].
      split_and!; [simpl; lia | by repeat constructor | by repeat constructor | | done].
      intros _ [_ Htrail]. apply Forall_singleton. left.
      apply includes_true in Hin.
      exact (proj1 (Forall_forall _ _) Htrail frameId Hin).
    + exists []. split; [reflexivity |].
      split_and!; [simpl; lia | constructor | constructor | constructor | done].
  - destruct connection as [[src|] [tgt|]];
      try (exists []; split; [reflexivity |];
           split_and!; [simpl; lia | constructor | constructor | constructor | done]).
    unfold BigArrowsCanvas.onConnect, mbind, action_bind, get.
    cbn [Connection.source Connection.target].
    destruct (truthy src && truthy tgt).
    + exists [CreateArrow newArrowId (currentFrameId st)
                {| PartialArrow.id := None; PartialArrow.source := Some src;
                   PartialArrow.target := Some tgt;
                   PartialArrow.type := Some ArrowLogical;
                   PartialArrow.hasSubFrame := Some false;
                   PartialArrow.subFrameId := None |}].
      split.
      { unfold run, after, stateAfter.
        by destruct (createArrow newArrowId (currentFrameId st) _ st). }
      split_and!;
        [simpl; lia | by repeat constructor | by repeat constructor |
         by repeat constructor |].
      intros Hjoin. split; [| done]. simpl.
      destruct (frames st !! currentFrameId st); done.
    + exists []. split; [reflexivity |].
      split_and!; [simpl; lia | constructor | constructor | constructor | done].
  - eexists [UpdateNode _ _ _]. split; [reflexivity |].
    split_and!;
      [simpl; lia | by repeat constructor | by repeat constructor |
       by repeat constructor |].
    intros _. split; [| done]. simpl. by intros i.
  - exists [CollapseArrow]. split; [reflexivity |].
    split_and!;
      [simpl; lia | by repeat constructor | by repeat constructor |
       by repeat constructor | done].
  - unfold CustomEdge.handleExpandClick.
    destruct (match data with Some a => Arrow.hasSubFrame a | None => false end).
    + exists [ExpandArrow id]. split; [reflexivity |].
      split_and!;
        [simpl; lia | by repeat constructor | by repeat constructor |
         by repeat constructor | done].
    + exists []. split; [reflexivity |].
      split_and!; [simpl; lia | constructor | constructor | constructor | done].
  - unfold stateAfter, ExpandedArrow.handleNavigateToFrame, mbind, action_bind, get,
      deref. cbv beta.
    destruct (frames st !! currentFrameId st) as [cur|];
      [| exists []; split; [reflexivity |];
         split_and!; [simpl; lia | constructor | constructor | constructor | done]].
    destruct (findArrow arrowId (Frame.arrows cur)) as [a|];
      [| exists []; split; [reflexivity |];
         split_and!; [simpl; lia | constructor | constructor | constructor | done]].
    destruct (negb (Arrow.hasSubFrame a) || negb (truthyOpt (Arrow.subFrameId a)));
      [exists []; split; [reflexivity |];
       split_and!; [simpl; lia | constructor | constructor | constructor | done] |].
    destruct (Arrow.subFrameId a) as [s|];
      [| exists []; split; [reflexivity |];
         split_and!; [simpl; lia | constructor | constructor | constructor | done]].
    simpl. unfold option_bind.
    destruct (frames st !! s) as [sub|] eqn:Hsub;
      [| exists []; split; [reflexivity |];
         split_and!; [simpl; lia | constructor | constructor | constructor | done]].
    exists [NavigateToFrame (Frame.id sub)]. split; [reflexivity |].
    split_and!; [simpl; lia | by repeat constructor | by repeat constructor | | done].
    intros Hkeys _. apply Forall_singleton. left.
    rewrite (Hkeys s sub Hsub). eauto.
  - unfold stateAfter, NodePanel.handleSave, mbind, action_bind, get, deref. cbv beta.
    destruct (frames st !! currentFrameId st) as [cur|];
      [| exists []; split; [reflexivity |];
         split_and!; [simpl; lia | constructor | constructor | constructor | done]].
    destruct (findNode nodeId (Frame.nodes cur)) as [node|];
      [| exists []; split; [reflexivity |];
         split_and!; [simpl; lia | constructor | constructor | constructor | done]].
    eexists [UpdateNode _ _ _]. split; [reflexivity |].
    split_and!;
      [simpl; lia | by repeat constructor | by repeat constructor |
       by repeat constructor |].
    intros _. split; [| done]. simpl. by intros i.
  - eexists [DeleteNode _ _]. split; [reflexivity |].
    split_and!;
      [simpl; lia | by repeat constructor | by repeat constructor |
       by repeat constructor | done].
  - unfold stateAfter, ArrowPanel.handleSave, mbind, action_bind, get, deref. cbv beta.
    destruct (frames st !! currentFrameId st) as [cur|];
      [| exists []; split; [reflexivity |];
         split_and!; [simpl; lia | constructor | constructor | constructor | done]].
    destruct (findArrow arrowId (Frame.arrows cur)) as [arrow|];
      [| exists []; split; [reflexivity |];
         split_and!; [simpl; lia | constructor | constructor | constructor | done]].
    eexists [UpdateArrow _ _ _]. split; [reflexivity |].
    split_and!;
      [simpl; lia | by repeat constructor | by repeat constructor |
       by repeat constructor |].
    intros _. split; [| done]. simpl.
    destruct (frames st !! currentFrameId st); done.
  - eexists [DeleteArrow _ _]. split; [reflexivity |].
    split_and!;
      [simpl; lia | by repeat constructor | by repeat constructor |
       by repeat constructor | done].
  - unfold stateAfter, ArrowPanel.handleCreateSubFrame, mbind, action_bind, get, deref.
    cbv beta.
    destruct (frames st !! currentFrameId st) as [cur|] eqn:Hcur;
      [| exists []; split; [reflexivity |];
         split_and!; [simpl; lia | constructor | constructor | constructor | done]].
    destruct (findArrow arrowId (Frame.arrows cur)) as [arrow|];
      [| exists []; split; [reflexivity |];
         split_and!; [simpl; lia | constructor | constructor | constructor | done]].
    destruct (truthyOpt (Arrow.subFrameId arrow)).
    + eexists [UpdateArrow _ _ _]. split; [reflexivity |].
      split_and!;
        [simpl; lia | by repeat constructor | by repeat constructor |
         by repeat constructor |].
      intros _. split; [| done]. simpl. by rewrite Hcur.
    + exists [CreateSubFrame newFrameId arrowId (ArrowPanel.subFrameFields cur arrow)].
      split.
      { unfold run, after, stateAfter.
        by destruct (createSubFrame newFrameId arrowId _ st). }
      split_and!;
        [simpl; lia | by repeat constructor | by repeat constructor |
         by repeat constructor |].
      intros _. split; [| done]. simpl. constructor.
Qed.

Lemma interact_as_run events : ∀ st,
  ∃ calls,
    interact st events = run st calls ∧
    (length calls ≤ length events)%nat ∧
    Forall namesNoFrame calls ∧
    Forall bindsNoSubFrame calls ∧
    (drawnOnDisplay st events → honoured st calls).
Proof.
  induction events as [|e events IH]; intros st.
  - exists []. split_and!; try done; constructor.
  - destruct (event_as_calls st e) as (c1 & He & Hlen1 & Hn1 & Hb1 & _ & Hh1).
    destruct (IH (stateAfter (handle e) st)) as (c2 & Hrest & Hlen2 & Hn2 & Hb2 & Hh2).
    exists (c1 ++ c2). split_and!.
    + simpl. by rewrite Hrest, He, run_app.
    + rewrite length_app. simpl. lia.
    + by apply Forall_app.
    + by apply Forall_app.
    + intros [Hjoin Hdrawn]. apply honoured_app; [by apply Hh1 |].
      rewrite <- He. by apply Hh2.
Qed.

End Events.

Section Sessions.

(** The user interface navigates to frames only: a breadcrumb that is in
    the trail, or the frame that the overlay shows. *)
Lemma handler_keeps_invariants st e :
  keysAreIds st ∧ subFramesResolve st ∧ navigationResolves st ∧ trailEndsAtCurrent st →
  keysAreIds (stateAfter (handle e) st) ∧
  subFramesResolve (stateAfter (handle e) st) ∧
  navigationResolves (stateAfter (handle e) st) ∧
  trailEndsAtCurrent (stateAfter (handle e) st).
Proof.
  intros (Hkeys & Hres & Hnav & Htrail).
  destruct (event_as_calls st e)
    as (calls & -> & Hlen & Hnames & Hbinds & Htargets & _).
  split_and!.
  - by apply keysAreIds_kept_by_run.
  - by apply subFramesResolve_kept_by_run.
  - apply navigation_kept_by_run; [done |].
    specialize (Htargets Hkeys Hnav).
    destruct calls as [|c [|c' calls]]; [done | | simpl in Hlen; lia].
    split; [| done]. exact (proj1 (Forall_singleton _ _) Htargets).
  - by apply trail_kept_by_run.
Qed.

(** What holds of the store after any sequence of user events from the
    initial state. *)
Lemma session_invariants events :
  keysAreIds (interact initialState events) ∧
  subFramesResolve (interact initialState events) ∧
  navigationResolves (interact initialState events) ∧
  trailEndsAtCurrent (interact initialState events).
Proof.
  assert (∀ st,
            keysAreIds st ∧ subFramesResolve st ∧ navigationResolves st ∧
            trailEndsAtCurrent st →
            keysAreIds (interact st events) ∧ subFramesResolve (interact st events) ∧
            navigationResolves (interact st events) ∧
            trailEndsAtCurrent (interact st events)) as Hkept.
  { induction events as [|e events IH]; intros st Hst; [done |].
    simpl. by apply IH, handler_keeps_invariants. }
  apply Hkept.
  split_and!;
    [apply initial_keys | apply initial_sub_frames | apply initial_navigation |
     apply initial_trail].
Qed.

Lemma createSubFrame_returns st newFrameId arrowId fields :
  is_Some (frames st !! currentFrameId st) →
  ∃ r st', createSubFrame newFrameId arrowId fields st = Normal r st'.
Proof.
  intros [cur Hcur]. unfold createSubFrame. unfold_action. rewrite Hcur.
  destruct (findArrow arrowId (Frame.arrows cur)); eauto.
Qed.

(** On a key of [frames] every editing action returns. *)
Lemma edit_returns st frameId :
  is_Some (frames st !! frameId) →
  (∀ i node, ∃ st', createNode i frameId node st = Normal i st') ∧
  (∀ i updates, ∃ st', updateNode frameId i updates st = Normal tt st') ∧
  (∀ i, ∃ st', deleteNode frameId i st = Normal tt st') ∧
  (∀ i arrow, ∃ st', createArrow i frameId arrow st = Normal i st') ∧
  (∀ i updates, ∃ st', updateArrow frameId i updates st = Normal tt st') ∧
  (∀ i, ∃ st', deleteArrow frameId i st = Normal tt st').
Proof.
  intros [f Hf].
  split_and!; intros;
    unfold createNode, updateNode, deleteNode, createArrow, updateArrow, deleteArrow;
    unfold_action; rewrite Hf; repeat case_match; simplify_eq; by eexists.
Qed.

Lemma navigateToFrame_returns st frameId :
  ∃ st', navigateToFrame frameId st = Normal tt st'.
Proof. destruct (navigateToFrame_cases st frameId) as [->|[_ ->]]; by eexists. Qed.

Lemma expandArrow_returns st arrowId :
  is_Some (frames st !! currentFrameId st) →
  ∃ st', expandArrow arrowId st = Normal tt st'.
Proof.
  intros [cur Hcur]. unfold expandArrow. unfold_action. rewrite Hcur.
  destruct (expandable _); by eexists.
Qed.

Lemma handler_returns st e :
  is_Some (frames st !! currentFrameId st) →
  subFramesResolve st →
  ∃ st', handle e st = Normal tt st'.
Proof.
  intros Hkey Hres. pose proof Hkey as [cur Hcur].
  destruct (edit_returns st (currentFrameId st) Hkey)
    as (HcreateNode & HupdateNode & HdeleteNode & HcreateArrow & HupdateArrow
        & HdeleteArrow).
  destruct e; simpl.
  - unfold Toolbar.handleAddNode, mbind, action_bind, get.
    match goal with
    | |- context [createNode ?i _ ?n st] => destruct (HcreateNode i n) as [st' ->]
    end.
    by eexists.
  - unfold navigateBack, mbind, action_bind, get.
    destruct (bool_decide _); [| by eexists].
    destruct (breadcrumbs st !! _); by eexists.
  - unfold Breadcrumbs.onClick, mbind, action_bind, get.
    destruct (includes (breadcrumbs st) frameId); [| by eexists].
    apply navigateToFrame_returns.
  - unfold BigArrowsCanvas.onConnect, mbind, action_bind, get.
    destruct (Connection.source connection), (Connection.target connection);
      try by eexists.
    destruct (truthy _ && truthy _); [| by eexists].
    match goal with
    | |- context [createArrow ?i _ ?a st] => destruct (HcreateArrow i a) as [st' ->]
    end.
    by eexists.
  - apply HupdateNode.
  - by eexists.
  - unfold CustomEdge.handleExpandClick.
    destruct (match data with Some a => Arrow.hasSubFrame a | None => false end);
      [| by eexists].
    by apply expandArrow_returns.
  - unfold ExpandedArrow.handleNavigateToFrame, mbind, action_bind, get, deref.
    rewrite Hcur.
    destruct (findArrow arrowId (Frame.arrows cur)) as [a|] eqn:Ha; [| by eexists].
    destruct (negb (Arrow.hasSubFrame a) || negb (truthyOpt (Arrow.subFrameId a)))
      eqn:Hshown; [by eexists |].
    apply orb_false_iff in Hshown as [_ Hbound%negb_false_iff].
    destruct (Arrow.subFrameId a) as [s|] eqn:Hs; [| done].
    destruct (findArrow_elem _ _ _ Ha) as [Hin _].
    pose proof (proj1 (Forall_forall _ _) (Hres _ _ Hcur) a Hin s Hs) as [sub Hsub].
    simpl. unfold option_bind. rewrite Hsub.
    apply navigateToFrame_returns.
  - unfold NodePanel.handleSave, mbind, action_bind, get, deref. rewrite Hcur.
    destruct (findNode nodeId (Frame.nodes cur)); [| by eexists].
    apply HupdateNode.
  - apply HdeleteNode.
  - unfold ArrowPanel.handleSave, mbind, action_bind, get, deref. rewrite Hcur.
    destruct (findArrow arrowId (Frame.arrows cur)); [| by eexists].
    apply HupdateArrow.
  - apply HdeleteArrow.
  - unfold ArrowPanel.handleCreateSubFrame, mbind, action_bind, get, deref.
    rewrite Hcur.
    destruct (findArrow arrowId (Frame.arrows cur)) as [a|]; [| by eexists].
    destruct (truthyOpt (Arrow.subFrameId a)); [apply HupdateArrow |].
    destruct (createSubFrame_returns st newFrameId arrowId
                (ArrowPanel.subFrameFields cur a)) as (r & st' & ->); [eauto |].
    by eexists.
Qed.

End Sessions.

(** X22. The user interface drives the store by at most one store call per
    event, and never hands it an id for a frame, arrows for a new frame, or
    a [subFrameId]: the state after any sequence of events is the state
    after such a sequence of calls. *)
Theorem events_are_store_calls (st : ArrowsState) (events : list Event) :
  ∃ calls,
    interact st events = run st calls ∧
    (length calls ≤ length events)%nat ∧
    Forall namesNoFrame calls ∧
    Forall bindsNoSubFrame calls.
Proof.
  destruct (interact_as_run events st) as (calls & H1 & H2 & H3 & H4 & _).
  by exists calls.
Qed.

(** X23. Referential integrity in the user interface. From a state in which
    every arrow joins two nodes of its frame, this stays so after any
    sequence of user events in which each connection drawn on the canvas
    joins two nodes of the frame on display. *)
Theorem session_keeps_referential_integrity
    (st : ArrowsState) (events : list Event) :
  referentialIntegrity st →
  drawnOnDisplay st events →
  referentialIntegrity (interact st events).
Proof.
  intros Hst Hdrawn.
  destruct (interact_as_run events st) as (calls & -> & _ & _ & _ & Hh).
  apply integrity_kept_by_run; [done |]. by apply Hh.
Qed.

Lemma session_keeps_referential_integrity_witness :
  referentialIntegrity
    (interact initialState
       [ToolbarAddNode "n1";
        CanvasConnect "a1"
          {| Connection.source := Some "n1"; Connection.target := Some "carbon-tax" |};
        NodePanelDelete "carbon-tax"]).
Proof.
  apply (session_keeps_referential_integrity initialState).
  - apply initial_integrity.
  - split; [done |]. split; [| done].
    vm_compute. split; apply list_elem_of_In; simpl; auto 10.
Defined.

(** X24. In a session no expansion dangles. After any sequence of user
    events from the initial state, [expandArrow] returns, and it changes the
    state only for an arrow of the current frame that is flagged and bound
    to a frame that exists. *)
Theorem session_expansion_resolves (events : list Event) (arrowId : string) :
  ∃ st',
    expandArrow arrowId (interact initialState events) = Normal tt st' ∧
    (resolvableSubFrame (interact initialState events) arrowId ∨
     st' = interact initialState events).
Proof.
  destruct (session_invariants events) as (_ & Hres & [[cur Hcur] _] & _).
  destruct (expandArrow_on_frame _ arrowId cur Hcur) as (st' & Hrun & _ & _ & _ & _ & Hno & _).
  exists st'. split; [done |].
  destruct (decide (expandable (findArrow arrowId (Frame.arrows cur)) = true))
    as [Hgate|Hgate].
  - left. apply expandable_first in Hgate.
    destruct (firstArrowExpandable_elem _ _ Hgate) as (a & s & Ha & Hid & Hflag & Hs & _).
    exists cur, a, s. split_and!; try done.
    exact (proj1 (Forall_forall _ _) (Hres _ _ Hcur) a Ha s Hs).
  - right. apply Hno. by intros H%expandable_first.
Qed.

(** X25. In a session no handler throws. After any sequence of user events
    from the initial state, every handler returns: the current frame and the
    sub-frame of every bound arrow are there to be read. *)
Theorem session_never_throws (events : list Event) (e : Event) :
  ∃ st', handle e (interact initialState events) = Normal tt st'.
Proof.
  destruct (session_invariants events) as (_ & Hres & [Hcur _] & _).
  by apply handler_returns.
Qed.

(** X26. In a session Open Full Screen always enters the sub-frame on
    display. After any sequence of user events from the initial state, for
    an arrow that the overlay shows, [handleNavigateToFrame] makes the frame
    the arrow is bound to the current frame and ends the trail with it. *)
Theorem session_open_full_screen
    (events : list Event) (arrowId s : string) (cur : Frame.t) (a : Arrow.t) :
  frames (interact initialState events)
  !! currentFrameId (interact initialState events) = Some cur →
  findArrow arrowId (Frame.arrows cur) = Some a →
  Arrow.hasSubFrame a = true →
  Arrow.subFrameId a = Some s →
  s ≠ "" →
  ∃ st',
    ExpandedArrow.handleNavigateToFrame arrowId (interact initialState events)
    = Normal tt st' ∧
    currentFrameId st' = s ∧
    expandedArrowId st' = None ∧
    last (breadcrumbs st') = Some s.
Proof.
  intros Hcur Ha Hflag Hs Hne.
  destruct (session_invariants events) as (Hkeys & Hres & _ & _).
  destruct (findArrow_elem _ _ _ Ha) as [Hin _].
  pose proof (proj1 (Forall_forall _ _) (Hres _ _ Hcur) a Hin s Hs) as [sub Hsub].
  destruct (open_full_screen_shape _ arrowId s cur sub a Hcur Ha Hflag Hs Hne Hsub)
    as (st' & Hrun & Hc & He & Hl & _); [by apply (Hkeys s sub) |].
  by exists st'.
Qed.

Lemma session_open_full_screen_witness :
  ∃ st',
    ExpandedArrow.handleNavigateToFrame "arrow-scientific-to-economic"
      (interact initialState
         [ArrowPanelCreateSubFrame "g1" "arrow-scientific-to-economic";
          ToolbarAddNode "n1";
          EdgeExpandClick "arrow-scientific-to-economic"
            (Some (mkArrow "arrow-scientific-to-economic" "scientific-evidence"
                     "economic-analysis" ArrowSupportive true (Some "g1")))])
    = Normal tt st' ∧
    currentFrameId st' = "g1" ∧
    expandedArrowId st' = None ∧
    last (breadcrumbs st') = Some "g1".
Proof.
  apply (session_open_full_screen
           [ArrowPanelCreateSubFrame "g1" "arrow-scientific-to-economic";
            ToolbarAddNode "n1";
            EdgeExpandClick "arrow-scientific-to-economic"
              (Some (mkArrow "arrow-scientific-to-economic" "scientific-evidence"
                       "economic-analysis" ArrowSupportive true (Some "g1")))]
           "arrow-scientific-to-economic" "g1"
           (Frame.with_nodes
              (Frame.nodes mainFrame ++
               [{| Node.id := "n1"; Node.type := NodeProposition;
                   Node.content := "New Proposition";
                   Node.position := {| Position.x := 200; Position.y := 200 |};
                   Node.data := None |}])
              (Frame.with_arrows
                 (<[1%nat :=
                      mkArrow "arrow-scientific-to-economic" "scientific-evidence"
                        "economic-analysis" ArrowSupportive true (Some "g1")]>
                    (Frame.arrows mainFrame))
                 mainFrame))
           (mkArrow "arrow-scientific-to-economic" "scientific-evidence"
              "economic-analysis" ArrowSupportive true (Some "g1"))).
  - vm_compute. reflexivity.
  - reflexivity.
  - reflexivity.
  - reflexivity.
  - discriminate.
Defined.

Lemma update_idempotent_witness :
  run initialState
    [UpdateArrow "main" "arrow-scientific-to-economic" ArrowPanel.enable;
     UpdateArrow "main" "arrow-scientific-to-economic" ArrowPanel.enable]
  = run initialState
      [UpdateArrow "main" "arrow-scientific-to-economic" ArrowPanel.enable].
Proof.
  destruct (update_idempotent initialState "main" "arrow-scientific-to-economic")
    as [_ H].
  by apply H.
Defined.
